(** * NeoFS S3 gateway: the tree projection engine

    A shallow embedding of the tree client (package [neofs], [tree.go]), of
    the records of package [data] it works on, and of
    [layer.ListObjectVersions], followed by the properties the
    specification states about them.

    Conventions.
    - Go [string] is [string] (a sequence of bytes), compared bytewise.
    - [uint64] node ids and timestamps are [N]; [int64] and [int] are [Z]
      with the range test written where the code has one.
    - [map[string]string] is [gmap string string]; ranging over a map
      visits [map_to_list] (Go leaves the order open, the embedding fixes
      one; nothing below depends on which).
    - [(T, error)] is [result T]; a call that can panic has an [outcome].
    - [sort.Slice] is any sort that keeps the promise of the package; the
      memory a slice of a requested capacity needs is the machine's to
      give.
    - [context.Context] and the container id are carried unchanged through
      every call and are left out; the bearer token with them. *)

From stdpp Require Import gmap strings list sorting.
From Stdlib Require Import ZArith NArith Ascii.

Local Open Scope string_scope.

(** ** Go run-time library *)

(** Package [strings]. *)
Module Strings.

(** [strings.Split(s, sep)] for a one-byte separator: both call sites
    pass a one-byte constant (["/"] and [","]).  The result is never
    empty. *)
Fixpoint Split (s : string) (sep : ascii) : list string :=
  match s with
  | EmptyString => [EmptyString]
  | String c rest =>
      if Ascii.eqb c sep then EmptyString :: Split rest sep
      else match Split rest sep with
           | [] => [String c EmptyString]
           | seg :: segs => String c seg :: segs
           end
  end.

(** [strings.Join(elems, sep)]. *)
Definition Join (elems : list string) (sep : string) : string :=
  String.concat sep elems.

(** [strings.Contains(s, substr)]. *)
Definition Contains (s substr : string) : bool :=
  match String.index 0 substr s with
  | Some _ => true
  | None => false
  end.

(** [strings.HasPrefix(s, prefix)]. *)
Definition HasPrefix (s prefix : string) : bool := String.prefix prefix s.

(** Go's [a >= b] on strings: bytewise lexicographic order. *)
Definition ge (a b : string) : bool := String.leb b a.

(** [strings.HasSuffix(s, suffix)]:
    [len(s) >= len(suffix) && s[len(s)-len(suffix):] == suffix]. *)
Definition HasSuffix (s suffix : string) : bool :=
  (String.length suffix <=? String.length s)%nat &&
  String.eqb (String.substring (String.length s - String.length suffix)
                               (String.length suffix) s) suffix.

(** [strings.TrimPrefix(s, prefix)]: [s[len(prefix):]] when [s] starts
    with [prefix], [s] otherwise. *)
Definition TrimPrefix (s prefix : string) : string :=
  if HasPrefix s prefix
  then String.substring (String.length prefix) (String.length s - String.length prefix) s
  else s.

(** [strings.TrimSuffix(s, suffix)]: [s[:len(s)-len(suffix)]] when [s]
    ends with [suffix], [s] otherwise. *)
Definition TrimSuffix (s suffix : string) : string :=
  if HasSuffix s suffix
  then String.substring 0 (String.length s - String.length suffix) s
  else s.

End Strings.

(** Package [strconv], base 10 and 64 bits, which is all the client uses. *)
Module Strconv.

Local Open Scope Z_scope.

Inductive NumError := ErrSyntax | ErrRange.

Definition isDigit (c : ascii) : bool :=
  ((48 <=? N_of_ascii c) && (N_of_ascii c <=? 57))%N.

Definition digitValue (c : ascii) : Z := Z.of_N (N_of_ascii c) - 48.

Definition maxUint64 : Z := 2 ^ 64 - 1.

(** The smallest number such that [cutoff * 10 > maxUint64]. *)
Definition cutoff : Z := maxUint64 / 10 + 1.

(** The loop of [ParseUint] over the bytes, [n] being the number read so
    far.  The addition is written in [Z]: [maxUint64 < n1] is the test
    [n1 < n || n1 > maxVal] of the code, whose first half catches the
    wrap-around of the uint64 sum. *)
Fixpoint ParseUint_loop (s : string) (n : Z) : Z * option NumError :=
  match s with
  | EmptyString => (n, None)
  | String c rest =>
      if isDigit c then
        if cutoff <=? n then (maxUint64, Some ErrRange)
        else
          let n1 := n * 10 + digitValue c in
          if maxUint64 <? n1 then (maxUint64, Some ErrRange)
          else ParseUint_loop rest n1
      else (0, Some ErrSyntax)
  end.

(** [strconv.ParseUint(s, 10, 64)]. *)
Definition ParseUint (s : string) : Z * option NumError :=
  match s with
  | EmptyString => (0, Some ErrSyntax)
  | _ => ParseUint_loop s 0
  end.

(** [strconv.ParseInt(s, 10, 64)]. *)
Definition ParseInt (s : string) : Z * option NumError :=
  match s with
  | EmptyString => (0, Some ErrSyntax)
  | String c rest =>
      let neg := Ascii.eqb c "-" in
      let s1 := if Ascii.eqb c "+" || neg then rest else s in
      let (un, err) := ParseUint s1 in
      match err with
      | Some ErrSyntax => (0, err)
      | _ =>
          let cutoff := (2 ^ 63)%Z in
          if negb neg && (cutoff <=? un)%Z then ((cutoff - 1)%Z, Some ErrRange)
          else if neg && (cutoff <? un)%Z then ((- cutoff)%Z, Some ErrRange)
          else ((if neg then - un else un)%Z, None)
      end
  end.

(** [strconv.Atoi]: [int] has 64 bits on the gateway's platforms. *)
Definition Atoi (s : string) : Z * option NumError := ParseInt s.

Definition digitChar (d : Z) : ascii := ascii_of_N (Z.to_N (48 + d)).

(** Decimal digits of a non-negative number, least significant first
    into [acc]; [fuel] bounds the number of digits. *)
Fixpoint formatBits (fuel : nat) (n : Z) (acc : string) : string :=
  match fuel with
  | O => acc
  | S fuel' =>
      let acc' := String (digitChar (n mod 10)) acc in
      if (n <? 10)%Z then acc' else formatBits fuel' (n / 10) acc'
  end.

Definition formatUint (n : Z) : string :=
  formatBits (S (Z.to_nat (Z.log2 n))) n EmptyString.

(** [strconv.FormatInt(i, 10)], also what [fmt]'s [%d] prints. *)
Definition FormatInt (i : Z) : string :=
  if (i <? 0)%Z then String "-" (formatUint (- i)) else formatUint i.

Definition Itoa (i : Z) : string := FormatInt i.

(** [strconv.FormatUint(i, 10)]. *)
Definition FormatUint (i : Z) : string := formatUint i.

End Strconv.

(** Package [sort].  [sort.Slice(x, less)] sorts [x] in place and is not
    stable: among elements that compare equal any order may come out.
    Its algorithm belongs to the Go release the gateway is built with and
    is not part of the sources.  What the package promises, for a [less]
    that is a strict weak ordering, is that the slice afterwards holds the
    elements it held before, that none of them is less than one that
    stands before it, and that the outcome depends on [less] through its
    answers only.  A [Slicer] is any sort that keeps this promise, Go's
    among them; [insertionSort] is another, and runs the examples. *)
Module Sort.

Section Contract.
Context {A : Type} (less : A → A → bool).

Definition strictWeakOrdering : Prop :=
  (∀ x, less x x = false) ∧
  (∀ x y z, less x y = true → less y z = true → less x z = true) ∧
  (∀ x y z, less x z = true → less x y = true ∨ less y z = true).

(** No element is less than one that stands before it. *)
Definition ordered (l : list A) : Prop :=
  StronglySorted (λ x y, less y x = false) l.

Fixpoint insert (x : A) (l : list A) : list A :=
  match l with
  | [] => [x]
  | y :: l' => if less x y then x :: y :: l' else y :: insert x l'
  end.

Definition insertionSort (l : list A) : list A := foldl (λ acc x, insert x acc) [] l.

End Contract.

Class Slicer := {
  Slice : ∀ {A : Type}, (A → A → bool) → list A → list A;
  Slice_permutes : ∀ {A : Type} (less : A → A → bool) (l : list A), Slice less l ≡ₚ l;
  Slice_orders : ∀ {A : Type} (less : A → A → bool) (l : list A),
    strictWeakOrdering less → ordered less (Slice less l);
  Slice_respects : ∀ {A : Type} (less less' : A → A → bool) (l : list A),
    (∀ x y, less x y = less' x y) → Slice less l = Slice less' l
}.

(** [sort.Strings]: strings that compare equal are equal, so every sort
    that orders them gives the same slice; the insertion sort computes
    it. *)
Definition Strings (l : list string) : list string := insertionSort String.ltb l.

End Sort.

(** ** Errors and results *)

(** Go [error] values as the client builds and tests them.  The two
    sentinels are variables of package [layer]; [errorString] is what
    [errors.New] and [fmt.Errorf] without [%w] return, and it also stands
    for the errors of the transport and of the SDK; [wrapError msg err] is
    [fmt.Errorf(msg + "%w", err)]. *)
Inductive error :=
| ErrNodeNotFound
| ErrNoNodeToRemove
| errorString (msg : string)
| wrapError (msg : string) (err : error).

(** Modelled from the spec: the sentinels [layer.ErrNodeNotFound] and
    [layer.ErrNoNodeToRemove] (spec 6, exposed sentinels) are declared in
    a file of package [layer] that is not among the sources.  The texts
    they were created with are left open. *)
Class LayerErrors := {
  errNodeNotFoundText : string;
  errNoNodeToRemoveText : string
}.

(** [err.Error()]. *)
Fixpoint Error `{LayerErrors} (err : error) : string :=
  match err with
  | ErrNodeNotFound => errNodeNotFoundText
  | ErrNoNodeToRemove => errNoNodeToRemoveText
  | errorString msg => msg
  | wrapError msg err' => msg ++ Error err'
  end.

(** [errors.Is(err, layer.ErrNodeNotFound)]: walks the [%w] chain. *)
Fixpoint IsErrNodeNotFound (err : error) : bool :=
  match err with
  | ErrNodeNotFound => true
  | wrapError _ err' => IsErrNodeNotFound err'
  | _ => false
  end.

(** A Go pair [(T, error)]: [Ok] when the error is nil. *)
Inductive result (A : Type) :=
| Ok (a : A)
| Err (e : error).
Arguments Ok {A} a.
Arguments Err {A} e.

(** How a call ends: it returns, or the run time stops it: with a panic (an
    index or a capacity out of range), or with the fatal error of an
    allocation the machine has no memory for, which is filed here with its
    own reason. *)
Inductive outcome (A : Type) :=
| Returns (a : A)
| Panics (reason : string).
Arguments Returns {A} a.
Arguments Panics {A} reason.

(** The error value of a failed [strconv] call. *)
Definition numError (fn s : string) (e : Strconv.NumError) : error :=
  let quote := String (ascii_of_N 34) EmptyString in
  errorString ("strconv." ++ fn ++ ": parsing " ++ quote ++ s ++ quote ++ ": " ++
               match e with
               | Strconv.ErrSyntax => "invalid syntax"
               | Strconv.ErrRange => "value out of range"
               end).

(** ** The NeoFS SDK *)

(** The packages [oid] and [user] of neofs-sdk-go, as far as the client
    uses them: the object id with its string codec, and the user id.
    [oidZero] is [oid.ID{}].  Decoding what [EncodeToString] printed gives
    the id back. *)
Class SDK := {
  oid : Type;
  oid_eq_dec :: EqDecision oid;
  oidZero : oid;
  EncodeToString : oid → string;
  DecodeString : string → result oid;
  DecodeString_EncodeToString : ∀ o, DecodeString (EncodeToString o) = Ok o;
  userID : Type;
  userZero : userID;
  userEncodeToString : userID → string;
  userDecodeString : string → result userID
}.

(** [time.Time] is kept as its [UnixMilli] value; [time.UnixMilli] and
    [t.UTC().UnixMilli()] are then the identity, and the zero [Time]
    (January 1, year 1) is the instant below. *)
Definition Time := Z.
Definition zeroTime : Time := (-62135596800000)%Z.

(** ** Package [data] *)
Module Data.

Section Records.
Context `{SDK}.

(** BaseNodeVersion is minimal node info from tree service. *)
Record BaseNodeVersion := {
  ID : N;
  OID : oid;
  Timestamp : N;
  Size : Z;
  ETag : string;
  FilePath : string
}.

Record DeleteMarkerInfo := {
  Created : Time;
  Owner : userID
}.

(** NodeVersion represent node from tree service ([BaseNodeVersion] is
    embedded in the Go struct). *)
Record NodeVersion := {
  Base : BaseNodeVersion;
  DeleteMarker : option DeleteMarkerInfo;
  IsUnversioned : bool
}.

(** PartInfo is upload information about part. *)
Record PartInfo := {
  Part_Key : string;
  Part_UploadID : string;
  Part_Number : Z;
  Part_OID : oid;
  Part_Size : Z;
  Part_ETag : string;
  Part_Created : Time
}.

(** MultipartInfo is multipart upload information. *)
Record MultipartInfo := {
  Multipart_ID : N;
  Multipart_Key : string;
  Multipart_UploadID : string;
  Multipart_Owner : userID;
  Multipart_Created : Time;
  Multipart_Meta : gmap string string
}.

(** ToHeaderString form short part representation to use in
    S3-Completed-Parts header. *)
Definition ToHeaderString (p : PartInfo) : string :=
  Strconv.Itoa (Part_Number p) ++ "-" ++ Strconv.FormatInt (Part_Size p) ++ "-" ++ Part_ETag p.

(** LockInfo is lock information to create appropriate tree node.  The
    methods with a pointer receiver return the record they leave. *)
Record LockInfo := {
  Lock_id : N;
  legalHoldOID : oid;
  setLegalHold : bool;
  retentionOID : oid;
  setRetention : bool;
  untilDate : string;
  isCompliance : bool
}.

Definition NewLockInfo (id : N) : LockInfo :=
  {| Lock_id := id; legalHoldOID := oidZero; setLegalHold := false;
     retentionOID := oidZero; setRetention := false; untilDate := ""; isCompliance := false |}.

Definition LockInfo_ID (l : LockInfo) : N := Lock_id l.

Definition SetLegalHold (l : LockInfo) (objID : oid) : LockInfo :=
  {| Lock_id := Lock_id l; legalHoldOID := objID; setLegalHold := true;
     retentionOID := retentionOID l; setRetention := setRetention l;
     untilDate := untilDate l; isCompliance := isCompliance l |}.

Definition ResetLegalHold (l : LockInfo) : LockInfo :=
  {| Lock_id := Lock_id l; legalHoldOID := legalHoldOID l; setLegalHold := false;
     retentionOID := retentionOID l; setRetention := setRetention l;
     untilDate := untilDate l; isCompliance := isCompliance l |}.

Definition LegalHold (l : LockInfo) : oid := legalHoldOID l.

Definition IsLegalHoldSet (l : LockInfo) : bool := setLegalHold l.

Definition SetRetention (l : LockInfo) (objID : oid) (until : string) (compliance : bool)
  : LockInfo :=
  {| Lock_id := Lock_id l; legalHoldOID := legalHoldOID l; setLegalHold := setLegalHold l;
     retentionOID := objID; setRetention := true; untilDate := until;
     isCompliance := compliance |}.

Definition IsRetentionSet (l : LockInfo) : bool := setRetention l.

Definition Retention (l : LockInfo) : oid := retentionOID l.

Definition UntilDate (l : LockInfo) : string := untilDate l.

Definition IsCompliance (l : LockInfo) : bool := isCompliance l.

End Records.

(** Modelled from the spec: the lock configuration of a bucket (spec 3,
    BucketSettings; spec 4.1, the four fields enabled, days, mode, years)
    is declared in a file of package [data] that is not among the sources.
    The fields are those [parseLockConfiguration] and
    [encodeLockConfiguration] read and write: [Days] and [Years] are
    [int64], the two pointers are options. *)
Record DefaultRetention := {
  Days : Z;
  Mode : string;
  Years : Z
}.

Record ObjectLockRule := {
  Rule_DefaultRetention : option DefaultRetention
}.

Record ObjectLockConfiguration := {
  ObjectLockEnabled : string;
  Rule : option ObjectLockRule
}.

(** Modelled from the spec: the settings of a bucket (spec 3,
    BucketSettings: the versioning mode and the optional lock
    configuration) are declared in a file of package [data] that is not
    among the sources, and so is the mode [VersioningUnversioned] (spec
    4.6: settings decode with a default of [Unversioned]).  The fields are
    those [GetSettingsNode] and [metaFromSettings] read and write. *)
Record BucketSettings := {
  Versioning : string;
  LockConfiguration : option ObjectLockConfiguration
}.

Definition VersioningUnversioned := "Unversioned".

(** Modelled from the spec: [ObjectInfo] (spec 4.7, the name and the
    version id of a listed version) is declared in a file of package [data]
    that is not among the sources.  The members are those
    [ListObjectVersions] reads; [Version] is the value of the method
    [Version()]. *)
Record ObjectInfo := {
  Name : string;
  Version : string;
  IsDeleteMarker : bool
}.

(** ExtendedObjectInfo contains additional node info to be able to sort
    versions by timestamp. *)
Record ExtendedObjectInfo `{SDK} := {
  EOI_ObjectInfo : ObjectInfo;
  EOI_NodeVersion : NodeVersion;
  IsLatest : bool
}.

End Data.

(** ** Package [neofs]: the tree client *)
Module Neofs.

Definition versioningKV := "Versioning".
Definition lockConfigurationKV := "LockConfiguration".
Definition oidKV := "OID".
Definition fileNameKV := "FileName".
Definition isUnversionedKV := "IsUnversioned".
Definition isTagKV := "IsTag".
Definition uploadIDKV := "UploadId".
Definition partNumberKV := "Number".
Definition sizeKV := "Size".
Definition etagKV := "ETag".
Definition isDeleteMarkerKV := "IsDeleteMarker".
Definition ownerKV := "Owner".
Definition createdKV := "Created".
Definition emptyFileName := "<empty>".
Definition versionTree := "version".
Definition systemTree := "system".
Definition separator : ascii := "/".

Definition isLockKV := "IsLock".
Definition legalHoldOIDKV := "LegalHoldOID".
Definition retentionOIDKV := "RetentionOID".
Definition untilDateKV := "UntilDate".
Definition isComplianceKV := "IsCompliance".
Definition settingsFileName := "bucket-settings".
Definition notifConfFileName := "bucket-notifications".
Definition corsFilename := "bucket-cors".
Definition bucketTaggingFilename := "bucket-tagging".
Definition userDefinedTagPrefix := "User-Tag-".
Definition maxGetSubTreeDepth : N := 10.

(** [tree.KeyValue]; the value is a byte slice, converted to [string]
    wherever it is read. *)
Record KeyValue := {
  GetKey : string;
  GetValue : string
}.

(** The bodies the service answers with ([tree.GetSubTreeResponse_Body],
    [tree.GetNodeByPathResponse_Info]); the interface [NodeResponse] is
    three of these getters. *)
Record NodeBody := {
  GetNodeId : N;
  GetParentId : N;
  GetTimestamp : N;
  GetMeta : list KeyValue
}.

(** *** Lock configuration *)

Definition invalidLockConfiguration (value : string) : error :=
  errorString ("invalid lock configuration: " ++ value).

Definition parseLockConfiguration (value : string) : result Data.ObjectLockConfiguration :=
  if (String.length value =? 0)%nat
  then Ok {| Data.ObjectLockEnabled := ""; Data.Rule := None |}
  else
    let lockValues := Strings.Split value "," in
    let enabled := nth 0 lockValues "" in
    if (length lockValues =? 1)%nat
    then Ok {| Data.ObjectLockEnabled := enabled; Data.Rule := None |}
    else if negb (length lockValues =? 4)%nat
    then Err (invalidLockConfiguration value)
    else
      let parseField (field : string) : Z * option Strconv.NumError :=
        if (0 <? String.length field)%nat then Strconv.ParseInt field
        else (0%Z, None) in
      match parseField (nth 1 lockValues "") with
      | (_, Some _) => Err (invalidLockConfiguration value)
      | (days, None) =>
          match parseField (nth 3 lockValues "") with
          | (_, Some _) => Err (invalidLockConfiguration value)
          | (years, None) =>
              Ok {| Data.ObjectLockEnabled := enabled;
                    Data.Rule := Some {| Data.Rule_DefaultRetention :=
                      Some {| Data.Days := days;
                              Data.Mode := nth 2 lockValues "";
                              Data.Years := years |} |} |}
          end
      end.

(** The argument is a pointer: [None] is the nil configuration.
    [fmt.Sprintf("%s,%d,%s,%d", ...)] is the concatenation written out. *)
Definition encodeLockConfiguration (conf : option Data.ObjectLockConfiguration) : string :=
  match conf with
  | None => ""
  | Some conf =>
      match Data.Rule conf ≫= Data.Rule_DefaultRetention with
      | None => Data.ObjectLockEnabled conf
      | Some defaults =>
          Data.ObjectLockEnabled conf ++ "," ++
          Strconv.FormatInt (Data.Days defaults) ++ "," ++
          Data.Mode defaults ++ "," ++
          Strconv.FormatInt (Data.Years defaults)
      end
  end.

(** *** Paths *)

(** pathFromName splits name by '/' and add an empty marker if name has
    trailing or leading slash. *)
Definition pathFromName (objectName : string) : list string :=
  let path := Strings.Split objectName separator in
  let path := if decide (path !! 0%nat = Some "") then <[0%nat := emptyFileName]> path else path in
  let last := (length path - 1)%nat in
  if decide (path !! last = Some "") then <[last := emptyFileName]> path else path.

(** What [TreeNode.FileName] does to the value it found: the marker reads
    as the empty segment. *)
Definition unescapeFileName (value : string) : string :=
  if decide (value = emptyFileName) then "" else value.

(** *** Decoding nodes *)

Section Decode.
Context `{SDK}.

Record TreeNode := {
  ID : N;
  ObjID : oid;
  TimeStamp : N;
  Size : Z;
  Meta : gmap string string
}.

Fixpoint newTreeNode_loop (kvs : list KeyValue) (treeNode : TreeNode) : result TreeNode :=
  match kvs with
  | [] => Ok treeNode
  | kv :: kvs' =>
      if decide (GetKey kv = oidKV) then
        match DecodeString (GetValue kv) with
        | Ok objID =>
            newTreeNode_loop kvs'
              {| ID := ID treeNode; ObjID := objID; TimeStamp := TimeStamp treeNode;
                 Size := Size treeNode; Meta := Meta treeNode |}
        | Err err => Err err
        end
      else if decide (GetKey kv = sizeKV) then
        let sizeStr := GetValue kv in
        if (0 <? String.length sizeStr)%nat then
          match Strconv.ParseInt sizeStr with
          | (size, None) =>
              newTreeNode_loop kvs'
                {| ID := ID treeNode; ObjID := ObjID treeNode; TimeStamp := TimeStamp treeNode;
                   Size := size; Meta := Meta treeNode |}
          | (_, Some e) =>
              Err (wrapError ("invalid size value '" ++ sizeStr ++ "': ")
                             (numError "ParseInt" sizeStr e))
          end
        else newTreeNode_loop kvs' treeNode
      else
        newTreeNode_loop kvs'
          {| ID := ID treeNode; ObjID := ObjID treeNode; TimeStamp := TimeStamp treeNode;
             Size := Size treeNode; Meta := <[GetKey kv := GetValue kv]> (Meta treeNode) |}
  end.

Definition newTreeNode (nodeInfo : NodeBody) : result TreeNode :=
  newTreeNode_loop (GetMeta nodeInfo)
    {| ID := GetNodeId nodeInfo; ObjID := oidZero; TimeStamp := GetTimestamp nodeInfo;
       Size := 0; Meta := ∅ |}.

Definition TreeNode_Get (n : TreeNode) (key : string) : option string := Meta n !! key.

Definition TreeNode_FileName (n : TreeNode) : option string :=
  unescapeFileName <$> Meta n !! fileNameKV.

Definition newNodeVersionFromTreeNode (filePath : string) (treeNode : TreeNode) : Data.NodeVersion :=
  let isUnversioned := bool_decide (is_Some (TreeNode_Get treeNode isUnversionedKV)) in
  let isDeleteMarker := bool_decide (is_Some (TreeNode_Get treeNode isDeleteMarkerKV)) in
  let eTag := default "" (TreeNode_Get treeNode etagKV) in
  {| Data.Base :=
       {| Data.ID := ID treeNode; Data.OID := ObjID treeNode;
          Data.Timestamp := TimeStamp treeNode; Data.Size := Size treeNode;
          Data.ETag := eTag; Data.FilePath := filePath |};
     Data.DeleteMarker :=
       if isDeleteMarker then
         let created :=
           match TreeNode_Get treeNode createdKV with
           | Some createdStr =>
               match Strconv.ParseInt createdStr with
               | (utcMilli, None) => utcMilli
               | _ => zeroTime
               end
           | None => zeroTime
           end in
         let owner :=
           match TreeNode_Get treeNode ownerKV with
           | Some ownerStr =>
               match userDecodeString ownerStr with
               | Ok o => o
               | Err _ => userZero
               end
           | None => userZero
           end in
         Some {| Data.Created := created; Data.Owner := owner |}
       else None;
     Data.IsUnversioned := isUnversioned |}.

Definition newNodeVersion (filePath : string) (node : NodeBody) : result Data.NodeVersion :=
  match newTreeNode node with
  | Ok treeNode => Ok (newNodeVersionFromTreeNode filePath treeNode)
  | Err err => Err (wrapError "invalid tree node: " err)
  end.

Definition withNumber (p : Data.PartInfo) (v : Z) : Data.PartInfo :=
  {| Data.Part_Key := Data.Part_Key p; Data.Part_UploadID := Data.Part_UploadID p;
     Data.Part_Number := v; Data.Part_OID := Data.Part_OID p; Data.Part_Size := Data.Part_Size p;
     Data.Part_ETag := Data.Part_ETag p; Data.Part_Created := Data.Part_Created p |}.
Definition withOID (p : Data.PartInfo) (v : oid) : Data.PartInfo :=
  {| Data.Part_Key := Data.Part_Key p; Data.Part_UploadID := Data.Part_UploadID p;
     Data.Part_Number := Data.Part_Number p; Data.Part_OID := v; Data.Part_Size := Data.Part_Size p;
     Data.Part_ETag := Data.Part_ETag p; Data.Part_Created := Data.Part_Created p |}.
Definition withSize (p : Data.PartInfo) (v : Z) : Data.PartInfo :=
  {| Data.Part_Key := Data.Part_Key p; Data.Part_UploadID := Data.Part_UploadID p;
     Data.Part_Number := Data.Part_Number p; Data.Part_OID := Data.Part_OID p; Data.Part_Size := v;
     Data.Part_ETag := Data.Part_ETag p; Data.Part_Created := Data.Part_Created p |}.
Definition withETag (p : Data.PartInfo) (v : string) : Data.PartInfo :=
  {| Data.Part_Key := Data.Part_Key p; Data.Part_UploadID := Data.Part_UploadID p;
     Data.Part_Number := Data.Part_Number p; Data.Part_OID := Data.Part_OID p;
     Data.Part_Size := Data.Part_Size p; Data.Part_ETag := v; Data.Part_Created := Data.Part_Created p |}.
Definition withCreated (p : Data.PartInfo) (v : Time) : Data.PartInfo :=
  {| Data.Part_Key := Data.Part_Key p; Data.Part_UploadID := Data.Part_UploadID p;
     Data.Part_Number := Data.Part_Number p; Data.Part_OID := Data.Part_OID p;
     Data.Part_Size := Data.Part_Size p; Data.Part_ETag := Data.Part_ETag p; Data.Part_Created := v |}.

Fixpoint newPartInfo_loop (kvs : list KeyValue) (partInfo : Data.PartInfo) : result Data.PartInfo :=
  match kvs with
  | [] => Ok partInfo
  | kv :: kvs' =>
      let value := GetValue kv in
      if decide (GetKey kv = partNumberKV) then
        match Strconv.Atoi value with
        | (number, None) => newPartInfo_loop kvs' (withNumber partInfo number)
        | (_, Some e) => Err (wrapError "invalid part number: " (numError "Atoi" value e))
        end
      else if decide (GetKey kv = oidKV) then
        match DecodeString value with
        | Ok objID => newPartInfo_loop kvs' (withOID partInfo objID)
        | Err err => Err (wrapError "invalid oid: " err)
        end
      else if decide (GetKey kv = etagKV) then
        newPartInfo_loop kvs' (withETag partInfo value)
      else if decide (GetKey kv = sizeKV) then
        match Strconv.ParseInt value with
        | (size, None) => newPartInfo_loop kvs' (withSize partInfo size)
        | (_, Some e) => Err (wrapError "invalid part size: " (numError "ParseInt" value e))
        end
      else if decide (GetKey kv = createdKV) then
        match Strconv.ParseInt value with
        | (utcMilli, None) => newPartInfo_loop kvs' (withCreated partInfo utcMilli)
        | (_, Some e) => Err (wrapError "invalid created timestamp: " (numError "ParseInt" value e))
        end
      else newPartInfo_loop kvs' partInfo
  end.

Definition newPartInfo (node : NodeBody) : result Data.PartInfo :=
  match newPartInfo_loop (GetMeta node)
          {| Data.Part_Key := ""; Data.Part_UploadID := ""; Data.Part_Number := 0;
             Data.Part_OID := oidZero; Data.Part_Size := 0; Data.Part_ETag := "";
             Data.Part_Created := zeroTime |} with
  | Ok partInfo =>
      if (Data.Part_Number partInfo <=? 0)%Z then Err (errorString "it's not a part node")
      else Ok partInfo
  | other => other
  end.

(** Ranging over the map visits [map_to_list]. *)
Definition metaToKV (meta : gmap string string) : list KeyValue :=
  (λ kv, {| GetKey := kv.1; GetValue := kv.2 |}) <$> map_to_list meta.

(** *** Multipart uploads *)

Definition withUploadID (m : Data.MultipartInfo) (v : string) : Data.MultipartInfo :=
  {| Data.Multipart_ID := Data.Multipart_ID m; Data.Multipart_Key := Data.Multipart_Key m;
     Data.Multipart_UploadID := v; Data.Multipart_Owner := Data.Multipart_Owner m;
     Data.Multipart_Created := Data.Multipart_Created m;
     Data.Multipart_Meta := Data.Multipart_Meta m |}.
Definition withKey (m : Data.MultipartInfo) (v : string) : Data.MultipartInfo :=
  {| Data.Multipart_ID := Data.Multipart_ID m; Data.Multipart_Key := v;
     Data.Multipart_UploadID := Data.Multipart_UploadID m;
     Data.Multipart_Owner := Data.Multipart_Owner m;
     Data.Multipart_Created := Data.Multipart_Created m;
     Data.Multipart_Meta := Data.Multipart_Meta m |}.
Definition withOwner (m : Data.MultipartInfo) (v : userID) : Data.MultipartInfo :=
  {| Data.Multipart_ID := Data.Multipart_ID m; Data.Multipart_Key := Data.Multipart_Key m;
     Data.Multipart_UploadID := Data.Multipart_UploadID m; Data.Multipart_Owner := v;
     Data.Multipart_Created := Data.Multipart_Created m;
     Data.Multipart_Meta := Data.Multipart_Meta m |}.
Definition withUploadCreated (m : Data.MultipartInfo) (v : Time) : Data.MultipartInfo :=
  {| Data.Multipart_ID := Data.Multipart_ID m; Data.Multipart_Key := Data.Multipart_Key m;
     Data.Multipart_UploadID := Data.Multipart_UploadID m;
     Data.Multipart_Owner := Data.Multipart_Owner m; Data.Multipart_Created := v;
     Data.Multipart_Meta := Data.Multipart_Meta m |}.
Definition withMeta (m : Data.MultipartInfo) (v : gmap string string) : Data.MultipartInfo :=
  {| Data.Multipart_ID := Data.Multipart_ID m; Data.Multipart_Key := Data.Multipart_Key m;
     Data.Multipart_UploadID := Data.Multipart_UploadID m;
     Data.Multipart_Owner := Data.Multipart_Owner m;
     Data.Multipart_Created := Data.Multipart_Created m; Data.Multipart_Meta := v |}.

(** The loop of [newMultipartInfo].  The errors of [ParseInt] and of the
    owner's [DecodeString] are dropped by the code; a failed decode is
    taken to leave the owner as it was. *)
Fixpoint newMultipartInfo_loop (kvs : list KeyValue) (multipartInfo : Data.MultipartInfo)
  : Data.MultipartInfo :=
  match kvs with
  | [] => multipartInfo
  | kv :: kvs' =>
      let value := GetValue kv in
      newMultipartInfo_loop kvs'
        (if decide (GetKey kv = uploadIDKV) then withUploadID multipartInfo value
         else if decide (GetKey kv = fileNameKV) then
           withKey multipartInfo (Strings.TrimSuffix value emptyFileName)
         else if decide (GetKey kv = createdKV) then
           match Strconv.ParseInt value with
           | (utcMilli, None) => withUploadCreated multipartInfo utcMilli
           | (_, Some _) => multipartInfo
           end
         else if decide (GetKey kv = ownerKV) then
           match userDecodeString value with
           | Ok owner => withOwner multipartInfo owner
           | Err _ => multipartInfo
           end
         else withMeta multipartInfo (<[GetKey kv := value]> (Data.Multipart_Meta multipartInfo)))
  end.

Definition newMultipartInfo (node : NodeBody) : result Data.MultipartInfo :=
  let multipartInfo :=
    newMultipartInfo_loop (GetMeta node)
      {| Data.Multipart_ID := GetNodeId node; Data.Multipart_Key := "";
         Data.Multipart_UploadID := ""; Data.Multipart_Owner := userZero;
         Data.Multipart_Created := zeroTime; Data.Multipart_Meta := ∅ |} in
  if decide (Data.Multipart_UploadID multipartInfo = "")
  then Err (errorString "it's not a multipart node")
  else Ok multipartInfo.

(** The code writes the four entries into [info.Meta] itself and returns
    that map; the value here is the map as the call leaves it. *)
Definition metaFromMultipart (info : Data.MultipartInfo) : gmap string string :=
  <[createdKV := Strconv.FormatInt (Data.Multipart_Created info)]>
    (<[ownerKV := userEncodeToString (Data.Multipart_Owner info)]>
       (<[uploadIDKV := Data.Multipart_UploadID info]>
          (<[fileNameKV := Data.Multipart_Key info]> (Data.Multipart_Meta info)))).

(** *** Bucket settings *)

Definition metaFromSettings (settings : Data.BucketSettings) : gmap string string :=
  <[lockConfigurationKV := encodeLockConfiguration (Data.LockConfiguration settings)]>
    (<[versioningKV := Data.Versioning settings]>
       (<[fileNameKV := settingsFileName]> ∅)).

(** *** Tags *)

(** The loop of [getObjectTagging], which [GetBucketTagging] repeats: the
    entries whose key starts with the user prefix, without the prefix. *)
Definition userTags (meta : gmap string string) : gmap string string :=
  foldl (λ (tags : gmap string string) kv,
           if Strings.HasPrefix kv.1 userDefinedTagPrefix
           then <[Strings.TrimPrefix kv.1 userDefinedTagPrefix := kv.2]> tags
           else tags)
        ∅ (map_to_list meta).

(** [None] is the nil node, and the nil map. *)
Definition getObjectTagging (tagNode : option TreeNode) : option (gmap string string) :=
  match tagNode with
  | None => None
  | Some tagNode => Some (userTags (Meta tagNode))
  end.

(** The loop of [PutObjectTagging] and [PutBucketTagging] over the tag
    set, from the map [treeTagSet] holds before it. *)
Definition addUserTags (treeTagSet tagSet : gmap string string) : gmap string string :=
  foldl (λ (treeTagSet : gmap string string) kv,
           <[userDefinedTagPrefix ++ kv.1 := kv.2]> treeTagSet)
        treeTagSet (map_to_list tagSet).

(** The metadata [PutObjectTagging] builds. *)
Definition objectTagMeta (tagSet : gmap string string) : gmap string string :=
  addUserTags (<[isTagKV := "true"]> ∅) tagSet.

(** The metadata [PutBucketTagging] builds. *)
Definition bucketTagMeta (tagSet : gmap string string) : gmap string string :=
  addUserTags (<[fileNameKV := bucketTaggingFilename]> ∅) tagSet.

(** *** Locks *)

(** The metadata [PutLock] builds. *)
Definition lockMeta (lock : Data.LockInfo) : gmap string string :=
  let meta : gmap string string := <[isLockKV := "true"]> ∅ in
  let meta := if Data.IsLegalHoldSet lock
              then <[legalHoldOIDKV := EncodeToString (Data.LegalHold lock)]> meta else meta in
  if Data.IsRetentionSet lock then
    let meta := <[untilDateKV := Data.UntilDate lock]>
                  (<[retentionOIDKV := EncodeToString (Data.Retention lock)]> meta) in
    if Data.IsCompliance lock then <[isComplianceKV := "true"]> meta else meta
  else meta.

(** [None] is the nil node; the empty [LockInfo] is [NewLockInfo 0]. *)
Definition getLock (lockNode : option TreeNode) : result Data.LockInfo :=
  match lockNode with
  | None => Ok (Data.NewLockInfo 0)
  | Some lockNode =>
      let lockInfo := Data.NewLockInfo (ID lockNode) in
      let held :=
        match TreeNode_Get lockNode legalHoldOIDKV with
        | Some legalHold =>
            match DecodeString legalHold with
            | Err err => Err (wrapError "invalid legal hold object id: " err)
            | Ok legalHoldOID => Ok (Data.SetLegalHold lockInfo legalHoldOID)
            end
        | None => Ok lockInfo
        end in
      match held with
      | Err err => Err err
      | Ok lockInfo =>
          match TreeNode_Get lockNode retentionOIDKV with
          | Some retention =>
              match DecodeString retention with
              | Err err => Err (wrapError "invalid retention object id: " err)
              | Ok retentionOID =>
                  let isCompliance := bool_decide (is_Some (TreeNode_Get lockNode isComplianceKV)) in
                  let untilDate := default "" (TreeNode_Get lockNode untilDateKV) in
                  Ok (Data.SetRetention lockInfo retentionOID untilDate isCompliance)
              end
          | None => Ok lockInfo
          end
      end
  end.

(** *** Nodes of a subtree *)

Fixpoint getFilename_loop (meta : list KeyValue) : string :=
  match meta with
  | [] => ""
  | kv :: meta' => if decide (GetKey kv = fileNameKV) then GetValue kv else getFilename_loop meta'
  end.

Definition getFilename (node : NodeBody) : string := getFilename_loop (GetMeta node).

Definition isIntermediate (node : NodeBody) : bool :=
  match GetMeta node with
  | [kv] => bool_decide (GetKey kv = fileNameKV)
  | _ => false
  end.

(** The path of [node] from the path of its parent; the map is the one
    the call leaves. *)
Definition formFilePath (node : NodeBody) (fileName : string) (namesMap : gmap N string)
  : result string * gmap N string :=
  match namesMap !! GetParentId node with
  | None => (Err (errorString "couldn't get parent path"), namesMap)
  | Some parentPath =>
      let filepath := parentPath ++ String separator fileName in
      (Ok filepath, <[GetNodeId node := filepath]> namesMap)
  end.

Definition parseTreeNode (node : NodeBody) : result (TreeNode * string) :=
  match newTreeNode node with
  | Err err => Err err
  | Ok treeNode =>
      match TreeNode_FileName treeNode with
      | None => Err (errorString "doesn't contain FileName")
      | Some fileName => Ok (treeNode, fileName)
      end
  end.

Definition formLatestNodeKey (parentID : N) (fileName : string) : string :=
  Strconv.FormatUint (Z.of_N parentID) ++ "." ++ fileName.

(** The prefix [getSubTreeVersions] puts before the name of the root of
    the subtree. *)
Definition parentPrefix (parentFilePath : string) : string :=
  if decide (parentFilePath = "") then ""
  else Strings.TrimSuffix parentFilePath (String separator "") ++ String separator "".

(** The first loop of [getSubTreeVersions], from the node at index [i]
    on: [namesMap] holds the paths of the nodes seen, [versions] the
    versions found for each parent and name. *)
Fixpoint getSubTreeVersions_loop (parentPrefix : string) (latestOnly : bool) (i : nat)
    (subTree : list NodeBody) (namesMap : gmap N string)
    (versions : gmap string (list Data.NodeVersion))
  : outcome (result (gmap string (list Data.NodeVersion))) :=
  match subTree with
  | [] => Returns (Ok versions)
  | node :: rest =>
      let continue := getSubTreeVersions_loop parentPrefix latestOnly (S i) rest in
      match parseTreeNode node with
      | Err _ => continue namesMap versions
      | Ok (treeNode, fileName) =>
          let located :=
            if negb (i =? 0)%nat then formFilePath node fileName namesMap
            else (Ok (parentPrefix ++ fileName),
                  <[ID treeNode := parentPrefix ++ fileName]> namesMap) in
          match located with
          | (Err err, _) => Returns (Err (wrapError "invalid node order: " err))
          | (Ok filepath, namesMap) =>
              if decide (ObjID treeNode = oidZero) then continue namesMap versions
              else
                let key := formLatestNodeKey (GetParentId node) fileName in
                let nodeVersion := newNodeVersionFromTreeNode filepath treeNode in
                match versions !! key with
                | None => continue namesMap (<[key := [nodeVersion]]> versions)
                | Some versionNodes =>
                    if negb latestOnly
                    then continue namesMap (<[key := (versionNodes ++ [nodeVersion])%list]> versions)
                    else
                      match versionNodes with
                      | [] => Panics "index out of range [0] with length 0"
                      | first :: others =>
                          if (Data.Timestamp (Data.Base first) <=? TimeStamp treeNode)%N
                          then continue namesMap (<[key := nodeVersion :: others]> versions)
                          else continue namesMap (<[key := versionNodes]> versions)
                      end
                end
          end
      end
  end.

(** The second loop of [getSubTreeVersions], over the groups of the map. *)
Fixpoint getSubTreeVersions_result (latestOnly : bool) (groups : list (list Data.NodeVersion))
    (result : list Data.NodeVersion) : outcome (list Data.NodeVersion) :=
  match groups with
  | [] => Returns result
  | version :: rest =>
      if latestOnly then
        match version with
        | [] => Panics "index out of range [0] with length 0"
        | first :: _ =>
            if bool_decide (is_Some (Data.DeleteMarker first))
            then getSubTreeVersions_result latestOnly rest result
            else getSubTreeVersions_result latestOnly rest (result ++ version)%list
        end
      else getSubTreeVersions_result latestOnly rest (result ++ version)%list
  end.

(** The loop of [getSubTreeByPrefix] over the children of the prefix
    node: the nodes kept for each file name. *)
Fixpoint getSubTreeByPrefix_loop (rootID : N) (tailPrefix : string) (latestOnly : bool)
    (subTree : list NodeBody) (nodesMap : gmap string (list NodeBody))
  : gmap string (list NodeBody) :=
  match subTree with
  | [] => nodesMap
  | node :: rest =>
      let continue := getSubTreeByPrefix_loop rootID tailPrefix latestOnly rest in
      if (GetNodeId node =? rootID)%N then continue nodesMap
      else
        let fileName := getFilename node in
        if negb (Strings.HasPrefix fileName tailPrefix) then continue nodesMap
        else
          let nodes :=
            match default [] (nodesMap !! fileName) with
            | [] => [node]
            | first :: others =>
                if negb latestOnly || isIntermediate node then (first :: others) ++ [node]
                else if isIntermediate first then node :: first :: others
                else if (GetTimestamp first <? GetTimestamp node)%N then node :: others
                else first :: others
            end%list in
          continue (<[fileName := nodes]> nodesMap)
  end.

(** The loop of [getSubTreeMultipartUploads]: the nodes that decode as
    uploads. *)
Fixpoint getSubTreeMultipartUploads_loop (subTree : list NodeBody) : list Data.MultipartInfo :=
  match subTree with
  | [] => []
  | node :: rest =>
      match newMultipartInfo node with
      | Err _ => getSubTreeMultipartUploads_loop rest
      | Ok multipartInfo => multipartInfo :: getSubTreeMultipartUploads_loop rest
      end
  end.

(** The loop of [GetMultipartUpload] over the nodes at the path. *)
Fixpoint GetMultipartUpload_loop (uploadID : string) (nodes : list NodeBody)
  : result Data.MultipartInfo :=
  match nodes with
  | [] => Err ErrNodeNotFound
  | node :: rest =>
      match newMultipartInfo node with
      | Err _ => GetMultipartUpload_loop uploadID rest
      | Ok info =>
          if decide (Data.Multipart_UploadID info = uploadID) then Ok info
          else GetMultipartUpload_loop uploadID rest
      end
  end.

(** The inner loop of [getTreeNodes]: the node is filed under the first
    key it carries. *)
Fixpoint getTreeNodes_file (node : TreeNode) (keys : list string)
    (treeNodes : gmap string TreeNode) : gmap string TreeNode :=
  match keys with
  | [] => treeNodes
  | key :: keys' =>
      if bool_decide (is_Some (TreeNode_Get node key)) then <[key := node]> treeNodes
      else getTreeNodes_file node keys' treeNodes
  end.

(** The outer loop of [getTreeNodes] over the subtree. *)
Fixpoint getTreeNodes_loop (keys : list string) (subtree : list NodeBody)
    (treeNodes : gmap string TreeNode) : result (gmap string TreeNode) :=
  match subtree with
  | [] => Ok treeNodes
  | s :: rest =>
      match newTreeNode s with
      | Err err => Err err
      | Ok node =>
          let treeNodes := getTreeNodes_file node keys treeNodes in
          if (size treeNodes =? length keys)%nat then Ok treeNodes
          else getTreeNodes_loop keys rest treeNodes
      end
  end.

(** The path [determinePrefixNode] looks up: the prefix split at the
    separator, a leading empty segment replaced by the marker when a
    second segment follows. *)
Definition prefixPath (prefix : string) : list string :=
  let path := Strings.Split prefix separator in
  if (1 <? length path)%nat && bool_decide (path !! 0%nat = Some "")
  then <[0%nat := emptyFileName]> path else path.

(** The loop of [getPrefixNodeID]. *)
Definition intermediateNodes (nodes : list NodeBody) : list N :=
  GetNodeId <$> filter (λ node, isIntermediate node = true) nodes.

End Decode.

(** *** The tree service *)

(** Request bodies, with the fields the service interprets. *)
Record AddRequest := {
  Add_TreeId : string;
  Add_ParentId : N;
  Add_Meta : list KeyValue
}.

Record AddByPathRequest := {
  AddByPath_TreeId : string;
  AddByPath_Path : list string;
  AddByPath_Meta : list KeyValue;
  AddByPath_PathAttribute : string
}.

Record MoveRequest := {
  Move_TreeId : string;
  Move_NodeId : N;
  Move_ParentId : N;
  Move_Meta : list KeyValue
}.

Record RemoveRequest := {
  Remove_TreeId : string;
  Remove_NodeId : N
}.

Record GetNodeByPathRequest := {
  GetNodeByPath_TreeId : string;
  GetNodeByPath_Path : list string;
  GetNodeByPath_Attributes : list string;
  GetNodeByPath_PathAttribute : string;
  GetNodeByPath_LatestOnly : bool;
  GetNodeByPath_AllAttributes : bool
}.

Record GetSubTreeRequest := {
  GetSubTree_TreeId : string;
  GetSubTree_RootId : N;
  GetSubTree_Depth : N
}.

(** The interface [tree.TreeServiceClient], over the state [S] of the
    service.  [GetSubTree] answers with a stream: the bodies [Recv] hands
    out, then [io.EOF] ([None]) or an error. *)
Class TreeServiceClient (S : Type) := {
  service_Add : AddRequest → S → result N * S;
  service_AddByPath : AddByPathRequest → S → result () * S;
  service_Move : MoveRequest → S → result () * S;
  service_Remove : RemoveRequest → S → result () * S;
  service_GetNodeByPath : GetNodeByPathRequest → S → result (list NodeBody) * S;
  service_GetSubTree : GetSubTreeRequest → S → result (list NodeBody * option error) * S
}.

Section Client.
Context `{SDK} `{LayerErrors} {S : Type} `{TreeServiceClient S}.

(** Modelled from the spec: the method [signRequest] (spec 4.2, every
    request is signed with the gateway's key) is not among the sources.
    [None] when the request body was signed, the error otherwise. *)
Variable signRequest : option error.

(** A method of [TreeClient]: it runs against the service and returns or
    panics. *)
Definition Go (A : Type) : Type := S → outcome A * S.

Definition ret {A} (a : A) : Go A := λ s, (Returns a, s).

Definition bind {A B} (m : Go A) (k : A → Go B) : Go B :=
  λ s, match m s with
       | (Returns a, s') => k a s'
       | (Panics reason, s') => (Panics reason, s')
       end.

Definition call {A} (rpc : S → result A * S) : Go (result A) :=
  λ s, let (r, s') := rpc s in (Returns r, s').

Definition panic {A} (reason : string) : Go A := λ s, (Panics reason, s).

Notation "x <- m ;; k" := (bind m (λ x, k))
  (at level 100, m at next level, right associativity).

Definition notFound (err : error) : bool := Strings.Contains (Error err) "not found".

Definition getNodes (treeID : string) (path meta : list string) (latestOnly allAttrs : bool)
  : Go (result (list NodeBody)) :=
  match signRequest with
  | Some err => ret (Err err)
  | None =>
      resp <- call (service_GetNodeByPath
                {| GetNodeByPath_TreeId := treeID; GetNodeByPath_Path := path;
                   GetNodeByPath_Attributes := meta; GetNodeByPath_PathAttribute := fileNameKV;
                   GetNodeByPath_LatestOnly := latestOnly;
                   GetNodeByPath_AllAttributes := allAttrs |}) ;;
      match resp with
      | Err err =>
          if notFound err then ret (Err ErrNodeNotFound)
          else ret (Err (wrapError "failed to get node path: " err))
      | Ok nodes => ret (Ok nodes)
      end
  end.

Definition getSubTree (treeID : string) (rootID : N) (depth : N) : Go (result (list NodeBody)) :=
  match signRequest with
  | Some err => ret (Err err)
  | None =>
      cli <- call (service_GetSubTree
               {| GetSubTree_TreeId := treeID; GetSubTree_RootId := rootID;
                  GetSubTree_Depth := depth |}) ;;
      match cli with
      | Err err =>
          if notFound err then ret (Err ErrNodeNotFound)
          else ret (Err (wrapError "failed to get sub tree client: " err))
      | Ok (subtree, None) => ret (Ok subtree)
      | Ok (_, Some err) =>
          if notFound err then ret (Err ErrNodeNotFound)
          else ret (Err (wrapError "failed to get sub tree: " err))
      end
  end.

Definition addNode (treeID : string) (parent : N) (meta : gmap string string) : Go (result N) :=
  match signRequest with
  | Some err => ret (Err err)
  | None =>
      call (service_Add {| Add_TreeId := treeID; Add_ParentId := parent;
                           Add_Meta := metaToKV meta |})
  end.

Definition addNodeByPath (treeID : string) (path : list string) (meta : gmap string string)
  : Go (option error) :=
  match signRequest with
  | Some err => ret (Some err)
  | None =>
      resp <- call (service_AddByPath
                {| AddByPath_TreeId := treeID; AddByPath_Path := path;
                   AddByPath_Meta := metaToKV meta; AddByPath_PathAttribute := fileNameKV |}) ;;
      match resp with
      | Err err => ret (Some err)
      | Ok _ => ret None
      end
  end.

Definition moveNode (treeID : string) (nodeID parentID : N) (meta : gmap string string)
  : Go (option error) :=
  match signRequest with
  | Some err => ret (Some err)
  | None =>
      resp <- call (service_Move
                {| Move_TreeId := treeID; Move_NodeId := nodeID; Move_ParentId := parentID;
                   Move_Meta := metaToKV meta |}) ;;
      match resp with
      | Err err => ret (Some err)
      | Ok _ => ret None
      end
  end.

Definition removeNode (treeID : string) (nodeID : N) : Go (option error) :=
  match signRequest with
  | Some err => ret (Some err)
  | None =>
      resp <- call (service_Remove {| Remove_TreeId := treeID; Remove_NodeId := nodeID |}) ;;
      match resp with
      | Err err => ret (Some err)
      | Ok _ => ret None
      end
  end.

(** The loop of [getVersions] over the nodes found. *)
Fixpoint getVersions_loop (filepath : string) (onlyUnversioned : bool) (nodes : list NodeBody)
    (acc : list Data.NodeVersion) : result (list Data.NodeVersion) :=
  match nodes with
  | [] => Ok acc
  | node :: nodes' =>
      match newNodeVersion filepath node with
      | Err err => Err err
      | Ok nodeVersion =>
          if onlyUnversioned && negb (Data.IsUnversioned nodeVersion)
          then getVersions_loop filepath onlyUnversioned nodes' acc
          else getVersions_loop filepath onlyUnversioned nodes' (acc ++ [nodeVersion])
      end
  end.

Definition getVersions (treeID filepath : string) (onlyUnversioned : bool)
  : Go (result (list Data.NodeVersion)) :=
  let keysToReturn := [oidKV; isUnversionedKV; isDeleteMarkerKV; etagKV; sizeKV] in
  let path := pathFromName filepath in
  r <- getNodes treeID path keysToReturn false false ;;
  match r with
  | Err err =>
      if Strings.Contains (Error err) "not found" then ret (Ok [])
      else ret (Err (wrapError "couldn't get nodes: " err))
  | Ok nodes => ret (getVersions_loop filepath onlyUnversioned nodes [])
  end.

Definition GetVersions (filepath : string) : Go (result (list Data.NodeVersion)) :=
  getVersions versionTree filepath false.

Definition getUnversioned (treeID filepath : string) : Go (result Data.NodeVersion) :=
  r <- getVersions treeID filepath true ;;
  match r with
  | Err err => ret (Err err)
  | Ok nodes =>
      match nodes with
      | [] => ret (Err ErrNodeNotFound)
      | [node] => ret (Ok node)
      | _ => ret (Err (errorString "found more than one unversioned node"))
      end
  end.

Definition getParent (treeID : string) (id : N) : Go (result N) :=
  r <- getSubTree treeID id 0 ;;
  match r with
  | Err err => ret (Err err)
  | Ok subTree =>
      match subTree with
      | [] => panic "index out of range [0] with length 0"
      | root :: _ => ret (Ok (GetParentId root))
      end
  end.

(** The metadata [addVersion] builds for a version whose name splits into
    [path]. *)
Definition versionMeta (version : Data.NodeVersion) (path : list string) : gmap string string :=
  let base := Data.Base version in
  let meta : gmap string string :=
    <[fileNameKV := List.last path ""]> (<[oidKV := EncodeToString (Data.OID base)]> ∅) in
  let meta := if (0 <? Data.Size base)%Z
              then <[sizeKV := Strconv.FormatInt (Data.Size base)]> meta else meta in
  let meta := if (0 <? String.length (Data.ETag base))%nat
              then <[etagKV := Data.ETag base]> meta else meta in
  let meta := match Data.DeleteMarker version with
              | Some deleteMarker =>
                  <[createdKV := Strconv.FormatInt (Data.Created deleteMarker)]>
                    (<[ownerKV := userEncodeToString (Data.Owner deleteMarker)]>
                       (<[isDeleteMarkerKV := "true"]> meta))
              | None => meta
              end in
  if Data.IsUnversioned version then <[isUnversionedKV := "true"]> meta else meta.

Definition addVersion (treeID : string) (version : Data.NodeVersion) : Go (option error) :=
  let path := pathFromName (Data.FilePath (Data.Base version)) in
  let meta := versionMeta version path in
  let add := addNodeByPath treeID (removelast path) meta in
  if Data.IsUnversioned version then
    r <- getUnversioned treeID (Data.FilePath (Data.Base version)) ;;
    match r with
    | Ok node =>
        p <- getParent treeID (Data.ID (Data.Base node)) ;;
        match p with
        | Err err => ret (Some err)
        | Ok parentID => moveNode treeID (Data.ID (Data.Base node)) parentID meta
        end
    | Err err =>
        if negb (IsErrNodeNotFound err) then ret (Some err)
        else add
    end
  else add.

Definition AddVersion (version : Data.NodeVersion) : Go (option error) :=
  addVersion versionTree version.

Definition GetUnversioned (filepath : string) : Go (result Data.NodeVersion) :=
  getUnversioned versionTree filepath.

(** The loop of [AddPart] over the children of the upload: the values of
    [foundPartID] and [oldObjIDToDelete] when it ends. *)
Fixpoint AddPart_loop (multipartNodeID : N) (number : Z) (parts : list NodeBody) : N * oid :=
  match parts with
  | [] => (0%N, oidZero)
  | part :: parts' =>
      if (GetNodeId part =? multipartNodeID)%N then AddPart_loop multipartNodeID number parts'
      else
        match newPartInfo part with
        | Err _ => AddPart_loop multipartNodeID number parts'
        | Ok partInfo =>
            if (Data.Part_Number partInfo =? number)%Z
            then (GetNodeId part, Data.Part_OID partInfo)
            else AddPart_loop multipartNodeID number parts'
        end
  end.

(** The metadata [AddPart] builds for a part. *)
Definition partMeta (info : Data.PartInfo) : gmap string string :=
  <[etagKV := Data.Part_ETag info]>
    (<[createdKV := Strconv.FormatInt (Data.Part_Created info)]>
       (<[sizeKV := Strconv.FormatInt (Data.Part_Size info)]>
          (<[oidKV := EncodeToString (Data.Part_OID info)]>
             (<[partNumberKV := Strconv.Itoa (Data.Part_Number info)]> ∅)))).

Definition AddPart (multipartNodeID : N) (info : Data.PartInfo) : Go (oid * option error) :=
  r <- getSubTree systemTree multipartNodeID 1 ;;
  match r with
  | Err err => ret (oidZero, Some err)
  | Ok parts =>
      let meta := partMeta info in
      let '(foundPartID, oldObjIDToDelete) :=
        AddPart_loop multipartNodeID (Data.Part_Number info) parts in
      if negb (foundPartID =? multipartNodeID)%N then
        a <- addNode systemTree multipartNodeID meta ;;
        match a with
        | Err err => ret (oidZero, Some err)
        | Ok _ => ret (oidZero, Some ErrNoNodeToRemove)
        end
      else
        e <- moveNode systemTree foundPartID multipartNodeID meta ;;
        ret (oldObjIDToDelete, e)
  end.

Fixpoint GetParts_loop (multipartNodeID : N) (parts : list NodeBody) : list Data.PartInfo :=
  match parts with
  | [] => []
  | part :: parts' =>
      if (GetNodeId part =? multipartNodeID)%N then GetParts_loop multipartNodeID parts'
      else
        match newPartInfo part with
        | Err _ => GetParts_loop multipartNodeID parts'
        | Ok partInfo => partInfo :: GetParts_loop multipartNodeID parts'
        end
  end.

Definition GetParts (multipartNodeID : N) : Go (result (list Data.PartInfo)) :=
  r <- getSubTree systemTree multipartNodeID 1 ;;
  match r with
  | Err err => ret (Err err)
  | Ok parts => ret (Ok (GetParts_loop multipartNodeID parts))
  end.

(** A step without the service. *)
Definition lift {A} (o : outcome A) : Go A := λ s, (o, s).

(** *** System nodes *)

Definition getNode (treeID : string) (path meta : list string) (allAttrs : bool)
  : Go (result TreeNode) :=
  r <- getNodes treeID path meta false allAttrs ;;
  match r with
  | Err err => ret (Err (wrapError "couldn't get nodes: " err))
  | Ok nodes =>
      match nodes with
      | [] => ret (Err ErrNodeNotFound)
      | [node] => ret (newTreeNode node)
      | _ => ret (Err (errorString "found more than one node"))
      end
  end.

Definition getSystemNode (path meta : list string) : Go (result TreeNode) :=
  getNode systemTree path meta false.

Definition getSystemNodeWithAllAttributes (path : list string) : Go (result TreeNode) :=
  getNode systemTree path [] true.

Definition GetSettingsNode : Go (result Data.BucketSettings) :=
  let keysToReturn := [versioningKV; lockConfigurationKV] in
  r <- getSystemNode [settingsFileName] keysToReturn ;;
  match r with
  | Err err => ret (Err (wrapError "couldn't get node: " err))
  | Ok node =>
      let versioning := default Data.VersioningUnversioned (TreeNode_Get node versioningKV) in
      match TreeNode_Get node lockConfigurationKV with
      | Some lockConfigurationValue =>
          match parseLockConfiguration lockConfigurationValue with
          | Err err => ret (Err (wrapError "settings node: invalid lock configuration: " err))
          | Ok conf =>
              ret (Ok {| Data.Versioning := versioning; Data.LockConfiguration := Some conf |})
          end
      | None => ret (Ok {| Data.Versioning := versioning; Data.LockConfiguration := None |})
      end
  end.

(** What a put of a system node does once the node was looked up: an
    error that is not the sentinel is returned, a missing node is added
    below the root, a node that is there is moved in place. *)
Definition PutSettingsNode (settings : Data.BucketSettings) : Go (option error) :=
  r <- getSystemNode [settingsFileName] [] ;;
  match r with
  | Err err =>
      if negb (IsErrNodeNotFound err) then ret (Some (wrapError "couldn't get node: " err))
      else
        a <- addNode systemTree 0 (metaFromSettings settings) ;;
        match a with
        | Err err => ret (Some err)
        | Ok _ => ret None
        end
  | Ok node => moveNode systemTree (ID node) 0 (metaFromSettings settings)
  end.

Definition GetNotificationConfigurationNode : Go (result oid) :=
  r <- getSystemNode [notifConfFileName] [oidKV] ;;
  match r with
  | Err err => ret (Err err)
  | Ok node => ret (Ok (ObjID node))
  end.

(** The metadata of a system node that points to an object. *)
Definition pointerMeta (fileName : string) (objID : oid) : gmap string string :=
  <[oidKV := EncodeToString objID]> (<[fileNameKV := fileName]> ∅).

Definition PutNotificationConfigurationNode (objID : oid) : Go (oid * option error) :=
  r <- getSystemNode [notifConfFileName] [oidKV] ;;
  let meta := pointerMeta notifConfFileName objID in
  match r with
  | Err err =>
      if negb (IsErrNodeNotFound err)
      then ret (oidZero, Some (wrapError "couldn't get node: " err))
      else
        a <- addNode systemTree 0 meta ;;
        match a with
        | Err err => ret (oidZero, Some err)
        | Ok _ => ret (oidZero, Some ErrNoNodeToRemove)
        end
  | Ok node =>
      e <- moveNode systemTree (ID node) 0 meta ;;
      ret (ObjID node, e)
  end.

Definition GetBucketCORS : Go (result oid) :=
  r <- getSystemNode [corsFilename] [oidKV] ;;
  match r with
  | Err err => ret (Err err)
  | Ok node => ret (Ok (ObjID node))
  end.

Definition PutBucketCORS (objID : oid) : Go (oid * option error) :=
  r <- getSystemNode [corsFilename] [oidKV] ;;
  let meta := pointerMeta corsFilename objID in
  match r with
  | Err err =>
      if negb (IsErrNodeNotFound err)
      then ret (oidZero, Some (wrapError "couldn't get node: " err))
      else
        a <- addNode systemTree 0 meta ;;
        match a with
        | Err err => ret (oidZero, Some err)
        | Ok _ => ret (oidZero, Some ErrNoNodeToRemove)
        end
  | Ok node =>
      e <- moveNode systemTree (ID node) 0 meta ;;
      ret (ObjID node, e)
  end.

Definition DeleteBucketCORS : Go (oid * option error) :=
  r <- getSystemNode [corsFilename] [oidKV] ;;
  match r with
  | Err err =>
      if negb (IsErrNodeNotFound err) then ret (oidZero, Some err)
      else ret (oidZero, Some ErrNoNodeToRemove)
  | Ok node =>
      e <- removeNode systemTree (ID node) ;;
      ret (ObjID node, e)
  end.

(** *** Sidecar nodes of a version *)

Definition getTreeNodes (nodeID : N) (keys : list string) : Go (result (gmap string TreeNode)) :=
  r <- getSubTree versionTree nodeID 1 ;;
  match r with
  | Err err => ret (Err err)
  | Ok subtree => ret (getTreeNodes_loop keys subtree ∅)
  end.

(** The node is a pointer: [None] when no node was filed under the key. *)
Definition getTreeNode (nodeID : N) (key : string) : Go (result (option TreeNode)) :=
  r <- getTreeNodes nodeID [key] ;;
  match r with
  | Err err => ret (Err err)
  | Ok nodes => ret (Ok (nodes !! key))
  end.

Definition GetObjectTagging (objVersion : Data.NodeVersion)
  : Go (result (option (gmap string string))) :=
  r <- getTreeNode (Data.ID (Data.Base objVersion)) isTagKV ;;
  match r with
  | Err err => ret (Err err)
  | Ok tagNode => ret (Ok (getObjectTagging tagNode))
  end.

Definition PutObjectTagging (objVersion : Data.NodeVersion) (tagSet : gmap string string)
  : Go (option error) :=
  r <- getTreeNode (Data.ID (Data.Base objVersion)) isTagKV ;;
  match r with
  | Err err => ret (Some err)
  | Ok tagNode =>
      let treeTagSet := objectTagMeta tagSet in
      match tagNode with
      | None =>
          a <- addNode versionTree (Data.ID (Data.Base objVersion)) treeTagSet ;;
          match a with
          | Err err => ret (Some err)
          | Ok _ => ret None
          end
      | Some tagNode =>
          moveNode versionTree (ID tagNode) (Data.ID (Data.Base objVersion)) treeTagSet
      end
  end.

Definition DeleteObjectTagging (objVersion : Data.NodeVersion) : Go (option error) :=
  r <- getTreeNode (Data.ID (Data.Base objVersion)) isTagKV ;;
  match r with
  | Err err => ret (Some err)
  | Ok None => ret None
  | Ok (Some tagNode) => removeNode versionTree (ID tagNode)
  end.

Definition GetBucketTagging : Go (result (gmap string string)) :=
  r <- getSystemNodeWithAllAttributes [bucketTaggingFilename] ;;
  match r with
  | Err err =>
      if Strings.Contains (Error err) "not found" then ret (Err ErrNodeNotFound)
      else ret (Err err)
  | Ok node => ret (Ok (userTags (Meta node)))
  end.

Definition PutBucketTagging (tagSet : gmap string string) : Go (option error) :=
  r <- getSystemNode [bucketTaggingFilename] [] ;;
  let treeTagSet := bucketTagMeta tagSet in
  match r with
  | Err err =>
      if negb (IsErrNodeNotFound err) then ret (Some (wrapError "couldn't get node: " err))
      else
        a <- addNode systemTree 0 treeTagSet ;;
        match a with
        | Err err => ret (Some err)
        | Ok _ => ret None
        end
  | Ok node => moveNode systemTree (ID node) 0 treeTagSet
  end.

Definition DeleteBucketTagging : Go (option error) :=
  r <- getSystemNode [bucketTaggingFilename] [] ;;
  match r with
  | Err err => if negb (IsErrNodeNotFound err) then ret (Some err) else ret None
  | Ok node => removeNode systemTree (ID node)
  end.

Definition PutLock (nodeID : N) (lock : Data.LockInfo) : Go (option error) :=
  let meta := lockMeta lock in
  if (Data.LockInfo_ID lock =? 0)%N then
    a <- addNode versionTree nodeID meta ;;
    match a with
    | Err err => ret (Some err)
    | Ok _ => ret None
    end
  else moveNode versionTree (Data.LockInfo_ID lock) nodeID meta.

Definition GetLock (nodeID : N) : Go (result Data.LockInfo) :=
  r <- getTreeNode nodeID isLockKV ;;
  match r with
  | Err err => ret (Err err)
  | Ok lockNode => ret (getLock lockNode)
  end.

Definition GetObjectTaggingAndLock (objVersion : Data.NodeVersion)
  : Go (result (option (gmap string string) * Data.LockInfo)) :=
  r <- getTreeNodes (Data.ID (Data.Base objVersion)) [isTagKV; isLockKV] ;;
  match r with
  | Err err => ret (Err err)
  | Ok nodes =>
      match getLock (nodes !! isLockKV) with
      | Err err => ret (Err err)
      | Ok lockInfo => ret (Ok (getObjectTagging (nodes !! isTagKV), lockInfo))
      end
  end.

(** *** Versions *)

Definition GetLatestVersion (objectName : string) : Go (result Data.NodeVersion) :=
  let meta := [oidKV; isUnversionedKV; isDeleteMarkerKV; etagKV; sizeKV] in
  let path := pathFromName objectName in
  r <- getNodes versionTree path meta true false ;;
  match r with
  | Err err => ret (Err (wrapError "couldn't get nodes: " err))
  | Ok nodes =>
      match nodes with
      | [] => ret (Err ErrNodeNotFound)
      | node :: _ => ret (newNodeVersion objectName node)
      end
  end.

Definition RemoveVersion (id : N) : Go (option error) := removeNode versionTree id.

Definition getPrefixNodeID (treeID : string) (prefixPath : list string) : Go (result N) :=
  r <- getNodes treeID prefixPath [] false true ;;
  match r with
  | Err err => ret (Err err)
  | Ok nodes =>
      match intermediateNodes nodes with
      | [] => ret (Err ErrNodeNotFound)
      | [node] => ret (Ok node)
      | _ => ret (Err (errorString "found more than one intermediate nodes"))
      end
  end.

(** The root of the listing and the tail of the prefix. *)
Definition determinePrefixNode (treeID prefix : string) : Go (result (N * string)) :=
  let path := prefixPath prefix in
  let tailPrefix := List.last path "" in
  if (1 <? length path)%nat then
    r <- getPrefixNodeID treeID (removelast path) ;;
    match r with
    | Err err => ret (Err err)
    | Ok rootID => ret (Ok (rootID, tailPrefix))
    end
  else ret (Ok (0%N, tailPrefix)).

(** Ranging over [nodesMap] visits [map_to_list]. *)
Definition getSubTreeByPrefix (treeID prefix : string) (latestOnly : bool)
  : Go (result (list NodeBody * string)) :=
  d <- determinePrefixNode treeID prefix ;;
  match d with
  | Err err => if IsErrNodeNotFound err then ret (Ok ([], "")) else ret (Err err)
  | Ok (rootID, tailPrefix) =>
      r <- getSubTree treeID rootID 1 ;;
      match r with
      | Err err => if IsErrNodeNotFound err then ret (Ok ([], "")) else ret (Err err)
      | Ok subTree =>
          let nodesMap := getSubTreeByPrefix_loop rootID tailPrefix latestOnly subTree ∅ in
          ret (Ok (concat (map_to_list nodesMap).*2, Strings.TrimSuffix prefix tailPrefix))
      end
  end.

(** Ranging over [versions] visits [map_to_list]. *)
Definition getSubTreeVersions (nodeID : N) (parentFilePath : string) (latestOnly : bool)
  : Go (result (list Data.NodeVersion)) :=
  r <- getSubTree versionTree nodeID maxGetSubTreeDepth ;;
  match r with
  | Err err => ret (Err err)
  | Ok subTree =>
      v <- lift (getSubTreeVersions_loop (parentPrefix parentFilePath) latestOnly 0 subTree ∅ ∅) ;;
      match v with
      | Err err => ret (Err err)
      | Ok versions =>
          res <- lift (getSubTreeVersions_result latestOnly (map_to_list versions).*2 []) ;;
          ret (Ok res)
      end
  end.

(** The loop of [getVersionsByPrefix] over the nodes of the prefix. *)
Fixpoint getVersionsByPrefix_loop (headPrefix : string) (latestOnly : bool)
    (prefixNodes : list NodeBody) (res : list Data.NodeVersion)
  : Go (result (list Data.NodeVersion)) :=
  match prefixNodes with
  | [] => ret (Ok res)
  | node :: rest =>
      r <- getSubTreeVersions (GetNodeId node) headPrefix latestOnly ;;
      match r with
      | Err err => ret (Err err)
      | Ok versions => getVersionsByPrefix_loop headPrefix latestOnly rest (res ++ versions)
      end
  end.

Definition getVersionsByPrefix (prefix : string) (latestOnly : bool)
  : Go (result (list Data.NodeVersion)) :=
  r <- getSubTreeByPrefix versionTree prefix latestOnly ;;
  match r with
  | Err err => ret (Err err)
  | Ok (prefixNodes, headPrefix) => getVersionsByPrefix_loop headPrefix latestOnly prefixNodes []
  end.

Definition GetLatestVersionsByPrefix (prefix : string) : Go (result (list Data.NodeVersion)) :=
  getVersionsByPrefix prefix true.

Definition GetAllVersionsByPrefix (prefix : string) : Go (result (list Data.NodeVersion)) :=
  getVersionsByPrefix prefix false.

(** *** Multipart uploads *)

Definition CreateMultipartUpload (info : Data.MultipartInfo) : Go (option error) :=
  let path := pathFromName (Data.Multipart_Key info) in
  let meta := metaFromMultipart info in
  addNodeByPath systemTree (removelast path) meta.

Definition getSubTreeMultipartUploads (nodeID : N) : Go (result (list Data.MultipartInfo)) :=
  r <- getSubTree systemTree nodeID maxGetSubTreeDepth ;;
  match r with
  | Err err => ret (Err err)
  | Ok subTree => ret (Ok (getSubTreeMultipartUploads_loop subTree))
  end.

Fixpoint GetMultipartUploadsByPrefix_loop (subTreeNodes : list NodeBody)
    (res : list Data.MultipartInfo) : Go (result (list Data.MultipartInfo)) :=
  match subTreeNodes with
  | [] => ret (Ok res)
  | node :: rest =>
      r <- getSubTreeMultipartUploads (GetNodeId node) ;;
      match r with
      | Err err => ret (Err err)
      | Ok multipartUploads => GetMultipartUploadsByPrefix_loop rest (res ++ multipartUploads)
      end
  end.

Definition GetMultipartUploadsByPrefix (prefix : string) : Go (result (list Data.MultipartInfo)) :=
  r <- getSubTreeByPrefix systemTree prefix false ;;
  match r with
  | Err err => ret (Err err)
  | Ok (subTreeNodes, _) => GetMultipartUploadsByPrefix_loop subTreeNodes []
  end.

Definition GetMultipartUpload (objectName uploadID : string) : Go (result Data.MultipartInfo) :=
  let path := pathFromName objectName in
  r <- getNodes systemTree path [] false true ;;
  match r with
  | Err err => ret (Err err)
  | Ok nodes => ret (GetMultipartUpload_loop uploadID nodes)
  end.

Definition DeleteMultipartUpload (multipartNodeID : N) : Go (option error) :=
  removeNode systemTree multipartNodeID.

End Client.

End Neofs.

(** ** Package [layer]: listing object versions *)
Module Layer.

Definition UnversionedObjectVersionID := "null".

(** Modelled from the spec: the parameters and the result of the listing
    (spec 4.7, inputs and steps 5 to 7) are declared in files of package
    [layer] that are not among the sources.  The fields are those
    [ListObjectVersions] reads and writes; [BktInfo] only travels to the
    collect step.  [MaxKeys] is an [int]: a number from [-2^63] to
    [2^63-1]. *)
Record ListObjectVersionsParams := {
  Delimiter : string;
  KeyMarker : string;
  MaxKeys : Z;
  Prefix : string;
  VersionIDMarker : string
}.

Record ObjectVersionInfo := {
  Object : Data.ObjectInfo;
  IsUnversioned : bool;
  IsLatest : bool
}.

Record ListObjectVersionsInfo := {
  CommonPrefixes : list string;
  IsTruncated : bool;
  Res_KeyMarker : string;
  NextKeyMarker : string;
  NextVersionIDMarker : string;
  Res_VersionIDMarker : string;
  DeleteMarker : list ObjectVersionInfo;
  Version : list ObjectVersionInfo
}.

(** The map of the collect step holds pointers, and the loop that builds
    [allObjects] writes [IsLatest] through them: [ptr] is an address and
    [heap] the records the addresses point to. *)
Definition ptr := nat.

Section Listing.
Context `{SDK} `{Sort.Slicer}.

Definition heap := ptr → Data.ExtendedObjectInfo.

(** [*p = v]. *)
Definition store (h : heap) (p : ptr) (v : Data.ExtendedObjectInfo) : heap :=
  λ q, if decide (q = p) then v else h q.

Definition setIsLatest (v : Data.ExtendedObjectInfo) (b : bool) : Data.ExtendedObjectInfo :=
  {| Data.EOI_ObjectInfo := Data.EOI_ObjectInfo v;
     Data.EOI_NodeVersion := Data.EOI_NodeVersion v;
     Data.IsLatest := b |}.

Definition timestamp (h : heap) (p : ptr) : N :=
  Data.Timestamp (Data.Base (Data.EOI_NodeVersion (h p))).

Definition name (h : heap) (p : ptr) : string := Data.Name (Data.EOI_ObjectInfo (h p)).

Definition version (h : heap) (p : ptr) : string := Data.Version (Data.EOI_ObjectInfo (h p)).

(** Modelled from the spec: [triageExtendedObjects] is not among the
    sources.  Spec 4.7, step 5: every version whose key, after removing
    [Prefix], contains [Delimiter] contributes to [CommonPrefixes] (the
    portion up to and including the first [Delimiter]) instead of the flat
    list.  Which keys collapse, and into what, is fixed by the request;
    [commonPrefix] gives it for each key. *)
Variable commonPrefix : string → option string.

Definition triageExtendedObjects (h : heap) (allObjects : list ptr) : list string * list ptr :=
  (omap (λ p, commonPrefix (name h p)) allObjects,
   filter (λ p, commonPrefix (name h p) = None) allObjects).

(** [version.IsLatest = i == 0] for the versions of one name, from index [i] on. *)
Fixpoint markVersions (i : nat) (sortedVersions : list ptr) (h : heap) : heap :=
  match sortedVersions with
  | [] => h
  | v :: rest => markVersions (S i) rest (store h v (setIsLatest (h v) (i =? 0)%nat))
  end.

(** The loop over [sortedNames]: sorts the versions of each name, newest
    first, marks them and appends them to [allObjects]. *)
Fixpoint collect (versions : gmap string (list ptr)) (sortedNames : list string)
    (h : heap) (allObjects : list ptr) : heap * list ptr :=
  match sortedNames with
  | [] => (h, allObjects)
  | n :: rest =>
      let sortedVersions :=
        Sort.Slice (λ i j, (timestamp h j <? timestamp h i)%N) (default [] (versions !! n)) in
      collect versions rest (markVersions 0 sortedVersions h) (allObjects ++ sortedVersions)
  end.

(** The cursor loop: [Some] of the slice it cuts when it breaks, [None]
    when it runs to the end of [allObjects]. *)
Fixpoint advance (p : ListObjectVersionsParams) (h : heap) (allObjects : list ptr)
  : option (list ptr) :=
  match allObjects with
  | [] => None
  | obj :: rest =>
      if Strings.ge (name h obj) (KeyMarker p) && Strings.ge (version h obj) (VersionIDMarker p)
      then Some (obj :: rest)
      else advance p h rest
  end.

Definition cursor (p : ListObjectVersionsParams) (h : heap) (allObjects : list ptr) : list ptr :=
  default allObjects (advance p h allObjects).

Definition toObjectVersionInfo (h : heap) (obj : ptr) : ObjectVersionInfo :=
  {| Object := Data.EOI_ObjectInfo (h obj);
     IsUnversioned := Data.IsUnversioned (Data.EOI_NodeVersion (h obj));
     IsLatest := Data.IsLatest (h obj) |}.

Definition triageVersions (objVersions : list ObjectVersionInfo)
  : list ObjectVersionInfo * list ObjectVersionInfo :=
  if (length objVersions =? 0)%nat then ([], [])
  else (filter (λ v, Data.IsDeleteMarker (Object v) = false) objVersions,
        filter (λ v, Data.IsDeleteMarker (Object v) = true) objVersions).

(** [s[i]] for an [int] index. *)
Definition index {A} (s : list A) (i : Z) : option A :=
  if (i <? 0)%Z then None else s !! Z.to_nat i.

(** [allObjects] with [IsLatest] set, before the cursor. *)
Definition flatten (versions : gmap string (list ptr)) (h : heap) : heap * list ptr :=
  collect versions (Sort.Strings (map_to_list versions).*1) h [].

(** What is left of [allObjects] when pagination starts. *)
Definition remaining (p : ListObjectVersionsParams) (versions : gmap string (list ptr))
    (h : heap) : list ptr :=
  let (h', allObjects) := flatten versions h in
  (triageExtendedObjects h' (cursor p h' allObjects)).2.

(** The pagination step on the list [allObjects] left by the cursor and the
    triage: the markers and the page, or a panic. *)
Definition paginate (p : ListObjectVersionsParams) (h : heap) (allObjects : list ptr)
  : outcome (bool * (string * string) * (string * string) * list ptr) :=
  if (MaxKeys p <? Z.of_nat (length allObjects))%Z then
    match index allObjects (MaxKeys p) with
    | None => Panics "index out of range"
    | Some next =>
        let allObjects' := take (Z.to_nat (MaxKeys p)) allObjects in
        match index allObjects' (MaxKeys p - 1) with
        | None => Panics "index out of range"
        | Some last =>
            Returns (true, (name h next, version h next), (name h last, version h last),
                     allObjects')
        end
    end
  else Returns (false, ("", ""), ("", ""), allObjects).

(** The size of a pointer and the largest allocation of the run time, in
    bytes, on the 64-bit platforms the gateway runs on. *)
Definition ptrSize : Z := 8.
Definition maxAlloc : Z := 2 ^ 48.

(** Whether the machine has the memory for a slice of that many pointers
    when [ListObjectVersions] asks for it: this belongs to the machine,
    not to the code. *)
Variable allocates : Z → bool.

(** [make([]*data.ExtendedObjectInfo, 0, cap)].  The run time panics when
    [cap] is negative or when [cap] pointers take more than [maxAlloc]
    bytes; a capacity of zero takes no memory; for any other the memory
    has to be there, and the program dies when it is not.  The other
    slices of the function have the size of data the program already
    holds, and are taken to be allocated. *)
Definition makeslice (cap : Z) : outcome () :=
  if (cap <? 0)%Z || (maxAlloc <? ptrSize * cap)%Z then Panics "makeslice: cap out of range"
  else if (cap =? 0)%Z || allocates cap then Returns ()
  else Panics "fatal error: out of memory".

(** [getAllObjectsVersions] is not among the sources (spec 4.7, step 1);
    [collected] is what it returned, over the heap [h]. *)
Definition ListObjectVersions (p : ListObjectVersionsParams)
    (collected : result (gmap string (list ptr))) (h : heap)
  : outcome (result ListObjectVersionsInfo) :=
  match makeslice (MaxKeys p) with
  | Panics reason => Panics reason
  | Returns _ =>
    match collected with
    | Err err => Returns (Err err)
    | Ok versions =>
        let (h', allObjects) := flatten versions h in
        let allObjects := cursor p h' allObjects in
        let (prefixes, allObjects) := triageExtendedObjects h' allObjects in
        match paginate p h' allObjects with
        | Panics reason => Panics reason
        | Returns (truncated, next, echoed, allObjects) =>
            let objects := toObjectVersionInfo h' <$> allObjects in
            let (resVersion, resDelMark) := triageVersions objects in
            Returns (Ok {| CommonPrefixes := prefixes;
                           IsTruncated := truncated;
                           Res_KeyMarker := echoed.1;
                           NextKeyMarker := next.1;
                           NextVersionIDMarker := next.2;
                           Res_VersionIDMarker := echoed.2;
                           DeleteMarker := resDelMark;
                           Version := resVersion |})
        end
    end
  end.

End Listing.

End Layer.

(** ** The tree service, in memory

    The service runs outside the gateway.  This is its contract (spec 6) as
    a program: every tree is a list of nodes in the order they were added;
    [Add] gives the new node the next free id, [Move] replaces the parent
    and the metadata of a node where it stands, [AddByPath] reuses the
    first node of each name on the way down and creates the ones that are
    missing, and a tree that was never written to is reported as
    "not found". *)
Module Forest.
Import Neofs.

Record Tree := {
  nodes : list NodeBody;
  nextId : N;
  clock : N
}.

Abbreviation Forest := (gmap string Tree).

Definition emptyTree : Tree := {| nodes := []; nextId := 1; clock := 1 |}.

(** The value of the first pair with this key. *)
Fixpoint attr (key : string) (meta : list KeyValue) : option string :=
  match meta with
  | [] => None
  | kv :: meta' => if decide (GetKey kv = key) then Some (GetValue kv) else attr key meta'
  end.

(** The children of [parent] called [name], oldest first. *)
Definition children (pathAttribute : string) (ns : list NodeBody) (parent : N) (name : string)
  : list NodeBody :=
  filter (λ n, GetParentId n = parent ∧ attr pathAttribute (GetMeta n) = Some name) ns.

(** Walks [path] down from [parent]. *)
Fixpoint resolve (pathAttribute : string) (ns : list NodeBody) (parent : N) (path : list string)
  : option N :=
  match path with
  | [] => Some parent
  | seg :: path' =>
      match children pathAttribute ns parent seg with
      | [] => None
      | child :: _ => resolve pathAttribute ns (GetNodeId child) path'
      end
  end.

Definition addTo (t : Tree) (parent : N) (meta : list KeyValue) : Tree * N :=
  ({| nodes := nodes t ++ [{| GetNodeId := nextId t; GetParentId := parent;
                              GetTimestamp := clock t; GetMeta := meta |}];
      nextId := nextId t + 1;
      clock := clock t + 1 |}, nextId t).

(** Walks [path] down from [parent] and creates what is missing. *)
Fixpoint ensure (pathAttribute : string) (t : Tree) (parent : N) (path : list string) : Tree * N :=
  match path with
  | [] => (t, parent)
  | seg :: path' =>
      match children pathAttribute (nodes t) parent seg with
      | child :: _ => ensure pathAttribute t (GetNodeId child) path'
      | [] =>
          let (t', id) := addTo t parent [{| GetKey := pathAttribute; GetValue := seg |}] in
          ensure pathAttribute t' id path'
      end
  end.

Definition rootBody : NodeBody :=
  {| GetNodeId := 0; GetParentId := 0; GetTimestamp := 0; GetMeta := [] |}.

(** The nodes below [root], down to [depth] levels, parents first. *)
Fixpoint descendants (ns : list NodeBody) (depth : nat) (root : N) : list NodeBody :=
  match depth with
  | O => []
  | S depth' =>
      mbind (λ child, child :: descendants ns depth' (GetNodeId child))
            (filter (λ n, GetParentId n = root) ns)
  end.

Definition moveIn (t : Tree) (node parent : N) (meta : list KeyValue) : Tree :=
  {| nodes := (λ n, if decide (GetNodeId n = node)
                    then {| GetNodeId := node; GetParentId := parent;
                            GetTimestamp := clock t; GetMeta := meta |}
                    else n) <$> nodes t;
     nextId := nextId t;
     clock := clock t + 1 |}.

(** The ids of [node] and of everything below it. *)
Fixpoint below (ns : list NodeBody) (fuel : nat) (ids : list N) : list N :=
  match fuel with
  | O => ids
  | S fuel' =>
      below ns fuel' (ids ++ (GetNodeId <$> filter (λ n, GetParentId n ∈ ids ∧ GetNodeId n ∉ ids) ns))
  end.

Definition latest (ns : list NodeBody) : list NodeBody :=
  match ns with
  | [] => []
  | n :: ns' =>
      [foldl (λ best m, if (GetTimestamp best <? GetTimestamp m)%N then m else best) n ns']
  end.

Definition project (attributes : list string) (allAttributes : bool) (n : NodeBody) : NodeBody :=
  {| GetNodeId := GetNodeId n; GetParentId := GetParentId n; GetTimestamp := GetTimestamp n;
     GetMeta := if allAttributes then GetMeta n
                else filter (λ kv, GetKey kv ∈ attributes) (GetMeta n) |}.

Definition treeNotFound : error := errorString "tree not found".
Definition nodeNotFound : error := errorString "node not found".

Definition Add (req : AddRequest) (f : Forest) : result N * Forest :=
  let (t, id) := addTo (default emptyTree (f !! Add_TreeId req)) (Add_ParentId req) (Add_Meta req) in
  (Ok id, <[Add_TreeId req := t]> f).

Definition AddByPath (req : AddByPathRequest) (f : Forest) : result () * Forest :=
  let (t, parent) := ensure (AddByPath_PathAttribute req)
                       (default emptyTree (f !! AddByPath_TreeId req)) 0 (AddByPath_Path req) in
  (Ok (), <[AddByPath_TreeId req := (addTo t parent (AddByPath_Meta req)).1]> f).

Definition Move (req : MoveRequest) (f : Forest) : result () * Forest :=
  match f !! Move_TreeId req with
  | None => (Err treeNotFound, f)
  | Some t =>
      if decide (Move_NodeId req ∈ GetNodeId <$> nodes t)
      then (Ok (), <[Move_TreeId req := moveIn t (Move_NodeId req) (Move_ParentId req) (Move_Meta req)]> f)
      else (Err nodeNotFound, f)
  end.

Definition Remove (req : RemoveRequest) (f : Forest) : result () * Forest :=
  match f !! Remove_TreeId req with
  | None => (Err treeNotFound, f)
  | Some t =>
      if decide (Remove_NodeId req ∈ GetNodeId <$> nodes t)
      then
        let gone := below (nodes t) (length (nodes t)) [Remove_NodeId req] in
        (Ok (), <[Remove_TreeId req :=
                   {| nodes := filter (λ n, GetNodeId n ∉ gone) (nodes t);
                      nextId := nextId t; clock := clock t + 1 |}]> f)
      else (Err nodeNotFound, f)
  end.

Definition GetNodeByPath (req : GetNodeByPathRequest) (f : Forest)
  : result (list NodeBody) * Forest :=
  match f !! GetNodeByPath_TreeId req with
  | None => (Err treeNotFound, f)
  | Some t =>
      let path := GetNodeByPath_Path req in
      let a := GetNodeByPath_PathAttribute req in
      match path with
      | [] => (Ok [], f)
      | _ =>
          match resolve a (nodes t) 0 (removelast path) with
          | None => (Ok [], f)
          | Some parent =>
              let found := children a (nodes t) parent (List.last path "") in
              let found := if GetNodeByPath_LatestOnly req then latest found else found in
              (Ok (project (GetNodeByPath_Attributes req) (GetNodeByPath_AllAttributes req) <$> found), f)
          end
      end
  end.

Definition GetSubTree (req : GetSubTreeRequest) (f : Forest)
  : result (list NodeBody * option error) * Forest :=
  match f !! GetSubTree_TreeId req with
  | None => (Err treeNotFound, f)
  | Some t =>
      let root := GetSubTree_RootId req in
      let below := descendants (nodes t) (N.to_nat (GetSubTree_Depth req)) root in
      if decide (root = 0%N) then (Ok (rootBody :: below, None), f)
      else
        match list_find (λ n, GetNodeId n = root) (nodes t) with
        | Some (_, body) => (Ok (body :: below, None), f)
        | None => (Err nodeNotFound, f)
        end
  end.

#[global] Instance service : TreeServiceClient Forest := {|
  service_Add := Add;
  service_AddByPath := AddByPath;
  service_Move := Move;
  service_Remove := Remove;
  service_GetNodeByPath := GetNodeByPath;
  service_GetSubTree := GetSubTree
|}.

(** A tree in which ids are in use once, and ids and parents are below the
    next free id; every tree the service builds from the empty one is. *)
Definition wellFormed (t : Tree) : Prop :=
  (0 < nextId t)%N ∧
  NoDup (GetNodeId <$> nodes t) ∧
  Forall (λ n, (0 < GetNodeId n < nextId t)%N ∧ (GetParentId n < nextId t)%N) (nodes t).

End Forest.

(** * Properties *)

Local Open Scope list_scope.

(** ** Decimal numbers *)
Section Decimal.
Import Strconv.
Local Open Scope Z_scope.

Lemma digitChar_spec d :
  0 ≤ d < 10 → isDigit (digitChar d) = true ∧ digitValue (digitChar d) = d.
Proof.
  intros Hd.
  assert (d = 0 ∨ d = 1 ∨ d = 2 ∨ d = 3 ∨ d = 4 ∨ d = 5 ∨ d = 6 ∨ d = 7 ∨ d = 8 ∨ d = 9)
    as Hcases by lia.
  repeat (destruct Hcases as [-> | Hcases]; [by vm_compute |]).
  subst d. by vm_compute.
Qed.

(** The number a string of digits stands for, read from the accumulator
    [acc] on; [None] on a byte that is no digit. *)
Fixpoint parseDigits (s : string) (acc : Z) : option Z :=
  match s with
  | EmptyString => Some acc
  | String c rest =>
      if isDigit c then parseDigits rest (acc * 10 + digitValue c)
      else None
  end.

(** A string of digits shifts the accumulator by its length and adds its
    value. *)
Definition parsesAs (s : string) (v k : Z) : Prop :=
  0 ≤ k ∧ ∀ a, parseDigits s a = Some (a * 10 ^ k + v).

Lemma parsesAs_cons d s v k :
  0 ≤ d < 10 → parsesAs s v k → parsesAs (String (digitChar d) s) (d * 10 ^ k + v) (k + 1).
Proof.
  intros Hd [Hk Hs]. split; [lia |]. intros a. simpl.
  destruct (digitChar_spec d Hd) as [-> ->].
  rewrite Hs, Z.pow_add_r by lia. f_equal. ring.
Qed.

Lemma formatBits_parsesAs fuel : ∀ n acc v k,
  0 ≤ n < 2 ^ Z.of_nat fuel → parsesAs acc v k →
  ∃ k', parsesAs (formatBits fuel n acc) (n * 10 ^ k + v) k'.
Proof.
  induction fuel as [| fuel IH]; intros n acc v k Hn Hacc.
  - simpl in *. assert (n = 0) as -> by lia. exists k. by rewrite Z.mul_0_l, Z.add_0_l.
  - simpl formatBits.
    assert (0 ≤ n `mod` 10 < 10) as Hd by (apply Z.mod_pos_bound; lia).
    pose proof (parsesAs_cons _ _ _ _ Hd Hacc) as Hacc'.
    destruct (n <? 10) eqn:Hlt.
    + apply Z.ltb_lt in Hlt. exists (k + 1).
      rewrite Z.mod_small in Hacc' by lia. rewrite Z.mod_small by lia. done.
    + apply Z.ltb_ge in Hlt.
      assert (0 ≤ n `div` 10 < 2 ^ Z.of_nat fuel) as Hdiv.
      { split; [apply Z.div_pos; lia |].
        rewrite Nat2Z.inj_succ, Z.pow_succ_r in Hn by lia.
        apply Z.div_lt_upper_bound; lia. }
      destruct (IH _ _ _ _ Hdiv Hacc') as [k' Hk']. exists k'.
      replace (n * 10 ^ k + v)
        with (n `div` 10 * 10 ^ (k + 1) + (n `mod` 10 * 10 ^ k + v)); [done |].
      destruct Hacc as [Hk _]. rewrite Z.pow_add_r by lia.
      rewrite (Z.div_mod n 10) at 3 by lia. ring.
Qed.

Lemma parseDigits_formatUint n : 0 ≤ n → parseDigits (formatUint n) 0 = Some n.
Proof.
  intros Hn. unfold formatUint.
  destruct (formatBits_parsesAs (S (Z.to_nat (Z.log2 n))) n "" 0 0) as [k' [_ Hk']].
  - rewrite Nat2Z.inj_succ, Z2Nat.id by apply Z.log2_nonneg.
    destruct (decide (n = 0)) as [-> | Hne]; [by vm_compute |].
    split; [done |]. apply Z.log2_spec. lia.
  - split; [done |]. intros a. simpl. f_equal. lia.
  - rewrite Hk'. f_equal. lia.
Qed.

Lemma formatBits_nonempty fuel : ∀ n acc, ∃ c s, formatBits (S fuel) n acc = String c s.
Proof.
  induction fuel as [| fuel IH]; intros n acc; simpl.
  - destruct (n <? 10); eauto.
  - destruct (n <? 10); [eauto |]. apply IH.
Qed.

Lemma parseDigits_digits s : ∀ a v,
  parseDigits s a = Some v → Forall (λ c, isDigit c = true) (String.list_ascii_of_string s).
Proof.
  induction s as [| c s IH]; intros a v Hp; simpl in *; [constructor |].
  destruct (isDigit c) eqn:Hc; [| done]. constructor; eauto.
Qed.

Lemma formatUint_digits n :
  0 ≤ n → Forall (λ c, isDigit c = true) (String.list_ascii_of_string (formatUint n)).
Proof. intros Hn. eapply parseDigits_digits, parseDigits_formatUint, Hn. Qed.

Lemma formatUint_head n :
  0 ≤ n → ∃ c s, formatUint n = String c s ∧ isDigit c = true.
Proof.
  intros Hn. pose proof (formatUint_digits n Hn) as Hall.
  destruct (formatBits_nonempty (Z.to_nat (Z.log2 n)) n "") as (c & s & Heq).
  fold (formatUint n) in Heq. rewrite Heq in Hall. inversion Hall; subst. eauto.
Qed.

Lemma isDigit_value c : isDigit c = true → 0 ≤ digitValue c ≤ 9.
Proof.
  unfold isDigit, digitValue. intros Hc. apply andb_true_iff in Hc as [Hlo Hhi].
  apply N.leb_le in Hlo, Hhi. lia.
Qed.

Lemma parseDigits_grows s : ∀ a v, 0 ≤ a → parseDigits s a = Some v → a ≤ v.
Proof.
  induction s as [| c s IH]; intros a v Ha; simpl; [intros [= <-]; lia |].
  destruct (isDigit c) eqn:Hc; [| done]. intros Hp.
  pose proof (isDigit_value c Hc). apply IH in Hp; lia.
Qed.

(** On digits that stand for a uint64, the loop of [ParseUint] never meets
    an overflow. *)
Lemma ParseUint_loop_digits s : ∀ a v,
  0 ≤ a → parseDigits s a = Some v → v ≤ maxUint64 → ParseUint_loop s a = (v, None).
Proof.
  induction s as [| c s IH]; intros a v Ha; simpl; [by intros [= <-] |].
  destruct (isDigit c) eqn:Hc; [| done]. intros Hp Hv.
  pose proof (isDigit_value c Hc) as Hd.
  assert (0 ≤ a * 10 + digitValue c) as Ha1 by lia.
  pose proof (parseDigits_grows _ _ _ Ha1 Hp) as Hgrow.
  change cutoff with 1844674407370955162. change maxUint64 with 18446744073709551615 in *.
  destruct (_ <=? a) eqn:Hcut; [apply Z.leb_le in Hcut; lia |].
  destruct (_ <? a * 10 + digitValue c) eqn:Hover; [apply Z.ltb_lt in Hover; lia |].
  apply IH; [lia | done | done].
Qed.

Lemma ParseUint_formatUint n : 0 ≤ n < 2 ^ 64 → ParseUint (formatUint n) = (n, None).
Proof.
  intros [Hn Hlt]. destruct (formatUint_head n Hn) as (c & s & Heq & _).
  unfold ParseUint. rewrite Heq, <- Heq.
  apply ParseUint_loop_digits; [done | by apply parseDigits_formatUint |].
  change maxUint64 with 18446744073709551615. lia.
Qed.

Lemma isDigit_not_sign c : isDigit c = true → Ascii.eqb c "-" = false ∧ Ascii.eqb c "+" = false.
Proof.
  unfold isDigit. intros Hc. apply andb_true_iff in Hc as [Hlo Hhi].
  apply N.leb_le in Hlo. split; apply Ascii.eqb_neq; intros ->; vm_compute in Hlo; done.
Qed.

(** What [FormatInt] prints, [ParseInt] reads back. *)
Lemma ParseInt_FormatInt i :
  - 2 ^ 63 ≤ i < 2 ^ 63 → ParseInt (FormatInt i) = (i, None).
Proof.
  intros Hi. unfold FormatInt. destruct (i <? 0) eqn:Hneg.
  - apply Z.ltb_lt in Hneg. unfold ParseInt.
    replace (Ascii.eqb "-" "-") with true by done.
    rewrite orb_true_r, ParseUint_formatUint by lia. simpl negb. simpl andb.
    destruct (2 ^ 63 <? - i) eqn:Hc; [apply Z.ltb_lt in Hc; lia |].
    f_equal. lia.
  - apply Z.ltb_ge in Hneg.
    destruct (formatUint_head i Hneg) as (c & s & Heq & Hc).
    destruct (isDigit_not_sign c Hc) as [Hm Hp].
    unfold ParseInt. rewrite Heq, Hm, Hp. simpl orb. rewrite <- Heq.
    rewrite ParseUint_formatUint by lia. simpl negb. simpl andb.
    destruct (2 ^ 63 <=? i) eqn:Hc'; [apply Z.leb_le in Hc'; lia | done].
Qed.

Lemma FormatInt_nonempty i : FormatInt i ≠ "".
Proof.
  unfold FormatInt. destruct (i <? 0) eqn:Hneg; [done |].
  apply Z.ltb_ge in Hneg. by destruct (formatUint_head i Hneg) as (c & s & -> & _).
Qed.

End Decimal.

(** ** Splitting and joining *)
Section SplitJoin.
Import Strings.

Definition bytes (s : string) : list ascii := String.list_ascii_of_string s.

Lemma bytes_app a b : bytes (a +:+ b) = bytes a ++ bytes b.
Proof. induction a as [| c a IH]; simpl; [done |]. unfold bytes in *. simpl. by rewrite IH. Qed.

Lemma Split_nonempty s sep : Split s sep ≠ [].
Proof.
  destruct s as [| c s]; simpl; [done |].
  destruct (Ascii.eqb c sep); [done |]. by destruct (Split s sep).
Qed.

Lemma Split_without s sep : sep ∉ bytes s → Split s sep = [s].
Proof.
  induction s as [| c s IH]; simpl; [done |]. intros Hnot.
  apply not_elem_of_cons in Hnot as [Hne Hnot].
  destruct (Ascii.eqb_spec c sep) as [-> | _]; [done |]. by rewrite IH.
Qed.

Lemma Split_app a b sep :
  sep ∉ bytes a → Split (a +:+ String sep b) sep = a :: Split b sep.
Proof.
  induction a as [| c a IH]; simpl; intros Hnot.
  - by rewrite Ascii.eqb_refl.
  - apply not_elem_of_cons in Hnot as [Hne Hnot].
    destruct (Ascii.eqb_spec c sep) as [-> | _]; [done |]. by rewrite IH.
Qed.

Lemma Split_segments s sep : Forall (λ seg, sep ∉ bytes seg) (Split s sep).
Proof.
  induction s as [| c s IH]; simpl.
  - repeat constructor. by apply not_elem_of_nil.
  - destruct (Ascii.eqb_spec c sep) as [-> | Hne].
    + constructor; [apply not_elem_of_nil | done].
    + destruct (Split s sep) as [| seg segs] eqn:Hsplit; [by destruct (Split_nonempty s sep) |].
      inversion IH; subst. constructor; [| done].
      by apply not_elem_of_cons.
Qed.

Lemma Join_cons seg segs sep :
  segs ≠ [] → Join (seg :: segs) sep = seg +:+ sep +:+ Join segs sep.
Proof. by destruct segs. Qed.

(** Joining what [Split] cut gives the string back. *)
Lemma Join_Split s sep : Join (Split s sep) (String sep "") = s.
Proof.
  induction s as [| c s IH]; [done |]. simpl Split.
  destruct (Ascii.eqb_spec c sep) as [-> | Hne].
  - rewrite Join_cons by apply Split_nonempty. simpl. by rewrite IH.
  - pose proof (Split_nonempty s sep) as Hne'.
    destruct (Split s sep) as [| seg segs]; [done |].
    destruct segs as [| seg' segs].
    + simpl in *. by rewrite IH.
    + rewrite Join_cons by done. rewrite Join_cons in IH by done.
      rewrite <- IH at 1. done.
Qed.

(** Two lists of segments that join into the same string are the same. *)
Lemma Split_Join segs sep :
  segs ≠ [] → Forall (λ seg, sep ∉ bytes seg) segs →
  Split (Join segs (String sep "")) sep = segs.
Proof.
  induction segs as [| seg segs IH]; [done |]. intros _ Hall.
  inversion Hall as [| ? ? Hseg Hsegs]; subst.
  destruct segs as [| seg' segs].
  - simpl. by apply Split_without.
  - rewrite Join_cons by done.
    change (String sep "" +:+ ?x) with (String sep x).
    rewrite Split_app by done. by rewrite IH.
Qed.

End SplitJoin.

(** ** Lock configuration *)
Section LockConfiguration.
Import Neofs Data.
Local Open Scope Z_scope.

Definition comma : ascii := ",".

(** No decimal number holds a comma. *)
Lemma FormatInt_no_comma i : comma ∉ bytes (Strconv.FormatInt i).
Proof.
  assert (∀ n, 0 ≤ n → comma ∉ bytes (Strconv.formatUint n)) as Hu.
  { intros n Hn Hin. pose proof (formatUint_digits n Hn) as Hall.
    rewrite Forall_forall in Hall. by apply Hall in Hin. }
  unfold Strconv.FormatInt. destruct (i <? 0) eqn:Hneg.
  - apply Z.ltb_lt in Hneg. intros Hin. apply elem_of_cons in Hin as [Hc | Hin]; [done |].
    by apply (Hu (- i)); [lia |].
  - apply Z.ltb_ge in Hneg. by apply Hu.
Qed.

Definition int64 (i : Z) : Prop := - 2 ^ 63 ≤ i < 2 ^ 63.

(** A configuration as the gateway stores it: the two strings hold no
    comma (the separator of the encoding), a rule carries its default
    retention, and the periods are int64 values. *)
Definition wellFormedLock (c : ObjectLockConfiguration) : Prop :=
  (comma ∉ bytes (ObjectLockEnabled c)) ∧
  match Rule c with
  | None => True
  | Some rule =>
      match Rule_DefaultRetention rule with
      | None => False
      | Some defaults =>
          (comma ∉ bytes (Mode defaults)) ∧ int64 (Days defaults) ∧ int64 (Years defaults)
      end
  end.

Lemma length_app_cons a c b : String.length (a +:+ String c b) ≠ 0%nat.
Proof. induction a; simpl; lia. Qed.

Lemma length_zero s : String.length s = 0%nat → s = "".
Proof. by destruct s. Qed.

(** C7. Lock-configuration encoding round-trips: parsing the encoding of a
    well-formed configuration gives the configuration back; the nil
    configuration encodes as the empty string; and the empty string parses
    as the empty configuration. *)
Theorem lock_configuration_round_trip (c : ObjectLockConfiguration) :
  wellFormedLock c →
  parseLockConfiguration (encodeLockConfiguration (Some c)) = Ok c ∧
  encodeLockConfiguration None = "" ∧
  parseLockConfiguration "" = Ok {| ObjectLockEnabled := ""; Rule := None |}.
Proof.
  intros [Henabled Hrule]. split; [| done].
  destruct c as [enabled [[[[days mode years] |]] |]]; simpl in Henabled, Hrule.
  - destruct Hrule as (Hmode & Hdays & Hyears).
    change (encodeLockConfiguration _) with
      (enabled +:+ String comma (Strconv.FormatInt days +:+ String comma
         (mode +:+ String comma (Strconv.FormatInt years)))).
    unfold parseLockConfiguration.
    destruct (String.length _ =? 0)%nat eqn:Hlen.
    { apply Nat.eqb_eq in Hlen. by apply length_app_cons in Hlen. }
    change (Strings.Split ?s ",") with (Strings.Split s comma).
    rewrite !Split_app, Split_without by (done || apply FormatInt_no_comma).
    simpl.
    destruct (String.length (Strconv.FormatInt days)) eqn:Hd.
    { by apply length_zero, FormatInt_nonempty in Hd. }
    destruct (String.length (Strconv.FormatInt years)) eqn:Hy.
    { by apply length_zero, FormatInt_nonempty in Hy. }
    simpl. by rewrite !ParseInt_FormatInt.
  - done.
  - simpl encodeLockConfiguration. unfold parseLockConfiguration.
    destruct (String.length enabled =? 0)%nat eqn:Hlen.
    + apply Nat.eqb_eq, length_zero in Hlen. by subst.
    + change (Strings.Split ?s ",") with (Strings.Split s comma).
      by rewrite Split_without.
Qed.

(** Outside the well-formed configurations the encoding loses information:
    a rule without a default retention is encoded like no rule, and a comma
    in a field shifts the fields that follow. *)
Example rule_without_retention_is_dropped :
  parseLockConfiguration (encodeLockConfiguration (Some
    {| ObjectLockEnabled := "Enabled"; Rule := Some {| Rule_DefaultRetention := None |} |}))
  = Ok {| ObjectLockEnabled := "Enabled"; Rule := None |}.
Proof. reflexivity. Qed.

Example comma_in_mode_is_rejected :
  parseLockConfiguration (encodeLockConfiguration (Some
    {| ObjectLockEnabled := "Enabled";
       Rule := Some {| Rule_DefaultRetention :=
         Some {| Days := 1; Mode := "A,B"; Years := 0 |} |} |}))
  = Err (invalidLockConfiguration "Enabled,1,A,B,0").
Proof. reflexivity. Qed.

Definition governance : ObjectLockConfiguration :=
  {| ObjectLockEnabled := "Enabled";
     Rule := Some {| Rule_DefaultRetention :=
       Some {| Days := 30; Mode := "GOVERNANCE"; Years := 0 |} |} |}.

Lemma lock_configuration_round_trip_witness :
  wellFormedLock governance ∧
  parseLockConfiguration (encodeLockConfiguration (Some governance)) = Ok governance ∧
  encodeLockConfiguration None = "" ∧
  parseLockConfiguration "" = Ok {| ObjectLockEnabled := ""; Rule := None |}.
Proof.
  assert (wellFormedLock governance) as Hwf
    by (repeat split; try (apply (bool_decide_unpack _); by vm_compute); by vm_compute).
  exact (conj Hwf (lock_configuration_round_trip governance Hwf)).
Defined.

End LockConfiguration.

(** ** Paths *)
Section Paths.
Import Neofs Strings.

Lemma unescape_other (l : list string) :
  emptyFileName ∉ l → unescapeFileName <$> l = l.
Proof.
  induction l as [| seg l IH]; [done |]. intros Hnot.
  apply not_elem_of_cons in Hnot as [Hne Hnot]. rewrite fmap_cons, IH by done.
  unfold unescapeFileName. by destruct (decide (seg = emptyFileName)).
Qed.

Lemma unescape_marked (l : list string) i :
  emptyFileName ∉ l → l !! i = Some "" →
  unescapeFileName <$> <[i := emptyFileName]> l = l.
Proof.
  intros Hnot Hi. rewrite list_fmap_insert, unescape_other by done.
  by apply list_insert_id.
Qed.

Lemma unescape_pathFromName K :
  emptyFileName ∉ Split K separator →
  unescapeFileName <$> pathFromName K = Split K separator.
Proof.
  intros Hnot. unfold pathFromName.
  set (path := Split K separator) in *.
  destruct (decide (path !! 0%nat = Some "")) as [Hfirst | Hfirst].
  - rewrite length_insert.
    destruct (decide (<[0%nat := emptyFileName]> path !! (length path - 1)%nat = Some ""))
      as [Hlast | Hlast].
    + destruct (decide (length path - 1 = 0)%nat) as [Hz | Hz].
      * rewrite Hz in Hlast. rewrite list_lookup_insert_eq in Hlast; [done |].
        apply lookup_lt_Some in Hfirst. lia.
      * rewrite list_lookup_insert_ne in Hlast by lia.
        rewrite list_fmap_insert, unescape_marked by done.
        by apply list_insert_id.
    + by apply unescape_marked.
  - destruct (decide (path !! (length path - 1)%nat = Some "")) as [Hlast | Hlast].
    + by apply unescape_marked.
    + by apply unescape_other.
Qed.

(** C5, as stated, fails: a key whose first segment is the marker itself
    comes back with that segment empty, and collides with the key that
    starts with a slash. *)
Lemma pathFromName_marker_collision :
  Join (unescapeFileName <$> pathFromName "<empty>/a") "/" ≠ "<empty>/a" ∧
  pathFromName "<empty>/a" = pathFromName "/a" ∧ "<empty>/a" ≠ "/a".
Proof. by vm_compute. Qed.

(** C5, amended. For every key none of whose segments is the marker
    [<empty>], joining [pathFromName] with ['/'] after reading the marker
    back as the empty segment gives the key; and [pathFromName] is
    injective on such keys. *)
Theorem pathFromName_round_trip (K : string) :
  emptyFileName ∉ Split K separator →
  Join (unescapeFileName <$> pathFromName K) "/" = K ∧
  ∀ K', emptyFileName ∉ Split K' separator → pathFromName K' = pathFromName K → K' = K.
Proof.
  intros Hnot.
  assert (∀ k, emptyFileName ∉ Split k separator →
               Join (unescapeFileName <$> pathFromName k) "/" = k) as Hround.
  { intros k Hk. rewrite unescape_pathFromName by done. apply Join_Split. }
  split; [by apply Hround |]. intros K' Hnot' Heq.
  rewrite <- (Hround K'), <- (Hround K) by done. by rewrite Heq.
Qed.

Lemma pathFromName_round_trip_witness :
(emptyFileName ∉ Split "dir/" separator) ∧
  Join (unescapeFileName <$> pathFromName "dir/") "/" = "dir/" ∧
  ∀ K', emptyFileName ∉ Split K' separator → pathFromName K' = pathFromName "dir/" → K' = "dir/".
Proof.
  assert (emptyFileName ∉ Split "dir/" separator) as Hnot
    by (apply (bool_decide_unpack _); by vm_compute).
  split; [done |]. exact (pathFromName_round_trip "dir/" Hnot).
Defined.

End Paths.

(** ** An SDK to run the client on

    Object ids are numbers printed in decimal; user ids are their own
    text.  It serves the examples: the theorems hold for every [SDK]. *)
Section DecimalSDK.

Definition decimalDecode (s : string) : result N :=
  match s with
  | EmptyString => Err (errorString "invalid object id")
  | _ =>
      match parseDigits s 0 with
      | Some n => Ok (Z.to_N n)
      | None => Err (errorString "invalid object id")
      end
  end.

Definition decimalEncode (o : N) : string := Strconv.formatUint (Z.of_N o).

Lemma decimalDecode_decimalEncode o : decimalDecode (decimalEncode o) = Ok o.
Proof.
  unfold decimalDecode, decimalEncode.
  rewrite parseDigits_formatUint by lia.
  destruct (formatUint_head (Z.of_N o)) as (c & s & -> & _); [lia |].
  by rewrite N2Z.id.
Qed.

End DecimalSDK.

#[local] Instance decimalSDK : SDK := {|
  oid := N;
  oidZero := 0%N;
  EncodeToString := decimalEncode;
  DecodeString := decimalDecode;
  DecodeString_EncodeToString := decimalDecode_decimalEncode;
  userID := string;
  userZero := "";
  userEncodeToString := id;
  userDecodeString := Ok
|}.

#[local] Instance sentinelTexts : LayerErrors := {|
  errNodeNotFoundText := "not found";
  errNoNodeToRemoveText := "no node to remove"
|}.

(** ** Decoding a node *)
Section NewTreeNode.
Import Neofs.
Context `{SDK}.

(** What makes [newTreeNode] give up on a pair: an object id that does not
    decode, or a size that is not empty and does not parse. *)
Definition undecodable (kv : KeyValue) : Prop :=
  (GetKey kv = oidKV ∧ ∃ e, DecodeString (GetValue kv) = Err e) ∨
  (GetKey kv = sizeKV ∧ GetValue kv ≠ "" ∧ (Strconv.ParseInt (GetValue kv)).2 ≠ None).

Lemma newTreeNode_loop_rejects kvs : ∀ treeNode kv,
  kv ∈ kvs → undecodable kv → ∃ err, newTreeNode_loop kvs treeNode = Err err.
Proof.
  induction kvs as [| kv0 kvs IH]; intros treeNode kv Hin Hbad.
  - by apply elem_of_nil in Hin.
  - apply elem_of_cons in Hin as [<- | Hin].
    + simpl. destruct Hbad as [[Hkey [e He]] | (Hkey & Hne & Hparse)].
      * rewrite decide_True, He by done. eauto.
      * rewrite decide_False by (rewrite Hkey; done).
        rewrite decide_True by done.
        assert ((0 <? String.length (GetValue kv))%nat = true) as ->
          by (by destruct (GetValue kv)).
        destruct (Strconv.ParseInt (GetValue kv)) as [size [e |]]; [eauto | done].
    + simpl.
      repeat match goal with
             | |- context [decide ?P] => destruct (decide P)
             | |- context [DecodeString ?v] => destruct (DecodeString v)
             | |- context [if ?b then _ else _] => destruct b
             | |- context [Strconv.ParseInt ?v] => destruct (Strconv.ParseInt v) as [? [? |]]
             end; eauto.
Qed.

(** C8, amended. Decoding a node whose metadata carries an [OID] value
    that does not decode as an object id, or a [Size] value that is not
    empty and does not parse as a decimal int64, returns an error.  (An
    empty [Size] value is skipped.) *)
Theorem newTreeNode_rejects (node : NodeBody) (kv : KeyValue) :
  kv ∈ GetMeta node → undecodable kv → ∃ err, newTreeNode node = Err err.
Proof. intros Hin Hbad. unfold newTreeNode. by eapply newTreeNode_loop_rejects. Qed.

End NewTreeNode.

Section NewTreeNodeExamples.
Import Neofs.

Definition emptySize : NodeBody :=
  {| GetNodeId := 1; GetParentId := 0; GetTimestamp := 1;
     GetMeta := [{| GetKey := "Size"; GetValue := "" |}] |}.

(** C8, as stated, fails: the empty string does not parse as an int64, yet
    a node whose [Size] is empty decodes, with the size left at zero. *)
Lemma newTreeNode_empty_size :
  (Strconv.ParseInt "").2 = Some Strconv.ErrSyntax ∧
  newTreeNode emptySize =
    Ok {| ID := 1; ObjID := oidZero; TimeStamp := 1; Size := 0; Meta := ∅ |}.
Proof. by vm_compute. Qed.

Definition badSize : NodeBody :=
  {| GetNodeId := 1; GetParentId := 0; GetTimestamp := 1;
     GetMeta := [{| GetKey := "FileName"; GetValue := "a" |};
                 {| GetKey := "Size"; GetValue := "12x" |}] |}.

Lemma newTreeNode_rejects_witness :
  {| GetKey := "Size"; GetValue := "12x" |} ∈ GetMeta badSize ∧
  undecodable {| GetKey := "Size"; GetValue := "12x" |} ∧
  ∃ err, newTreeNode badSize = Err err.
Proof.
  assert ({| GetKey := "Size"; GetValue := "12x" |} ∈ GetMeta badSize) as Hin
    by (apply list_elem_of_further, list_elem_of_here).
  assert (undecodable (H := decimalSDK) {| GetKey := "Size"; GetValue := "12x" |}) as Hbad
    by (right; by vm_compute).
  exact (conj Hin (conj Hbad (newTreeNode_rejects badSize _ Hin Hbad))).
Defined.

End NewTreeNodeExamples.

(** ** Listing the versions at a path *)
Section GetVersions.
Import Neofs.
Context `{SDK} `{LayerErrors} {S : Type} `{TreeServiceClient S}.

Definition versionsRequest (treeID filepath : string) : GetNodeByPathRequest :=
  {| GetNodeByPath_TreeId := treeID;
     GetNodeByPath_Path := pathFromName filepath;
     GetNodeByPath_Attributes := [oidKV; isUnversionedKV; isDeleteMarkerKV; etagKV; sizeKV];
     GetNodeByPath_PathAttribute := fileNameKV;
     GetNodeByPath_LatestOnly := false;
     GetNodeByPath_AllAttributes := false |}.

(** C9. When the service answers the path lookup with a "not found" error,
    [getVersions] (and with it [GetVersions]) returns the empty list and
    no error.  The client tests the text of the sentinel it has put in
    place of the transport error: the sentinel's text holds "not found". *)
Theorem getVersions_not_found (treeID filepath : string) (onlyUnversioned : bool)
    (s s' : S) (err : error) :
  Strings.Contains errNodeNotFoundText "not found" = true →
  service_GetNodeByPath (versionsRequest treeID filepath) s = (Err err, s') →
  Strings.Contains (Error err) "not found" = true →
  getVersions None treeID filepath onlyUnversioned s = (Returns (Ok []), s').
Proof.
  intros Htext Hresp Herr.
  unfold getVersions, getNodes, bind, call, ret, notFound.
  fold (versionsRequest treeID filepath). rewrite Hresp, Herr. simpl.
  by rewrite Htext.
Qed.

End GetVersions.

Lemma getVersions_not_found_witness :
  Strings.Contains errNodeNotFoundText "not found" = true ∧
  Neofs.service_GetNodeByPath (versionsRequest Neofs.versionTree "a/b") (∅ : Forest.Forest)
    = (Err Forest.treeNotFound, ∅) ∧
  Strings.Contains (Error Forest.treeNotFound) "not found" = true ∧
  Neofs.GetVersions None "a/b" (∅ : Forest.Forest) = (Returns (Ok []), ∅).
Proof.
  assert (Strings.Contains errNodeNotFoundText "not found" = true) as Htext by reflexivity.
  assert (Neofs.service_GetNodeByPath (versionsRequest Neofs.versionTree "a/b") (∅ : Forest.Forest)
          = (Err Forest.treeNotFound, ∅)) as Hresp by reflexivity.
  assert (Strings.Contains (Error Forest.treeNotFound) "not found" = true) as Herr by reflexivity.
  exact (conj Htext (conj Hresp (conj Herr
    (getVersions_not_found Neofs.versionTree "a/b" false ∅ ∅ _ Htext Hresp Herr)))).
Defined.

(** ** Listing object versions: cursor and pagination *)
Section Listing.
Import Layer.
Context `{SDK} `{Sort.Slicer}.
Variable commonPrefix : string → option string.
Variable allocates : Z → bool.

(** The test of the cursor loop. *)
Definition qualifies (p : ListObjectVersionsParams) (h : heap) (obj : ptr) : bool :=
  Strings.ge (name h obj) (KeyMarker p) && Strings.ge (version h obj) (VersionIDMarker p).

(** When the loop breaks, it has cut [allObjects] at the first position
    that qualifies. *)
Lemma advance_cut p h allObjects suffix :
  advance p h allObjects = Some suffix ↔
  ∃ skipped obj rest,
    allObjects = skipped ++ obj :: rest ∧ suffix = obj :: rest ∧
    qualifies p h obj = true ∧ Forall (λ o, qualifies p h o = false) skipped.
Proof.
  induction allObjects as [| o l IH]; simpl.
  - split; [done |]. intros (skipped & obj & rest & Heq & _). by destruct skipped.
  - fold (qualifies p h o). destruct (qualifies p h o) eqn:Hq.
    + split.
      * intros [= <-]. exists [], o, l. by repeat split.
      * intros (skipped & obj & rest & Heq & -> & Hobj & Hskipped).
        destruct skipped as [| o' skipped]; simpl in Heq.
        -- by injection Heq as -> ->.
        -- injection Heq as -> ->. inversion Hskipped; congruence.
    + rewrite IH. split.
      * intros (skipped & obj & rest & -> & -> & Hobj & Hskipped).
        exists (o :: skipped), obj, rest. repeat split; [done |]. by constructor.
      * intros (skipped & obj & rest & Heq & -> & Hobj & Hskipped).
        destruct skipped as [| o' skipped]; simpl in Heq.
        -- injection Heq as -> ->. congruence.
        -- injection Heq as -> ->. inversion Hskipped; subst.
           exists skipped, obj, rest. by repeat split.
Qed.

Lemma advance_none p h allObjects :
  advance p h allObjects = None ↔ Forall (λ o, qualifies p h o = false) allObjects.
Proof.
  induction allObjects as [| o l IH]; simpl; [by split |].
  fold (qualifies p h o). destruct (qualifies p h o) eqn:Hq.
  - split; [done |]. inversion 1; congruence.
  - rewrite IH. split; [by constructor | by inversion 1].
Qed.

(** C2, where the code departs from it. When no position qualifies, the
    cursor loop runs to its end without cutting, and the whole list stays:
    the result is not empty unless the list was. *)
Theorem cursor_no_position_qualifies p h allObjects :
  Forall (λ o, qualifies p h o = false) allObjects →
  cursor p h allObjects = allObjects.
Proof. intros Hnone. unfold cursor. apply advance_none in Hnone. by rewrite Hnone. Qed.

(** The part of C2 the code meets: from the first position that qualifies
    on, everything is kept. *)
Lemma cursor_first_position p h skipped obj rest :
  Forall (λ o, qualifies p h o = false) skipped → qualifies p h obj = true →
  cursor p h (skipped ++ obj :: rest) = obj :: rest.
Proof.
  intros Hskipped Hobj. unfold cursor.
  assert (advance p h (skipped ++ obj :: rest) = Some (obj :: rest)) as ->; [| done].
  apply advance_cut. by exists skipped, obj, rest.
Qed.

(** The entries of a result are [objects], the live versions and the delete
    markers apart. *)
Definition listed (res : ListObjectVersionsInfo) (objects : list ObjectVersionInfo) : Prop :=
  Version res = filter (λ v, Data.IsDeleteMarker (Object v) = false) objects ∧
  DeleteMarker res = filter (λ v, Data.IsDeleteMarker (Object v) = true) objects.

(** The entry [e] of a result shows the version [obj] as the heap holds
    it: its object info, whether it is unversioned, and its latest flag. *)
Definition shows (h : heap) (e : ObjectVersionInfo) (obj : ptr) : Prop :=
  Object e = Data.EOI_ObjectInfo (h obj) ∧
  IsUnversioned e = Data.IsUnversioned (Data.EOI_NodeVersion (h obj)) ∧
  IsLatest e = Data.IsLatest (h obj).

Lemma toObjectVersionInfo_shows h page :
  Forall2 (shows h) (toObjectVersionInfo h <$> page) page.
Proof. induction page as [| obj page IH]; simpl; by constructor. Qed.

Lemma triageVersions_filter objects :
  triageVersions objects =
    (filter (λ v, Data.IsDeleteMarker (Object v) = false) objects,
     filter (λ v, Data.IsDeleteMarker (Object v) = true) objects).
Proof. by destruct objects. Qed.

(** The slice of capacity [MaxKeys] is allocated only for a capacity from
    0 to [maxAlloc / ptrSize], which is 2^45. *)
Lemma makeslice_Returns cap :
  makeslice allocates cap = Returns () → (0 ≤ cap ≤ 2 ^ 45)%Z.
Proof.
  unfold makeslice, maxAlloc, ptrSize.
  destruct (cap <? 0)%Z eqn:Hneg; [done |].
  destruct (2 ^ 48 <? 8 * cap)%Z eqn:Hbig; [done |].
  apply Z.ltb_ge in Hneg, Hbig. intros _.
  change (2 ^ 48)%Z with (8 * 2 ^ 45)%Z in Hbig. lia.
Qed.

Lemma makeslice_cap_out_of_range cap :
  (cap < 0 ∨ 2 ^ 45 < cap)%Z → makeslice allocates cap = Panics "makeslice: cap out of range".
Proof.
  intros Hcap. unfold makeslice, maxAlloc, ptrSize.
  destruct (cap <? 0)%Z eqn:Hneg; [done |].
  destruct (2 ^ 48 <? 8 * cap)%Z eqn:Hbig; [done |].
  apply Z.ltb_ge in Hneg, Hbig. change (2 ^ 48)%Z with (8 * 2 ^ 45)%Z in Hbig. lia.
Qed.

(** [ListObjectVersions] in terms of its pagination step, once the slice
    is allocated. *)
Lemma ListObjectVersions_paginate p versions h :
  makeslice allocates (MaxKeys p) = Returns () →
  ListObjectVersions commonPrefix allocates p (Ok versions) h =
    let h' := (flatten versions h).1 in
    match paginate p h' (remaining commonPrefix p versions h) with
    | Panics reason => Panics reason
    | Returns (truncated, next, echoed, page) =>
        Returns (Ok {|
          CommonPrefixes :=
            (triageExtendedObjects commonPrefix h' (cursor p h' (flatten versions h).2)).1;
          IsTruncated := truncated;
          Res_KeyMarker := echoed.1;
          NextKeyMarker := next.1;
          NextVersionIDMarker := next.2;
          Res_VersionIDMarker := echoed.2;
          DeleteMarker := filter (λ v, Data.IsDeleteMarker (Object v) = true)
                            (toObjectVersionInfo h' <$> page);
          Version := filter (λ v, Data.IsDeleteMarker (Object v) = false)
                       (toObjectVersionInfo h' <$> page) |})
    end.
Proof.
  intros Hmake. unfold ListObjectVersions, remaining. rewrite Hmake.
  destruct (flatten versions h) as [h' allObjects]. cbn [fst snd].
  destruct (triageExtendedObjects commonPrefix h' (cursor p h' allObjects)) as [prefixes flat].
  cbn [fst snd]. destruct (paginate p h' flat) as [[[[truncated next] echoed] page] | reason].
  - by rewrite triageVersions_filter.
  - done.
Qed.

(** Where the slice is not allocated the call ends there. *)
Lemma ListObjectVersions_makeslice p collected h reason :
  makeslice allocates (MaxKeys p) = Panics reason →
  ListObjectVersions commonPrefix allocates p collected h = Panics reason.
Proof. intros Hmake. unfold ListObjectVersions. by rewrite Hmake. Qed.

Lemma index_lookup {A} (s : list A) (i : Z) : (0 ≤ i)%Z → index s i = s !! Z.to_nat i.
Proof. intros Hi. unfold index. destruct (i <? 0)%Z eqn:Hneg; [apply Z.ltb_lt in Hneg; lia | done]. Qed.

(** The pagination step when the list is longer than [MaxKeys]. *)
Lemma paginate_truncates p h allObjects :
  (1 ≤ MaxKeys p)%Z → (MaxKeys p < Z.of_nat (length allObjects))%Z →
  ∃ next last,
    allObjects !! Z.to_nat (MaxKeys p) = Some next ∧
    allObjects !! (Z.to_nat (MaxKeys p) - 1)%nat = Some last ∧
    paginate p h allObjects =
      Returns (true, (name h next, version h next), (name h last, version h last),
               take (Z.to_nat (MaxKeys p)) allObjects).
Proof.
  intros Hmax Hlen. unfold paginate.
  apply Z.ltb_lt in Hlen as Hlt. rewrite Hlt. apply Z.ltb_lt in Hlt.
  rewrite !index_lookup by lia.
  destruct (lookup_lt_is_Some_2 allObjects (Z.to_nat (MaxKeys p))) as [next Hnext]; [lia |].
  destruct (lookup_lt_is_Some_2 allObjects (Z.to_nat (MaxKeys p) - 1)) as [last Hlast]; [lia |].
  exists next, last. rewrite Hnext. repeat split; [done |].
  replace (Z.to_nat (MaxKeys p - 1)) with (Z.to_nat (MaxKeys p) - 1)%nat by lia.
  rewrite lookup_take_lt by lia. by rewrite Hlast.
Qed.

Lemma paginate_whole p h allObjects :
  (Z.of_nat (length allObjects) ≤ MaxKeys p)%Z →
  paginate p h allObjects = Returns (false, ("", ""), ("", ""), allObjects).
Proof.
  intros Hlen. unfold paginate.
  destruct (MaxKeys p <? Z.of_nat (length allObjects))%Z eqn:Hlt; [| done].
  apply Z.ltb_lt in Hlt. lia.
Qed.

(** What C4 says of a truncated result: [flat] is the list left by the
    cursor and the delimiter collapse, [h'] the heap the entries are read
    from. *)
Definition truncatedAt (p : ListObjectVersionsParams) (h' : heap) (flat : list ptr)
    (res : ListObjectVersionsInfo) : Prop :=
  ∃ next last entries,
    flat !! Z.to_nat (MaxKeys p) = Some next ∧
    flat !! (Z.to_nat (MaxKeys p) - 1)%nat = Some last ∧
    IsTruncated res = true ∧
    NextKeyMarker res = Data.Name (Data.EOI_ObjectInfo (h' next)) ∧
    NextVersionIDMarker res = Data.Version (Data.EOI_ObjectInfo (h' next)) ∧
    Res_KeyMarker res = Data.Name (Data.EOI_ObjectInfo (h' last)) ∧
    Res_VersionIDMarker res = Data.Version (Data.EOI_ObjectInfo (h' last)) ∧
    listed res entries ∧
    Forall2 (shows h') entries (take (Z.to_nat (MaxKeys p)) flat).

(** And of a result that is not truncated. *)
Definition whole (h' : heap) (flat : list ptr) (res : ListObjectVersionsInfo) : Prop :=
  ∃ entries,
    IsTruncated res = false ∧
    NextKeyMarker res = "" ∧ NextVersionIDMarker res = "" ∧
    Res_KeyMarker res = "" ∧ Res_VersionIDMarker res = "" ∧
    listed res entries ∧
    Forall2 (shows h') entries flat.

(** C4, amended. Provided the slice of capacity [MaxKeys] is allocated:
    when the list left by the cursor and the delimiter collapse has more
    than [MaxKeys] elements ([MaxKeys >= 1]), the result is truncated, the
    next markers are the name and version of the element at index
    [MaxKeys], the entries show the first [MaxKeys] elements, one by one
    and in their order, and the echoed markers are the name and version of
    the last of them.  When it has at most [MaxKeys] elements, none of
    these fields is set and the entries show all of the list. *)
Theorem ListObjectVersions_pagination p versions h :
  makeslice allocates (MaxKeys p) = Returns () →
  let h' := (flatten versions h).1 in
  let flat := remaining commonPrefix p versions h in
  ((1 ≤ MaxKeys p)%Z → (MaxKeys p < Z.of_nat (length flat))%Z →
   ∃ res, ListObjectVersions commonPrefix allocates p (Ok versions) h = Returns (Ok res) ∧
          truncatedAt p h' flat res) ∧
  ((Z.of_nat (length flat) ≤ MaxKeys p)%Z →
   ∃ res, ListObjectVersions commonPrefix allocates p (Ok versions) h = Returns (Ok res) ∧
          whole h' flat res).
Proof.
  intros Hmake h' flat. split.
  - intros Hmax Hlen.
    destruct (paginate_truncates p h' flat Hmax Hlen) as (next & last & Hnext & Hlast & Hpage).
    rewrite ListObjectVersions_paginate by done. simpl. fold h' flat. rewrite Hpage.
    eexists. split; [done |]. exists next, last, (toObjectVersionInfo h' <$> take (Z.to_nat (MaxKeys p)) flat).
    do 8 (split; [done |]). apply toObjectVersionInfo_shows.
  - intros Hlen. rewrite ListObjectVersions_paginate by done. simpl. fold h' flat.
    rewrite (paginate_whole p h' flat Hlen).
    eexists. split; [done |]. exists (toObjectVersionInfo h' <$> flat).
    do 6 (split; [done |]). apply toObjectVersionInfo_shows.
Qed.

(** C10, amended. With [MaxKeys >= 1] every index of the pagination step
    is in bounds, and [ListObjectVersions] returns exactly when the slice
    of capacity [MaxKeys] is allocated: it is not beyond 2^45 pointers.
    With [MaxKeys = 0] and an object left after the cursor and the
    delimiter collapse, the read of the next marker at index [MaxKeys] is
    in bounds, and the read of the echoed marker at index [MaxKeys-1] of
    the truncated, empty list is not: the call panics. *)
Theorem ListObjectVersions_MaxKeys p collected h :
  ((1 ≤ MaxKeys p)%Z →
   (∀ h' allObjects, ∃ page, paginate p h' allObjects = Returns page) ∧
   (makeslice allocates (MaxKeys p) = Returns () →
    ∃ res, ListObjectVersions commonPrefix allocates p collected h = Returns res) ∧
   (∀ reason, makeslice allocates (MaxKeys p) = Panics reason →
    ListObjectVersions commonPrefix allocates p collected h = Panics reason) ∧
   ((2 ^ 45 < MaxKeys p)%Z →
    ListObjectVersions commonPrefix allocates p collected h
      = Panics "makeslice: cap out of range")) ∧
  (MaxKeys p = 0%Z →
   ∀ versions, collected = Ok versions → remaining commonPrefix p versions h ≠ [] →
   let flat := remaining commonPrefix p versions h in
   is_Some (index flat (MaxKeys p)) ∧
   take (Z.to_nat (MaxKeys p)) flat = [] ∧
   index (take (Z.to_nat (MaxKeys p)) flat) (MaxKeys p - 1) = None ∧
   ListObjectVersions commonPrefix allocates p collected h = Panics "index out of range").
Proof.
  assert (∀ h' allObjects, (1 ≤ MaxKeys p)%Z → ∃ page, paginate p h' allObjects = Returns page)
    as Hpaginate.
  { intros h' allObjects Hmax.
    destruct (decide (MaxKeys p < Z.of_nat (length allObjects))%Z) as [Hlen | Hlen].
    - destruct (paginate_truncates p h' allObjects Hmax Hlen) as (? & ? & _ & _ & ->). eauto.
    - rewrite paginate_whole by lia. eauto. }
  split.
  - intros Hmax. split; [by eauto |]. split; [| split].
    + intros Hmake. destruct collected as [versions | err].
      * rewrite ListObjectVersions_paginate by done. simpl.
        destruct (Hpaginate (flatten versions h).1 (remaining commonPrefix p versions h) Hmax)
          as [[[[truncated next] echoed] page] ->]. eauto.
      * unfold ListObjectVersions. rewrite Hmake. eauto.
    + intros reason. apply ListObjectVersions_makeslice.
    + intros Hbig. apply ListObjectVersions_makeslice, makeslice_cap_out_of_range. by right.
  - intros Hzero versions -> Hleft flat.
    assert (makeslice allocates (MaxKeys p) = Returns ()) as Hmake by (by rewrite Hzero).
    rewrite ListObjectVersions_paginate by done. simpl. subst flat.
    destruct (remaining commonPrefix p versions h) as [| obj rest]; [done |].
    unfold paginate. rewrite Hzero. simpl. by repeat split; eauto.
Qed.

End Listing.

(** ** Sorting *)
Section Sorting.
Context {A : Type}.

Lemma insert_Permutation (less : A → A → bool) x l : Sort.insert less x l ≡ₚ x :: l.
Proof.
  induction l as [| y l IH]; simpl; [done |].
  destruct (less x y); [done |]. rewrite IH. apply Permutation_swap.
Qed.

Lemma insertionSort_Permutation (less : A → A → bool) l : Sort.insertionSort less l ≡ₚ l.
Proof.
  unfold Sort.insertionSort.
  assert (∀ acc, foldl (λ acc x, Sort.insert less x acc) acc l ≡ₚ acc ++ l) as Hfold.
  { induction l as [| x l IH]; intros acc; simpl; [by rewrite app_nil_r |].
    rewrite IH, insert_Permutation. by rewrite <- Permutation_middle. }
  apply Hfold.
Qed.

Lemma insertionSort_ext (less less' : A → A → bool) l :
  (∀ x y, less x y = less' x y) → Sort.insertionSort less l = Sort.insertionSort less' l.
Proof.
  intros Hext. unfold Sort.insertionSort.
  assert (∀ x acc, Sort.insert less x acc = Sort.insert less' x acc) as Hinsert.
  { intros x acc. induction acc as [| y acc IH]; simpl; [done |]. by rewrite Hext, IH. }
  generalize (@nil A). induction l as [| x l IH]; intros acc; simpl; [done |].
  by rewrite Hinsert, IH.
Qed.

Lemma insert_ordered (less : A → A → bool) x l :
  Sort.strictWeakOrdering less → Sort.ordered less l → Sort.ordered less (Sort.insert less x l).
Proof.
  intros (Hirrefl & Htrans & _). unfold Sort.ordered.
  assert (∀ a b, less a b = true → less b a = false) as Hasym.
  { intros a b Hab. destruct (less b a) eqn:Hba; [| done].
    pose proof (Htrans a b a Hab Hba) as Haa. by rewrite Hirrefl in Haa. }
  induction l as [| y l IH]; intros Hsorted; simpl.
  - by repeat constructor.
  - apply StronglySorted_inv in Hsorted as [Hsorted Hy].
    destruct (less x y) eqn:Hxy.
    + constructor; [by constructor |]. constructor; [by apply Hasym |].
      eapply Forall_impl; [exact Hy |]. simpl. intros z Hzy.
      destruct (less z x) eqn:Hzx; [| done]. by rewrite (Htrans z x y Hzx Hxy) in Hzy.
    + constructor; [by apply IH |].
      rewrite insert_Permutation. by constructor.
Qed.

Lemma insertionSort_ordered (less : A → A → bool) l :
  Sort.strictWeakOrdering less → Sort.ordered less (Sort.insertionSort less l).
Proof.
  intros Hless. unfold Sort.insertionSort.
  assert (∀ acc, Sort.ordered less acc →
                 Sort.ordered less (foldl (λ acc x, Sort.insert less x acc) acc l)) as Hfold.
  { induction l as [| x l IH]; intros acc Hacc; simpl; [done |].
    by apply IH, insert_ordered. }
  apply Hfold. constructor.
Qed.

(** Where [less] decides between any two different elements, there is one
    ordered arrangement only: every sort gives it. *)
Lemma ordered_unique `{!EqDecision A} (less : A → A → bool) (l1 l2 : list A) :
  (∀ x y, x ∈ l1 → y ∈ l1 → x ≠ y → less x y = true ∨ less y x = true) →
  l1 ≡ₚ l2 → Sort.ordered less l1 → Sort.ordered less l2 → l1 = l2.
Proof.
  unfold Sort.ordered. revert l2.
  induction l1 as [| x l1 IH]; intros l2 Htotal Hperm Hs1 Hs2.
  - by apply Permutation_nil_l in Hperm.
  - destruct l2 as [| y l2]; [by apply Permutation_nil_r in Hperm |].
    apply StronglySorted_inv in Hs1 as [Hs1 Hx], Hs2 as [Hs2 Hy].
    assert (x = y) as <-.
    { destruct (decide (x = y)) as [Heq | Hne]; [done |]. exfalso.
      assert (x ∈ l2) as Hx2.
      { assert (x ∈ y :: l2) as Hin by (rewrite <- Hperm; by left).
        by apply elem_of_cons in Hin as [? | ?]. }
      assert (y ∈ l1) as Hy1.
      { assert (y ∈ x :: l1) as Hin by (rewrite Hperm; by left).
        apply elem_of_cons in Hin as [? | ?]; [by subst | done]. }
      rewrite Forall_forall in Hx, Hy.
      destruct (Htotal x y) as [Hlt | Hlt]; [by left | by right | done | |].
      - by rewrite (Hy x Hx2) in Hlt.
      - by rewrite (Hx y Hy1) in Hlt. }
    f_equal. apply IH; [| by apply Permutation_cons_inv in Hperm | done | done].
    intros a b Ha Hb. apply Htotal; by right.
Qed.

End Sorting.

(** The insertion sort keeps the promise of [sort.Slice]. *)
Definition insertionSlicer : Sort.Slicer :=
  {| Sort.Slice := @Sort.insertionSort;
     Sort.Slice_permutes := @insertionSort_Permutation;
     Sort.Slice_orders := @insertionSort_ordered;
     Sort.Slice_respects := @insertionSort_ext |}.

Section Slicing.
Context `{Sort.Slicer} {A : Type}.

(** Sorting newest first puts a newest element in front. *)
Definition newestFirst (key : A → N) (l : list A) : Prop :=
  match l with
  | [] => True
  | x :: _ => ∀ y, y ∈ l → (key y ≤ key x)%N
  end.

Lemma newest_strictWeakOrdering (key : A → N) :
  Sort.strictWeakOrdering (λ i j, (key j <? key i)%N).
Proof.
  split; [| split].
  - intros x. apply N.ltb_irrefl.
  - intros x y z Hxy%N.ltb_lt Hyz%N.ltb_lt. apply N.ltb_lt. lia.
  - intros x y z Hxz%N.ltb_lt. rewrite !N.ltb_lt. lia.
Qed.

Lemma Slice_newestFirst (key : A → N) l :
  newestFirst key (Sort.Slice (λ i j, (key j <? key i)%N) l).
Proof.
  pose proof (Sort.Slice_orders _ l (newest_strictWeakOrdering key)) as Hsorted.
  unfold Sort.ordered in Hsorted.
  destruct (Sort.Slice _ l) as [| x l']; [done |]. simpl.
  apply StronglySorted_inv in Hsorted as [_ Hx]. rewrite Forall_forall in Hx.
  intros y [-> | Hy]%elem_of_cons; [lia |].
  specialize (Hx y Hy). simpl in Hx. apply N.ltb_ge in Hx. lia.
Qed.

(** On a slice in which [less] decides between any two different
    elements, every sort gives what the insertion sort gives. *)
Lemma Slice_insertionSort `{!EqDecision A} (less : A → A → bool) l :
  Sort.strictWeakOrdering less →
  (∀ x y, x ∈ l → y ∈ l → x ≠ y → less x y = true ∨ less y x = true) →
  Sort.Slice less l = Sort.insertionSort less l.
Proof.
  intros Hless Htotal. apply (ordered_unique less).
  - intros x y Hx Hy. rewrite Sort.Slice_permutes in Hx, Hy. by apply Htotal.
  - by rewrite Sort.Slice_permutes, insertionSort_Permutation.
  - by apply Sort.Slice_orders.
  - by apply insertionSort_ordered.
Qed.

End Slicing.

Lemma elem_of_concat {A} (x : A) (ls : list (list A)) :
  x ∈ concat ls ↔ ∃ l, l ∈ ls ∧ x ∈ l.
Proof.
  induction ls as [| l0 ls IH]; simpl.
  - split; [by intros ?%elem_of_nil | by intros (? & ?%elem_of_nil & _)].
  - rewrite elem_of_app, IH. split.
    + intros [Hx | (l & Hl & Hx)]; [exists l0 | exists l]; split; try done; by constructor.
    + intros (l & [-> | Hl]%elem_of_cons & Hx); [by left | right; eauto].
Qed.

(** ** Listing object versions: the latest flag *)
Section Latest.
Import Layer.
Context `{SDK} `{Sort.Slicer}.

(** Two heaps that differ in [IsLatest] at most. *)
Definition sameButLatest (h h' : heap) : Prop :=
  ∀ q, Data.EOI_ObjectInfo (h' q) = Data.EOI_ObjectInfo (h q) ∧
       Data.EOI_NodeVersion (h' q) = Data.EOI_NodeVersion (h q).

Lemma sameButLatest_refl h : sameButLatest h h.
Proof. done. Qed.

Lemma sameButLatest_trans h1 h2 h3 :
  sameButLatest h1 h2 → sameButLatest h2 h3 → sameButLatest h1 h3.
Proof. intros H12 H23 q. destruct (H12 q), (H23 q). split; congruence. Qed.

Lemma sameButLatest_store h v b : sameButLatest h (store h v (setIsLatest (h v) b)).
Proof. intros q. unfold store. by destruct (decide (q = v)) as [-> |]. Qed.

Lemma sameButLatest_name h h' q : sameButLatest h h' → name h' q = name h q.
Proof. intros Hsame. unfold name. by destruct (Hsame q) as [-> _]. Qed.

Lemma sameButLatest_version h h' q : sameButLatest h h' → version h' q = version h q.
Proof. intros Hsame. unfold version. by destruct (Hsame q) as [-> _]. Qed.

Lemma sameButLatest_timestamp h h' q : sameButLatest h h' → timestamp h' q = timestamp h q.
Proof. intros Hsame. unfold timestamp. by destruct (Hsame q) as [_ ->]. Qed.

Lemma markVersions_same l : ∀ i h, sameButLatest h (markVersions i l h).
Proof.
  induction l as [| v l IH]; intros i h; simpl; [done |].
  eapply sameButLatest_trans; [apply sameButLatest_store | apply IH].
Qed.

Lemma markVersions_untouched l : ∀ i h q, q ∉ l → markVersions i l h q = h q.
Proof.
  induction l as [| v l IH]; intros i h q Hq; simpl; [done |].
  apply not_elem_of_cons in Hq as [Hne Hq]. rewrite IH by done.
  unfold store. by rewrite decide_False.
Qed.

Lemma markVersions_later l : ∀ i h q,
  (0 < i)%nat → q ∈ l → Data.IsLatest (markVersions i l h q) = false.
Proof.
  induction l as [| v l IH]; intros i h q Hi Hq; [by apply elem_of_nil in Hq |]. simpl.
  destruct (decide (q ∈ l)) as [Hin | Hnotin]; [apply IH; [lia | done] |].
  apply elem_of_cons in Hq as [-> | Hq]; [| done].
  rewrite markVersions_untouched by done. unfold store. rewrite decide_True by done.
  simpl. destruct i; [lia | done].
Qed.

(** After the inner loop the first version of the name is the latest and
    no other is. *)
Lemma markVersions_latest l h q :
  NoDup l → q ∈ l → Data.IsLatest (markVersions 0 l h q) = bool_decide (head l = Some q).
Proof.
  intros Hdup Hq. destruct l as [| v l]; [by apply elem_of_nil in Hq |].
  apply NoDup_cons in Hdup as [Hv Hdup]. simpl.
  destruct (decide (q = v)) as [-> | Hne].
  - rewrite markVersions_untouched by done. unfold store. rewrite decide_True by done.
    by rewrite bool_decide_eq_true_2.
  - apply elem_of_cons in Hq as [-> | Hq]; [done |].
    rewrite markVersions_later by (done || lia).
    symmetry. apply bool_decide_eq_false_2. congruence.
Qed.

(** The versions of one name, newest first. *)
Definition group (h : heap) (versions : gmap string (list ptr)) (n : string) : list ptr :=
  Sort.Slice (λ i j, (timestamp h j <? timestamp h i)%N) (default [] (versions !! n)).

Lemma group_same h h' versions n : sameButLatest h h' → group h' versions n = group h versions n.
Proof.
  intros Hsame. unfold group. apply Sort.Slice_respects. intros x y.
  by rewrite !(sameButLatest_timestamp h h').
Qed.

Lemma elem_of_group h versions n q :
  q ∈ group h versions n ↔ ∃ ps, versions !! n = Some ps ∧ q ∈ ps.
Proof.
  unfold group. rewrite Sort.Slice_permutes. destruct (versions !! n) as [ps |]; simpl.
  - split; [eauto |]. by intros (? & [= <-] & ?).
  - split; [by intros ?%elem_of_nil | by intros (? & [=] & _)].
Qed.

Lemma collect_objects versions names : ∀ h acc,
  (collect versions names h acc).2 = acc ++ concat (group h versions <$> names).
Proof.
  induction names as [| n names IH]; intros h acc; simpl; [by rewrite app_nil_r |].
  rewrite IH. fold (group h versions n). rewrite <- app_assoc. do 3 f_equal.
  apply list_fmap_ext. intros _ n' _. apply group_same, markVersions_same.
Qed.

Lemma collect_same versions names : ∀ h acc, sameButLatest h (collect versions names h acc).1.
Proof.
  induction names as [| n names IH]; intros h acc; simpl; [done |].
  eapply sameButLatest_trans; [apply markVersions_same | apply IH].
Qed.

Lemma collect_untouched versions names : ∀ h acc q,
  (∀ n, n ∈ names → q ∉ group h versions n) → (collect versions names h acc).1 q = h q.
Proof.
  induction names as [| n names IH]; intros h acc q Hq; simpl; [done |].
  fold (group h versions n). rewrite IH.
  - apply markVersions_untouched, Hq. by left.
  - intros n' Hn'. rewrite (group_same h) by apply markVersions_same. apply Hq. by right.
Qed.

(** What the collect step hands over: every version is filed under its own
    name, and no pointer is filed twice. *)
Definition keyed (h : heap) (versions : gmap string (list ptr)) : Prop :=
  ∀ n ps q, versions !! n = Some ps → q ∈ ps → name h q = n.

Definition distinct (versions : gmap string (list ptr)) : Prop :=
  ∀ n ps, versions !! n = Some ps → NoDup ps.

Lemma group_name h versions n q : keyed h versions → q ∈ group h versions n → name h q = n.
Proof. intros Hkeyed (ps & Hps & Hq)%elem_of_group. by eapply Hkeyed. Qed.

Lemma group_NoDup h versions n : distinct versions → NoDup (group h versions n).
Proof.
  intros Hdistinct. unfold group. rewrite Sort.Slice_permutes.
  destruct (versions !! n) as [ps |] eqn:Hps; simpl; [by eapply Hdistinct | constructor].
Qed.

Lemma keyed_same h h' versions : sameButLatest h h' → keyed h versions → keyed h' versions.
Proof.
  intros Hsame Hkeyed n ps q Hps Hq. rewrite (sameButLatest_name h h') by done. by eapply Hkeyed.
Qed.

Lemma collect_latest versions names : ∀ h acc n q,
  keyed h versions → distinct versions → NoDup names →
  n ∈ names → q ∈ group h versions n →
  Data.IsLatest ((collect versions names h acc).1 q)
    = bool_decide (head (group h versions n) = Some q).
Proof.
  induction names as [| n0 names IH]; intros h acc n q Hkeyed Hdistinct Hnames Hn Hq;
    [by apply elem_of_nil in Hn |].
  apply NoDup_cons in Hnames as [Hn0 Hnames]. simpl. fold (group h versions n0).
  pose proof (markVersions_same (group h versions n0) 0 h) as Hsame.
  apply elem_of_cons in Hn as [-> | Hn].
  - rewrite collect_untouched.
    + by apply markVersions_latest; [apply group_NoDup |].
    + intros n' Hn' Hq'. rewrite (group_same h) in Hq' by done.
      apply (group_name _ _ _ _ Hkeyed) in Hq, Hq'. congruence.
  - rewrite <- (group_same h _ versions n Hsame) in Hq |- *.
    apply IH; eauto using keyed_same.
Qed.

Lemma concat_groups_NoDup h versions names :
  keyed h versions → distinct versions → NoDup names →
  NoDup (concat (group h versions <$> names)).
Proof.
  intros Hkeyed Hdistinct. induction names as [| n names IH]; intros Hnames; simpl;
    [constructor |].
  apply NoDup_cons in Hnames as [Hn Hnames]. apply NoDup_app. split; [by apply group_NoDup |].
  split; [| by apply IH]. intros q Hq (l & Hl & Hql)%elem_of_concat.
  apply list_elem_of_fmap in Hl as (n' & -> & Hn').
  apply (group_name _ _ _ _ Hkeyed) in Hq, Hql. congruence.
Qed.

Definition sortedNames (versions : gmap string (list ptr)) : list string :=
  Sort.Strings (map_to_list versions).*1.

Lemma sortedNames_NoDup versions : NoDup (sortedNames versions).
Proof. unfold sortedNames, Sort.Strings. rewrite insertionSort_Permutation. apply NoDup_fst_map_to_list. Qed.

Lemma elem_of_sortedNames versions n : n ∈ sortedNames versions ↔ is_Some (versions !! n).
Proof.
  unfold sortedNames, Sort.Strings. rewrite insertionSort_Permutation, list_elem_of_fmap. split.
  - intros ([n' ps] & -> & Hin). apply elem_of_map_to_list in Hin. by exists ps.
  - intros [ps Hps]. exists (n, ps). split; [done |]. by apply elem_of_map_to_list.
Qed.

(** The list and the heap after the loop over the sorted names. *)
Lemma flatten_spec versions h :
  keyed h versions → distinct versions →
  (flatten versions h).2 = concat (group h versions <$> sortedNames versions) ∧
  NoDup (flatten versions h).2 ∧
  sameButLatest h (flatten versions h).1 ∧
  ∀ q, q ∈ (flatten versions h).2 →
    q ∈ group h versions (name h q) ∧
    Data.IsLatest ((flatten versions h).1 q)
      = bool_decide (head (group h versions (name h q)) = Some q).
Proof.
  intros Hkeyed Hdistinct. unfold flatten. fold (sortedNames versions).
  rewrite collect_objects. simpl. split; [done |].
  split; [apply concat_groups_NoDup; auto using sortedNames_NoDup |].
  split; [apply collect_same |].
  intros q (l & Hl & Hq)%elem_of_concat.
  apply list_elem_of_fmap in Hl as (n & -> & Hn).
  rewrite (group_name _ _ _ _ Hkeyed Hq). split; [done |].
  apply collect_latest; auto using sortedNames_NoDup.
Qed.

End Latest.

Section LatestFlag.
Import Layer.
Context `{SDK} `{Sort.Slicer}.
Variable commonPrefix : string → option string.
Variable allocates : Z → bool.

Lemma cursor_sublist p h allObjects : cursor p h allObjects `sublist_of` allObjects.
Proof.
  unfold cursor. destruct (advance p h allObjects) as [suffix |] eqn:Hadvance; simpl; [| done].
  apply advance_cut in Hadvance as (skipped & obj & rest & -> & -> & _).
  by apply sublist_inserts_l.
Qed.

Lemma ge_empty s : Strings.ge s "" = true.
Proof. by destruct s. Qed.

Lemma cursor_no_markers p h allObjects :
  KeyMarker p = "" → VersionIDMarker p = "" → cursor p h allObjects = allObjects.
Proof.
  intros Hkey Hversion. unfold cursor. destruct allObjects as [| obj rest]; [done |].
  simpl. by rewrite Hkey, Hversion, !ge_empty.
Qed.

(** With [MaxKeys >= 1] the page is what [take] cuts off the list. *)
Lemma paginate_page p h allObjects :
  (1 ≤ MaxKeys p)%Z →
  ∃ truncated next echoed,
    paginate p h allObjects =
      Returns (truncated, next, echoed, take (Z.to_nat (MaxKeys p)) allObjects).
Proof.
  intros Hmax.
  destruct (decide (MaxKeys p < Z.of_nat (length allObjects))%Z) as [Hlen | Hlen].
  - destruct (paginate_truncates p h allObjects Hmax Hlen) as (? & ? & _ & _ & ->). eauto.
  - rewrite paginate_whole, take_ge by lia. eauto.
Qed.

Lemma filter_at_most_one {A} (P : A → Prop) `{!∀ x, Decision (P x)} (l : list A) :
  NoDup l → (∀ x y, x ∈ l → y ∈ l → P x → P y → x = y) → (length (filter P l) ≤ 1)%nat.
Proof.
  intros Hdup Hsame.
  assert (NoDup (filter P l)) as Hdup' by (by apply (sublist_NoDup _ l); [| apply sublist_filter]).
  destruct (filter P l) as [| x [| y l']] eqn:Hfilter; simpl; [lia | lia |].
  assert (x ∈ filter P l ∧ y ∈ filter P l) as [Hx Hy].
  { rewrite Hfilter. split; [by left | right; by left]. }
  apply list_elem_of_filter in Hx as [HPx Hx], Hy as [HPy Hy].
  assert (x = y) as -> by eauto.
  apply NoDup_cons in Hdup' as [Hnotin _]. destruct Hnotin. by left.
Qed.

(** In a list without repetition, a page that reaches an element reaches
    what stands before it and is kept too. *)
Lemma take_filter_reaches {A} (P : A → Prop) `{!∀ x, Decision (P x)} (l1 l2 : list A) x0 x k :
  NoDup (l1 ++ x0 :: l2) → x ∈ x0 :: l2 → P x0 →
  x ∈ take k (filter P (l1 ++ x0 :: l2)) → x0 ∈ take k (filter P (l1 ++ x0 :: l2)).
Proof.
  intros Hdup Hx HP0. rewrite filter_app, filter_cons_True by done.
  rewrite !elem_of_take. intros (i & Hi & Hik).
  exists (length (filter P l1)). split; [by apply list_lookup_middle |].
  destruct (decide (i < length (filter P l1))%nat) as [Hlt | Hge]; [| lia].
  rewrite lookup_app_l in Hi by done.
  apply list_elem_of_lookup_2, list_elem_of_filter in Hi as [_ Hin].
  apply NoDup_app in Hdup as (_ & Hdisjoint & _). by destruct (Hdisjoint x Hin).
Qed.

(** What the cursor keeps is the end of the list. *)
Lemma cursor_suffix p h allObjects : ∃ skipped, allObjects = skipped ++ cursor p h allObjects.
Proof.
  unfold cursor. destruct (advance p h allObjects) as [suffix |] eqn:Hadvance; simpl.
  - apply advance_cut in Hadvance as (skipped & obj & rest & -> & -> & _). by exists skipped.
  - by exists [].
Qed.

(** In a list without repetition, the first element of a sublist has
    nothing of the sublist before it. *)
Lemma sublist_first {A} (l l1 l2 rest : list A) (f x : A) :
  NoDup l → f :: rest `sublist_of` l → x ∈ f :: rest → l = l1 ++ x :: l2 → f ∉ l2.
Proof.
  intros Hdup Hsub Hx Hl Hf.
  apply sublist_cons_l in Hsub as (k1 & k2 & Hk & Hrest).
  assert (x ∈ f :: k2) as Hx'.
  { apply elem_of_cons in Hx as [-> | Hx]; [by left |]. right. by eapply elem_of_sublist. }
  rewrite Hk in Hl. rewrite Hk in Hdup.
  apply NoDup_app in Hdup as (_ & Hdisjoint & Hdup2).
  apply NoDup_cons in Hdup2 as [Hfk2 _].
  apply app_eq_inv in Hl as [(k & -> & Hk2) | (k & -> & Hk2)].
  - destruct k as [| y k]; simpl in Hk2.
    + injection Hk2 as -> ->. done.
    + injection Hk2 as <- ->.
      apply (Hdisjoint x); [| done]. rewrite elem_of_app. right. by left.
  - destruct k as [| y k]; simpl in Hk2.
    + injection Hk2 as -> ->. done.
    + injection Hk2 as <- ->. apply Hfk2. rewrite elem_of_app. right. by right.
Qed.

Lemma length_filter_partition {A} (P Q1 Q2 : A → Prop)
    `{!∀ x, Decision (P x)} `{!∀ x, Decision (Q1 x)} `{!∀ x, Decision (Q2 x)} (l : list A) :
  (∀ x, Q2 x ↔ ¬ Q1 x) →
  length (filter P (filter Q1 l ++ filter Q2 l)) = length (filter P l).
Proof.
  intros Hsplit. rewrite filter_app, length_app.
  induction l as [| x l IH]; [done |].
  rewrite !(filter_cons _ x). destruct (decide (Q1 x)) as [HQ | HQ].
  - rewrite (decide_False (P:=Q2 x)) by (rewrite Hsplit; tauto). rewrite !(filter_cons _ x).
    destruct (decide (P x)); simpl; lia.
  - rewrite (decide_True (P:=Q2 x)) by (by rewrite Hsplit). rewrite !(filter_cons _ x).
    destruct (decide (P x)); simpl; lia.
Qed.

Lemma filter_fmap {A B} (f : A → B) (P : B → Prop) `{!∀ y, Decision (P y)} (l : list A) :
  filter P (f <$> l) = f <$> filter (λ x, P (f x)) l.
Proof.
  induction l as [| x l IH]; [done |].
  rewrite fmap_cons, !filter_cons, IH. by destruct (decide (P (f x))).
Qed.

(** A page that reaches a version of a group reaches the first of the
    group too, unless the cursor cut the list inside the group: then the
    page begins with a later version of that group. *)
Lemma take_filter_reach {A} (P : A → Prop) `{!∀ x, Decision (P x)}
    (skipped suffix pre g post : list A) (q0 q : A) (k : nat) :
  NoDup (skipped ++ suffix) → skipped ++ suffix = pre ++ q0 :: (g ++ post) →
  (∀ x, x ∈ q0 :: g → P x) → q ∈ q0 :: g → q ∈ take k (filter P suffix) →
  q0 ∈ take k (filter P suffix) ∨ ∃ f rest, take k (filter P suffix) = f :: rest ∧ f ∈ g.
Proof.
  intros Hdup Hsplit HP Hq Hpage.
  assert (q ∈ suffix) as Hsuffix.
  { apply (elem_of_sublist _ _ _ Hpage). etrans; [apply sublist_take | apply sublist_filter]. }
  assert (P q0) as HP0 by (apply HP; by left).
  assert (q ∈ q0 :: (g ++ post)) as Hq'.
  { apply elem_of_cons in Hq as [-> | Hq]; [by left |]. right. rewrite elem_of_app. by left. }
  assert (NoDup suffix) as Hdup' by (by apply NoDup_app in Hdup as (_ & _ & ?)).
  assert (∀ x, x ∈ q0 :: g → x ∉ post) as Hpost.
  { rewrite Hsplit in Hdup. apply NoDup_app in Hdup as (_ & _ & Hdup).
    change (q0 :: g ++ post) with ((q0 :: g) ++ post) in Hdup.
    by apply NoDup_app in Hdup as (_ & ? & _). }
  apply app_eq_inv in Hsplit as [(cut & -> & Hcut) | (cut & -> & ->)].
  - destruct cut as [| c cut]; simpl in Hcut.
    + left. subst suffix. by apply (take_filter_reaches P [] (g ++ post) q0 q k).
    + injection Hcut as <- Hcut. right.
      apply app_eq_inv in Hcut as [(kept & -> & ->) | (kept & -> & ->)].
      * destruct kept as [| f kept].
        -- destruct (Hpost q Hq). by simpl in Hsuffix.
        -- assert (f ∈ cut ++ f :: kept) as Hf by (rewrite elem_of_app; right; by left).
           simpl in Hpage. rewrite filter_cons_True in Hpage by (apply HP; by right).
           destruct k as [| k]; [by apply elem_of_nil in Hpage |].
           exists f. eexists. split; [| done].
           simpl. rewrite filter_cons_True by (apply HP; by right). done.
      * destruct (Hpost q Hq). rewrite elem_of_app. by right.
  - left. by apply (take_filter_reaches P cut (g ++ post) q0 q k).
Qed.

(** The group of a version in the flattened list. *)
Lemma flatten_group versions h q :
  keyed h versions → distinct versions → q ∈ (flatten versions h).2 →
  ∃ pre q0 g post,
    (flatten versions h).2 = pre ++ q0 :: (g ++ post) ∧
    group h versions (name h q) = q0 :: g ∧ q ∈ q0 :: g.
Proof.
  intros Hkeyed Hdistinct Hq.
  destruct (flatten_spec versions h Hkeyed Hdistinct) as (Hall & _ & _ & Hlatest).
  destruct (Hlatest q Hq) as [Hgroup _].
  destruct (group h versions (name h q)) as [| q0 g] eqn:Hg; [by apply elem_of_nil in Hgroup |].
  assert (name h q ∈ sortedNames versions) as Hn.
  { apply elem_of_sortedNames. rewrite <- Hg in Hgroup.
    apply elem_of_group in Hgroup as (ps & -> & _). eauto. }
  apply list_elem_of_split in Hn as (names1 & names2 & Hnames).
  exists (concat (group h versions <$> names1)), q0, g, (concat (group h versions <$> names2)).
  split; [| done].
  rewrite Hall, Hnames, fmap_app, fmap_cons, concat_app. simpl. by rewrite Hg.
Qed.

(** The versions of a page with the name [n] that carry the latest flag. *)
Definition flagged (h' : heap) (n : string) (page : list ptr) : list ptr :=
  filter (λ q, name h' q = n ∧ Data.IsLatest (h' q) = true) page.

Lemma flagged_one h' n page q :
  q ∈ page → name h' q = n → Data.IsLatest (h' q) = true → (1 ≤ length (flagged h' n page))%nat.
Proof.
  intros Hq Hn Hlatest.
  assert (q ∈ flagged h' n page) as Hin by (by apply list_elem_of_filter).
  destruct (flagged h' n page); [by apply elem_of_nil in Hin | simpl; lia].
Qed.

(** The latest flags on the page of a listing. *)
Lemma page_flags p versions h :
  keyed h versions → distinct versions →
  let h' := (flatten versions h).1 in
  let page := take (Z.to_nat (MaxKeys p)) (remaining commonPrefix p versions h) in
  (∀ q, q ∈ page → ∃ ps, versions !! name h q = Some ps ∧ q ∈ ps) ∧
  (∀ n, (length (flagged h' n page) ≤ 1)%nat) ∧
  (∀ q ps q', q ∈ page → Data.IsLatest (h' q) = true →
     versions !! name h q = Some ps → q' ∈ ps → (timestamp h q' ≤ timestamp h q)%N) ∧
  (∀ f rest, page = f :: rest →
     length (flagged h' (name h f) page) = (if Data.IsLatest (h' f) then 1 else 0)%nat ∧
     ∀ q, q ∈ rest → name h q ≠ name h f → length (flagged h' (name h q) page) = 1%nat) ∧
  (KeyMarker p = "" → VersionIDMarker p = "" →
     ∀ q, q ∈ page → length (flagged h' (name h q) page) = 1%nat).
Proof.
  intros Hkeyed Hdistinct h' page.
  destruct (flatten_spec versions h Hkeyed Hdistinct) as (Hall & Hdup & Hsame & Hlatest).
  fold h' in Hsame, Hlatest.
  set (all := (flatten versions h).2) in *.
  set (P := λ q, commonPrefix (name h' q) = None).
  assert (remaining commonPrefix p versions h = filter P (cursor p h' all)) as Hflat.
  { unfold remaining, h', all, P. by destruct (flatten versions h). }
  assert (page = take (Z.to_nat (MaxKeys p)) (filter P (cursor p h' all))) as Hpage
    by (unfold page; by rewrite Hflat).
  clearbody page. clear Hflat.
  assert (page `sublist_of` all) as Hsub.
  { rewrite Hpage. etrans; [apply sublist_take |].
    etrans; [apply sublist_filter | apply cursor_sublist]. }
  assert (∀ q, q ∈ page → q ∈ all) as Hin by (intros q Hq; by eapply elem_of_sublist).
  assert (∀ q, q ∈ page → P q) as Hkept.
  { intros q Hq. rewrite Hpage in Hq.
    pose proof (elem_of_sublist _ _ _ Hq (sublist_take _ _)) as Hq'.
    by apply list_elem_of_filter in Hq' as [? _]. }
  assert (∀ q, q ∈ page → Data.IsLatest (h' q) = true →
               head (group h versions (name h q)) = Some q) as Hhead.
  { intros q Hq Hq'. destruct (Hlatest q (Hin q Hq)) as [_ Heq].
    rewrite Hq' in Heq. symmetry in Heq. by apply bool_decide_eq_true in Heq. }
  assert (∀ n, (length (flagged h' n page) ≤ 1)%nat) as Hmost.
  { intros n. apply filter_at_most_one; [by apply (sublist_NoDup _ all) |].
    intros x y Hx Hy [Hnx Hlx] [Hny Hly].
    apply Hhead in Hlx, Hly; [| done | done].
    rewrite (sameButLatest_name h h') in Hnx, Hny by done. congruence. }
  (* the first of the group of a version on the page *)
  assert (∀ q pre q0 g post, all = pre ++ q0 :: (g ++ post) →
            group h versions (name h q) = q0 :: g → q ∈ q0 :: g →
            name h' q0 = name h q ∧ Data.IsLatest (h' q0) = true ∧
            ∀ x, x ∈ q0 :: g → name h x = name h q) as Hfirst.
  { intros q pre q0 g post Hsplit Hg Hq.
    assert (∀ x, x ∈ q0 :: g → name h x = name h q) as Hnames.
    { intros x Hx. apply (group_name h versions); [done |]. by rewrite Hg. }
    assert (name h q0 = name h q) as Hname by (apply Hnames; by left).
    split; [by rewrite (sameButLatest_name h h') |]. split; [| done].
    destruct (Hlatest q0) as [_ ->]; [rewrite Hsplit, elem_of_app; right; by left |].
    rewrite Hname, Hg. by apply bool_decide_eq_true_2. }
  split; [| split; [done | split; [| split]]].
  - intros q Hq. destruct (Hlatest q (Hin q Hq)) as [Hgroup _].
    by apply elem_of_group in Hgroup.
  - intros q ps q' Hq Hq' Hps Hq'in.
    pose proof (Slice_newestFirst (timestamp h) (default [] (versions !! name h q))) as Hnewest.
    fold (group h versions (name h q)) in Hnewest.
    apply Hhead in Hq'; [| done].
    destruct (group h versions (name h q)) as [| q0 g] eqn:Hgroup; [done |].
    injection Hq' as ->. apply Hnewest. rewrite <- Hgroup. apply elem_of_group. eauto.
  - intros f rest Hfrest. split.
    + destruct (Data.IsLatest (h' f)) eqn:Hf.
      * apply Nat.le_antisymm; [done |].
        apply (flagged_one h' _ page f); [rewrite Hfrest; by left | | done].
        by rewrite (sameButLatest_name h h').
      * apply length_zero_iff_nil.
        destruct (flagged h' (name h f) page) as [| x l] eqn:Hflagged; [done |]. exfalso.
        assert (x ∈ flagged h' (name h f) page) as Hx by (rewrite Hflagged; by left).
        apply list_elem_of_filter in Hx as [[Hname Hx] Hxpage].
        rewrite (sameButLatest_name h h') in Hname by done.
        assert (f ∈ page) as Hfpage by (rewrite Hfrest; by left).
        destruct (flatten_group versions h f Hkeyed Hdistinct (Hin f Hfpage))
          as (pre & q0 & g & post & Hsplit & Hg & Hfg).
        fold all in Hsplit.
        apply Hhead in Hx; [| done]. rewrite Hname, Hg in Hx. injection Hx as ->.
        assert (f ∈ g) as Hfg'.
        { apply elem_of_cons in Hfg as [-> | ?]; [| done].
          destruct (Hlatest x (Hin x Hxpage)) as [_ Heq].
          rewrite Hf, Hg in Heq. symmetry in Heq. by apply bool_decide_eq_false in Heq. }
        rewrite Hfrest in Hsub, Hxpage.
        apply (sublist_first all pre (g ++ post) rest f x Hdup Hsub Hxpage Hsplit).
        rewrite elem_of_app. by left.
    + intros q Hq Hne. apply Nat.le_antisymm; [done |].
      assert (q ∈ page) as Hqpage by (rewrite Hfrest; by right).
      destruct (flatten_group versions h q Hkeyed Hdistinct (Hin q Hqpage))
        as (pre & q0 & g & post & Hsplit & Hg & Hqg).
      fold all in Hsplit.
      destruct (Hfirst q pre q0 g post Hsplit Hg Hqg) as (Hname0 & Hlatest0 & Hnames).
      destruct (cursor_suffix p h' all) as [skipped Hskipped].
      assert (q0 ∈ page ∨ ∃ f' rest', page = f' :: rest' ∧ f' ∈ g) as [Hq0 | Hcut].
      { rewrite Hpage.
        apply (take_filter_reach P skipped (cursor p h' all) pre g post q0 q).
        - by rewrite <- Hskipped.
        - by rewrite <- Hskipped.
        - intros x Hx. unfold P. rewrite (sameButLatest_name h h') by done.
          rewrite (Hnames x Hx). specialize (Hkept q Hqpage). unfold P in Hkept.
          by rewrite (sameButLatest_name h h') in Hkept.
        - done.
        - by rewrite <- Hpage. }
      * by apply (flagged_one h' _ page q0).
      * destruct Hcut as (f' & rest' & Hpage' & Hf').
        rewrite Hfrest in Hpage'. injection Hpage' as <- <-.
        destruct Hne. symmetry. apply Hnames. by right.
  - intros Hkey Hversion q Hq. apply Nat.le_antisymm; [done |].
    rewrite (cursor_no_markers p h' all Hkey Hversion) in Hpage.
    destruct (flatten_group versions h q Hkeyed Hdistinct (Hin q Hq))
      as (pre & q0 & g & post & Hsplit & Hg & Hqg).
    fold all in Hsplit.
    destruct (Hfirst q pre q0 g post Hsplit Hg Hqg) as (Hname0 & Hlatest0 & Hnames).
    apply (flagged_one h' _ page q0); [| done | done].
    rewrite Hpage, Hsplit. rewrite Hpage, Hsplit in Hq. rewrite Hsplit in Hdup.
    eapply take_filter_reaches; [done | | | done].
    + apply elem_of_cons in Hqg as [-> | Hqg]; [by left |].
      right. apply elem_of_app. by left.
    + unfold P. rewrite Hname0. specialize (Hkept q). unfold P in Hkept.
      rewrite <- (sameButLatest_name h h') by done. apply Hkept.
      by rewrite Hpage, Hsplit.
Qed.

(** The entries of a result with the name [n] that are flagged as the
    latest. *)
Definition latestOf (n : string) (entries : list ObjectVersionInfo) : list ObjectVersionInfo :=
  filter (λ e, Data.Name (Object e) = n ∧ IsLatest e = true) entries.

(** The entry [e] stands for the version [q] of the heap the collect step
    handed over. *)
Definition standsFor (h : heap) (e : ObjectVersionInfo) (q : ptr) : Prop :=
  Object e = Data.EOI_ObjectInfo (h q) ∧
  IsUnversioned e = Data.IsUnversioned (Data.EOI_NodeVersion (h q)).

Lemma latestOf_flagged (res : ListObjectVersionsInfo) h' page n :
  listed res (toObjectVersionInfo h' <$> page) →
  length (latestOf n (Version res ++ DeleteMarker res)) = length (flagged h' n page).
Proof.
  intros [-> ->]. unfold latestOf.
  rewrite length_filter_partition.
  - rewrite filter_fmap, length_fmap. done.
  - intros e. destruct (Data.IsDeleteMarker (Object e)); split; congruence.
Qed.

(** C3, amended. Given what the collect step hands over (every version
    under its own name, no pointer twice), [MaxKeys >= 1] and the slice of
    capacity [MaxKeys] allocated, [ListObjectVersions] returns a result
    whose entries stand, one by one and in their order, for collected
    versions, and in which: within each name at most one entry has
    [IsLatest = true]; an entry with the flag stands for a newest of all
    the versions collected under its name; the name of the first entry has
    one flagged entry when the first entry carries the flag and none when
    it does not (the page then begins inside the versions of that name,
    behind the latest); every other name has exactly one; and with
    [KeyMarker] and [VersionIDMarker] empty every name has exactly one. *)
Theorem ListObjectVersions_latest p versions h :
  keyed h versions → distinct versions → (1 ≤ MaxKeys p)%Z →
  makeslice allocates (MaxKeys p) = Returns () →
  ∃ res entries page,
    ListObjectVersions commonPrefix allocates p (Ok versions) h = Returns (Ok res) ∧
    listed res entries ∧
    Forall2 (standsFor h) entries page ∧
    (∀ n, (length (latestOf n (Version res ++ DeleteMarker res)) ≤ 1)%nat) ∧
    (∀ i e q, entries !! i = Some e → page !! i = Some q →
       ∃ ps, versions !! Data.Name (Object e) = Some ps ∧ q ∈ ps ∧
         (IsLatest e = true → ∀ q', q' ∈ ps →
            (Data.Timestamp (Data.Base (Data.EOI_NodeVersion (h q')))
             ≤ Data.Timestamp (Data.Base (Data.EOI_NodeVersion (h q))))%N)) ∧
    (∀ first rest, entries = first :: rest →
       length (latestOf (Data.Name (Object first)) (Version res ++ DeleteMarker res))
         = (if IsLatest first then 1 else 0)%nat ∧
       ∀ e, e ∈ rest → Data.Name (Object e) ≠ Data.Name (Object first) →
            length (latestOf (Data.Name (Object e)) (Version res ++ DeleteMarker res)) = 1%nat) ∧
    (KeyMarker p = "" → VersionIDMarker p = "" →
       ∀ e, e ∈ entries →
            length (latestOf (Data.Name (Object e)) (Version res ++ DeleteMarker res)) = 1%nat).
Proof.
  intros Hkeyed Hdistinct Hmax Hmake.
  destruct (page_flags p versions h Hkeyed Hdistinct)
    as (Hfiled & Hmost & Hnewest & Hbegin & Hnomarkers).
  destruct (flatten_spec versions h Hkeyed Hdistinct) as (_ & _ & Hsame & _).
  set (h' := (flatten versions h).1) in *.
  set (flat := remaining commonPrefix p versions h) in *.
  set (page := take (Z.to_nat (MaxKeys p)) flat) in *.
  destruct (paginate_page p h' flat Hmax) as (truncated & next & echoed & Hpaginate).
  rewrite (ListObjectVersions_paginate commonPrefix allocates p versions h Hmake).
  simpl. fold h' flat. rewrite Hpaginate. fold page.
  set (res := {| CommonPrefixes := _ |}).
  assert (listed res (toObjectVersionInfo h' <$> page)) as Hlisted by done.
  assert (∀ q, Data.Name (Object (toObjectVersionInfo h' q)) = name h q) as Hname.
  { intros q. rewrite <- (sameButLatest_name h h') by done. done. }
  exists res, (toObjectVersionInfo h' <$> page), page.
  split; [done |]. split; [done |]. split; [| split; [| split; [| split]]].
  - apply Forall2_fmap_l, Forall_Forall2_diag, Forall_forall. intros q _.
    destruct (Hsame q) as [Hobject Hversion]. split; simpl; congruence.
  - intros n. by rewrite (latestOf_flagged res h' page).
  - intros i e q He Hq. rewrite list_lookup_fmap, Hq in He. injection He as <-.
    rewrite Hname. apply list_elem_of_lookup_2 in Hq.
    destruct (Hfiled q Hq) as (ps & Hps & Hin). exists ps. split; [done |]. split; [done |].
    intros Hflag q' Hq'. by apply (Hnewest q ps q').
  - intros first rest Hentries.
    destruct page as [| f page'] eqn:Hpage; [done |].
    rewrite fmap_cons in Hentries. injection Hentries as <- <-.
    destruct (Hbegin f page' eq_refl) as [Hfirst Hrest].
    rewrite !Hname. rewrite !(latestOf_flagged res h' (f :: page')) by done.
    split; [done |].
    intros e (q & -> & Hq)%list_elem_of_fmap. rewrite Hname.
    rewrite (latestOf_flagged res h' (f :: page')) by done. by apply Hrest.
  - intros Hkey Hversion e (q & -> & Hq)%list_elem_of_fmap. rewrite Hname.
    rewrite (latestOf_flagged res h' page) by done. by apply Hnomarkers.
Qed.

End LatestFlag.
(** ** Listing object versions: every sort lists the same where no two
    versions of a name have the same timestamp *)
Section AnySort.
Import Layer.
Context `{SDK} (S : Sort.Slicer).

Definition tieFree (h : heap) (versions : gmap string (list ptr)) : Prop :=
  ∀ n ps x y, versions !! n = Some ps → x ∈ ps → y ∈ ps → x ≠ y →
              timestamp h x ≠ timestamp h y.

Lemma collect_any_sort versions names : ∀ h acc,
  tieFree h versions →
  collect (H0 := S) versions names h acc = collect (H0 := insertionSlicer) versions names h acc.
Proof.
  induction names as [| n names IH]; intros h acc Hfree; [done |].
  cbn [collect].
  assert (Sort.Slice (Slicer := S) (λ i j, (timestamp h j <? timestamp h i)%N)
            (default [] (versions !! n))
          = Sort.Slice (Slicer := insertionSlicer) (λ i j, (timestamp h j <? timestamp h i)%N)
              (default [] (versions !! n))) as ->.
  { apply (Slice_insertionSort (H := S)); [apply newest_strictWeakOrdering |].
    intros x y Hx Hy Hne. destruct (versions !! n) as [ps |] eqn:Hps; [| by apply elem_of_nil in Hx].
    specialize (Hfree n ps x y Hps Hx Hy Hne). rewrite !N.ltb_lt. simpl in *. lia. }
  apply IH. intros n' ps x y Hps Hx Hy Hne.
  pose proof (markVersions_same
    (Sort.Slice (Slicer := insertionSlicer) (λ i j, (timestamp h j <? timestamp h i)%N)
       (default [] (versions !! n))) 0 h) as Hsame.
  rewrite (sameButLatest_timestamp h _ x Hsame), (sameButLatest_timestamp h _ y Hsame).
  by eapply Hfree.
Qed.

Lemma ListObjectVersions_any_sort commonPrefix allocates p versions h :
  tieFree h versions →
  ListObjectVersions (H0 := S) commonPrefix allocates p (Ok versions) h
    = ListObjectVersions (H0 := insertionSlicer) commonPrefix allocates p (Ok versions) h.
Proof.
  intros Hfree. unfold ListObjectVersions, flatten. by rewrite collect_any_sort.
Qed.

End AnySort.


(** ** Listing object versions: a bucket with three versions *)
Section ListingExamples.
Import Layer.
#[local] Existing Instance insertionSlicer.

Definition object (n v : string) (ts : N) : Data.ExtendedObjectInfo :=
  {| Data.EOI_ObjectInfo := {| Data.Name := n; Data.Version := v; Data.IsDeleteMarker := false |};
     Data.EOI_NodeVersion :=
       {| Data.Base := {| Data.ID := 0; Data.OID := oidZero; Data.Timestamp := ts;
                          Data.Size := 0; Data.ETag := ""; Data.FilePath := n |};
          Data.DeleteMarker := None; Data.IsUnversioned := false |};
     Data.IsLatest := false |}.

(** Key [a] with versions [v1] (newer) and [v2], key [b] with [v3]. *)
Definition threeObjects : heap :=
  λ q, match q with
       | 0 => object "a" "v1" 200
       | 1 => object "a" "v2" 100
       | 2 => object "b" "v3" 50
       | _ => object "" "" 0
       end%nat.

Definition threeVersions : gmap string (list ptr) :=
  <["a" := [1; 0]%nat]> (<["b" := [2%nat]]> ∅).

(** No delimiter: nothing collapses into a common prefix. *)
Definition noDelimiter (key : string) : option string := None.

(** A machine with memory to spare: every slice the run time accepts is
    allocated. *)
Definition roomy (cap : Z) : bool := true.

Definition request (keyMarker versionIDMarker : string) (maxKeys : Z) : ListObjectVersionsParams :=
  {| Delimiter := ""; KeyMarker := keyMarker; MaxKeys := maxKeys; Prefix := "";
     VersionIDMarker := versionIDMarker |}.

Definition entry (n v : string) (latest : bool) : ObjectVersionInfo :=
  {| Object := {| Data.Name := n; Data.Version := v; Data.IsDeleteMarker := false |};
     IsUnversioned := false; IsLatest := latest |}.

Lemma threeVersions_keyed : keyed threeObjects threeVersions.
Proof.
  intros n ps q Hps Hq. unfold threeVersions in Hps.
  apply lookup_insert_Some in Hps as [[<- <-] | [_ Hps]].
  - repeat (apply elem_of_cons in Hq as [-> | Hq]; [done |]). by apply elem_of_nil in Hq.
  - apply lookup_insert_Some in Hps as [[<- <-] | [_ Hps]]; [| done].
    repeat (apply elem_of_cons in Hq as [-> | Hq]; [done |]). by apply elem_of_nil in Hq.
Qed.

Lemma threeVersions_distinct : distinct threeVersions.
Proof.
  intros n ps Hps. unfold threeVersions in Hps.
  apply lookup_insert_Some in Hps as [[<- <-] | [_ Hps]].
  - apply (bool_decide_unpack _). by vm_compute.
  - apply lookup_insert_Some in Hps as [[<- <-] | [_ Hps]]; [| done].
    apply (bool_decide_unpack _). by vm_compute.
Qed.

(** A cursor beyond every key: every version is listed all the same. *)
Lemma cursor_no_position_qualifies_witness :
  Forall (λ o, qualifies (request "c" "" 10) threeObjects o = false) [0; 1; 2]%nat ∧
  cursor (request "c" "" 10) threeObjects [0; 1; 2]%nat = [0; 1; 2]%nat.
Proof.
  assert (Forall (λ o, qualifies (request "c" "" 10) threeObjects o = false) [0; 1; 2]%nat)
    as Hnone by (by repeat constructor).
  exact (conj Hnone (cursor_no_position_qualifies _ _ _ Hnone)).
Defined.

Example listing_beyond_every_key :
  ListObjectVersions noDelimiter roomy (request "c" "" 10) (Ok threeVersions) threeObjects =
    Returns (Ok {| CommonPrefixes := []; IsTruncated := false;
                   Res_KeyMarker := ""; NextKeyMarker := ""; NextVersionIDMarker := "";
                   Res_VersionIDMarker := ""; DeleteMarker := [];
                   Version := [entry "a" "v1" true; entry "a" "v2" false; entry "b" "v3" true] |}).
Proof. by vm_compute. Qed.

(** C3, as stated, fails: with the markers at the older version of [a], the
    result lists [a] without any entry that is the latest. *)
Lemma listing_from_older_version :
  ∃ res,
    ListObjectVersions noDelimiter roomy (request "a" "v2" 10) (Ok threeVersions) threeObjects
      = Returns (Ok res) ∧
    Version res ++ DeleteMarker res = [entry "a" "v2" false; entry "b" "v3" true] ∧
    filter (λ v, Data.Name (Object v) = "a" ∧ IsLatest v = true) (Version res ++ DeleteMarker res)
      = [].
Proof. eexists. split; [by vm_compute |]. split; by vm_compute. Qed.

(** A page that begins at another name lists every name with its latest
    entry, markers or not. *)
Example listing_from_the_next_name :
  ListObjectVersions noDelimiter roomy (request "b" "" 10) (Ok threeVersions) threeObjects =
    Returns (Ok {| CommonPrefixes := []; IsTruncated := false;
                   Res_KeyMarker := ""; NextKeyMarker := ""; NextVersionIDMarker := "";
                   Res_VersionIDMarker := ""; DeleteMarker := [];
                   Version := [entry "b" "v3" true] |}).
Proof. by vm_compute. Qed.

Lemma ListObjectVersions_latest_witness :
  keyed threeObjects threeVersions ∧ distinct threeVersions ∧
  (1 ≤ MaxKeys (request "a" "v2" 2))%Z ∧
  makeslice roomy (MaxKeys (request "a" "v2" 2)) = Returns () ∧
  ∃ res entries,
    ListObjectVersions noDelimiter roomy (request "a" "v2" 2) (Ok threeVersions) threeObjects
      = Returns (Ok res) ∧
    listed res entries ∧
    (∀ n, (length (latestOf n (Version res ++ DeleteMarker res)) ≤ 1)%nat) ∧
    (∀ first rest, entries = first :: rest →
       length (latestOf (Data.Name (Object first)) (Version res ++ DeleteMarker res))
         = (if IsLatest first then 1 else 0)%nat ∧
       ∀ e, e ∈ rest → Data.Name (Object e) ≠ Data.Name (Object first) →
            length (latestOf (Data.Name (Object e)) (Version res ++ DeleteMarker res)) = 1%nat).
Proof.
  assert (1 ≤ MaxKeys (request "a" "v2" 2))%Z as Hmax by (by vm_compute).
  assert (makeslice roomy (MaxKeys (request "a" "v2" 2)) = Returns ()) as Hmake by reflexivity.
  destruct (ListObjectVersions_latest noDelimiter roomy (request "a" "v2" 2) threeVersions
              threeObjects threeVersions_keyed threeVersions_distinct Hmax Hmake)
    as (res & entries & page & Hres & Hlisted & _ & Hmost & _ & Hbegin & _).
  exact (conj threeVersions_keyed (conj threeVersions_distinct (conj Hmax (conj Hmake
    (ex_intro _ res (ex_intro _ entries (conj Hres (conj Hlisted (conj Hmost Hbegin))))))))).
Defined.

Lemma ListObjectVersions_pagination_witness :
  makeslice roomy (MaxKeys (request "" "" 2)) = Returns () ∧
  (1 ≤ MaxKeys (request "" "" 2))%Z ∧
  (MaxKeys (request "" "" 2)
     < Z.of_nat (length (remaining noDelimiter (request "" "" 2) threeVersions threeObjects)))%Z ∧
  ∃ res,
    ListObjectVersions noDelimiter roomy (request "" "" 2) (Ok threeVersions) threeObjects
      = Returns (Ok res) ∧
    truncatedAt (request "" "" 2) (flatten threeVersions threeObjects).1
      (remaining noDelimiter (request "" "" 2) threeVersions threeObjects) res.
Proof.
  assert (makeslice roomy (MaxKeys (request "" "" 2)) = Returns ()) as Hmake by reflexivity.
  assert (1 ≤ MaxKeys (request "" "" 2))%Z as Hmax by (by vm_compute).
  assert (MaxKeys (request "" "" 2)
     < Z.of_nat (length (remaining noDelimiter (request "" "" 2) threeVersions threeObjects)))%Z
    as Hlen by (by vm_compute).
  exact (conj Hmake (conj Hmax (conj Hlen
    (proj1 (ListObjectVersions_pagination noDelimiter roomy (request "" "" 2) threeVersions
              threeObjects Hmake) Hmax Hlen)))).
Defined.

Example first_page_of_two :
  ListObjectVersions noDelimiter roomy (request "" "" 2) (Ok threeVersions) threeObjects =
    Returns (Ok {| CommonPrefixes := []; IsTruncated := true;
                   Res_KeyMarker := "a"; NextKeyMarker := "b"; NextVersionIDMarker := "v3";
                   Res_VersionIDMarker := "v2"; DeleteMarker := [];
                   Version := [entry "a" "v1" true; entry "a" "v2" false] |}).
Proof. by vm_compute. Qed.

(** C4, as stated, fails: with [MaxKeys = 2^62] the three versions are at
    most [MaxKeys], and the list is not returned whole: the slice of that
    capacity is refused and the call panics. *)
Lemma listing_whole_beyond_capacity :
  (Z.of_nat (length (remaining noDelimiter (request "" "" (2 ^ 62)) threeVersions threeObjects))
     ≤ MaxKeys (request "" "" (2 ^ 62)))%Z ∧
  ListObjectVersions noDelimiter roomy (request "" "" (2 ^ 62)) (Ok threeVersions) threeObjects
    = Panics "makeslice: cap out of range".
Proof. split; by vm_compute. Qed.

Lemma ListObjectVersions_MaxKeys_witness :
  (1 ≤ MaxKeys (request "" "" 1))%Z ∧
  makeslice roomy (MaxKeys (request "" "" 1)) = Returns () ∧
  (∀ h' allObjects, ∃ page, paginate (request "" "" 1) h' allObjects = Returns page) ∧
  ∃ res, ListObjectVersions noDelimiter roomy (request "" "" 1) (Ok threeVersions) threeObjects
           = Returns res.
Proof.
  assert (1 ≤ MaxKeys (request "" "" 1))%Z as Hmax by (by vm_compute).
  assert (makeslice roomy (MaxKeys (request "" "" 1)) = Returns ()) as Hmake by reflexivity.
  destruct (proj1 (ListObjectVersions_MaxKeys noDelimiter roomy (request "" "" 1)
                     (Ok threeVersions) threeObjects) Hmax) as (Hpaginate & Hreturns & _).
  exact (conj Hmax (conj Hmake (conj Hpaginate (Hreturns Hmake)))).
Defined.

(** C10, as stated, fails: [MaxKeys = 2^62] is at least 1, and the call
    does not return, on an empty bucket and on one with versions alike. *)
Lemma listing_beyond_capacity_panics :
  (1 ≤ MaxKeys (request "" "" (2 ^ 62)))%Z ∧
  ListObjectVersions noDelimiter roomy (request "" "" (2 ^ 62)) (Ok ∅) threeObjects
    = Panics "makeslice: cap out of range" ∧
  ListObjectVersions noDelimiter roomy (request "" "" (2 ^ 62)) (Ok threeVersions) threeObjects
    = Panics "makeslice: cap out of range".
Proof. split; [by vm_compute |]. split; by vm_compute. Qed.

(** The three versions have different timestamps: whatever sort the run
    time brings, the listings are the ones above. *)
Lemma threeVersions_tieFree : tieFree threeObjects threeVersions.
Proof.
  intros n ps x y Hps Hx Hy Hne. unfold threeVersions in Hps.
  apply lookup_insert_Some in Hps as [[<- <-] | [_ Hps]].
  - repeat (apply elem_of_cons in Hx as [-> | Hx]);
      repeat (apply elem_of_cons in Hy as [-> | Hy]);
      try done; by (apply elem_of_nil in Hx || apply elem_of_nil in Hy).
  - apply lookup_insert_Some in Hps as [[<- <-] | [_ Hps]]; [| done].
    repeat (apply elem_of_cons in Hx as [-> | Hx]);
      repeat (apply elem_of_cons in Hy as [-> | Hy]);
      try done; by (apply elem_of_nil in Hx || apply elem_of_nil in Hy).
Qed.

Lemma listing_from_older_version_any_sort (S : Sort.Slicer) :
  ListObjectVersions (H0 := S) noDelimiter roomy (request "a" "v2" 10) (Ok threeVersions)
      threeObjects =
    Returns (Ok {| CommonPrefixes := []; IsTruncated := false;
                   Res_KeyMarker := ""; NextKeyMarker := ""; NextVersionIDMarker := "";
                   Res_VersionIDMarker := ""; DeleteMarker := [];
                   Version := [entry "a" "v2" false; entry "b" "v3" true] |}).
Proof. rewrite ListObjectVersions_any_sort by apply threeVersions_tieFree. by vm_compute. Qed.

Example listing_with_no_keys_panics :
  ListObjectVersions noDelimiter roomy (request "" "" 0) (Ok threeVersions) threeObjects =
    Panics "index out of range".
Proof. by vm_compute. Qed.

End ListingExamples.

(** ** Multipart uploads: adding a part *)
Section AddPart.
Import Neofs.
Context `{SDK} `{LayerErrors} {S : Type} `{TreeServiceClient S}.

(** When the loop of [AddPart] ends, [foundPartID] is zero or the id of a
    child, never the id of the upload itself. *)
Lemma AddPart_loop_found (multipartNodeID : N) (number : Z) (parts : list NodeBody) :
  multipartNodeID ≠ 0%N → (AddPart_loop multipartNodeID number parts).1 ≠ multipartNodeID.
Proof.
  intros Hroot. induction parts as [| part parts IH]; simpl; [done |].
  destruct (GetNodeId part =? multipartNodeID)%N eqn:Hid; [done |].
  destruct (newPartInfo part) as [partInfo | err]; [| done].
  destruct (Data.Part_Number partInfo =? number)%Z; [| done].
  simpl. by apply N.eqb_neq.
Qed.

(** So the test [foundPartID != multipartNodeID] always sends [AddPart] to
    the branch that adds a node: for an upload that is not the root of the
    tree it never moves a part and never returns an old object id. *)
Lemma AddPart_never_moves (multipartNodeID : N) (info : Data.PartInfo) (s s1 : S)
    (parts : list NodeBody) :
  multipartNodeID ≠ 0%N →
  service_GetSubTree {| GetSubTree_TreeId := systemTree; GetSubTree_RootId := multipartNodeID;
                        GetSubTree_Depth := 1 |} s = (Ok (parts, None), s1) →
  AddPart None multipartNodeID info s =
    let (added, s2) := service_Add {| Add_TreeId := systemTree; Add_ParentId := multipartNodeID;
                                      Add_Meta := metaToKV (partMeta info) |} s1 in
    (Returns (oidZero, Some match added with
                            | Ok _ => ErrNoNodeToRemove
                            | Err err => err
                            end), s2).
Proof.
  intros Hroot Hparts. unfold AddPart, getSubTree, addNode, bind, call, ret.
  rewrite Hparts. simpl.
  pose proof (AddPart_loop_found multipartNodeID (Data.Part_Number info) parts Hroot) as Hfound.
  destruct (AddPart_loop multipartNodeID (Data.Part_Number info) parts) as [foundPartID old].
  simpl in Hfound. apply N.eqb_neq in Hfound. rewrite Hfound. simpl.
  by destruct (service_Add _ s1) as [[id | err] s2].
Qed.

End AddPart.

Section AddPartExample.
Import Neofs.

(** An upload (node 1 of the system tree) with no part yet. *)
Definition upload : Forest.Forest :=
  (Forest.Add {| Add_TreeId := systemTree; Add_ParentId := 0;
                 Add_Meta := [{| GetKey := "FileName"; GetValue := "k" |};
                              {| GetKey := "UploadId"; GetValue := "u" |}] |} ∅).2.

Definition part (number : Z) (objID : N) : Data.PartInfo :=
  {| Data.Part_Key := "k"; Data.Part_UploadID := "u"; Data.Part_Number := number;
     Data.Part_OID := objID; Data.Part_Size := 5%Z; Data.Part_ETag := "e";
     Data.Part_Created := 1000%Z |}.

Definition listedPart (number : Z) (objID : N) : Data.PartInfo :=
  {| Data.Part_Key := ""; Data.Part_UploadID := ""; Data.Part_Number := number;
     Data.Part_OID := objID; Data.Part_Size := 5%Z; Data.Part_ETag := "e";
     Data.Part_Created := 1000%Z |}.

(** C1, where the code departs from it. Part 1 is added with object 7 and
    then with object 9: the second call answers like the first, with the
    zero id and [ErrNoNodeToRemove], and the upload is left with two
    children whose [Number] is 1. *)
Theorem AddPart_twice_leaves_two_parts :
  let first := AddPart None 1 (part 1 7) upload in
  let second := AddPart None 1 (part 1 9) first.2 in
  first.1 = Returns (0%N, Some ErrNoNodeToRemove) ∧
  second.1 = Returns (0%N, Some ErrNoNodeToRemove) ∧
  (GetParts None 1 second.2).1 = Returns (Ok [listedPart 1 7; listedPart 1 9]).
Proof. by vm_compute. Qed.

End AddPartExample.

(** ** The tree service in memory: paths *)
Section ForestPaths.
Import Neofs Forest.

Lemma attr_metaToKV (meta : gmap string string) (key : string) :
  attr key (metaToKV meta) = meta !! key.
Proof.
  unfold metaToKV. rewrite <- (list_to_map_to_list meta) at 2.
  induction (map_to_list meta) as [| [k v] l IH]; simpl; [done |].
  destruct (decide (k = key)) as [-> | Hne].
  - by rewrite lookup_insert_eq.
  - by rewrite lookup_insert_ne.
Qed.

Lemma keys_metaToKV (meta : gmap string string) : NoDup (GetKey <$> metaToKV meta).
Proof.
  unfold metaToKV. rewrite <- list_fmap_compose.
  apply (NoDup_fst_map_to_list meta).
Qed.

Lemma elem_of_metaToKV (meta : gmap string string) kv :
  kv ∈ metaToKV meta → meta !! GetKey kv = Some (GetValue kv).
Proof.
  unfold metaToKV. intros ([k v] & -> & Hin)%list_elem_of_fmap.
  by apply elem_of_map_to_list in Hin.
Qed.

Section Children.
Variable a : string.

Lemma children_app ns1 ns2 parent name :
  children a (ns1 ++ ns2) parent name = children a ns1 parent name ++ children a ns2 parent name.
Proof. apply filter_app. Qed.

Lemma elem_of_children ns parent name n :
  n ∈ children a ns parent name ↔
  GetParentId n = parent ∧ attr a (GetMeta n) = Some name ∧ n ∈ ns.
Proof. unfold children. rewrite list_elem_of_filter. tauto. Qed.

(** A path that resolves keeps resolving, and to the same node, when nodes
    are added. *)
Lemma resolve_app ns1 ns2 path : ∀ parent found,
  resolve a ns1 parent path = Some found → resolve a (ns1 ++ ns2) parent path = Some found.
Proof.
  induction path as [| seg path IH]; intros parent found; simpl; [done |].
  rewrite children_app. destruct (children a ns1 parent seg) as [| child rest]; [done |].
  apply IH.
Qed.

(** No node of a well-formed tree hangs below an id that is not in use yet. *)
Lemma children_fresh t parent name :
  wellFormed t → (nextId t ≤ parent)%N → children a (nodes t) parent name = [].
Proof.
  intros (_ & _ & Hbound) Hparent. unfold children.
  induction Hbound as [| n ns [_ Hn] _ IH]; [done |].
  rewrite filter_cons_False; [done |]. intros [Heq _]. lia.
Qed.

Lemma addTo_wellFormed t parent meta :
  wellFormed t → (parent < nextId t)%N → wellFormed (addTo t parent meta).1.
Proof.
  intros (Hnext & Hdup & Hbound) Hparent. unfold wellFormed. simpl. split; [lia |]. split.
  - rewrite fmap_app. apply NoDup_app. split; [done |]. split; [| apply NoDup_singleton].
    intros id Hid Hnew. apply list_elem_of_singleton in Hnew. simpl in Hnew.
    apply list_elem_of_fmap in Hid as (n & Heq & Hn).
    rewrite Forall_forall in Hbound. destruct (Hbound n Hn) as [[? ?] ?]. lia.
  - apply Forall_app. split.
    + eapply Forall_impl; [done |]. simpl. intros n [? ?]. lia.
    + apply Forall_singleton. simpl. lia.
Qed.

Definition made (t : Tree) (parent : N) (seg : string) : NodeBody :=
  {| GetNodeId := nextId t; GetParentId := parent; GetTimestamp := clock t;
     GetMeta := [{| GetKey := a; GetValue := seg |}] |}.

Lemma ensure_missing t parent seg path :
  children a (nodes t) parent seg = [] →
  ensure a t parent (seg :: path) =
    ensure a (addTo t parent [{| GetKey := a; GetValue := seg |}]).1 (nextId t) path.
Proof. intros Hchildren. simpl. by rewrite Hchildren. Qed.

Lemma ensure_present t parent seg path child rest :
  children a (nodes t) parent seg = child :: rest →
  ensure a t parent (seg :: path) = ensure a t (GetNodeId child) path.
Proof. intros Hchildren. simpl. by rewrite Hchildren. Qed.

(** What [ensure] leaves: the nodes it found, then the ones it made; the
    path now resolves to the node it names; and when the path did not
    resolve before, that node is new and has no child. *)
Lemma ensure_spec path : ∀ t parent,
  wellFormed t → (parent < nextId t)%N →
  ∃ more,
    nodes (ensure a t parent path).1 = nodes t ++ more ∧
    wellFormed (ensure a t parent path).1 ∧
    ((ensure a t parent path).2 < nextId (ensure a t parent path).1)%N ∧
    resolve a (nodes (ensure a t parent path).1) parent path = Some (ensure a t parent path).2 ∧
    ((resolve a (nodes t) parent path = Some (ensure a t parent path).2 ∧ more = []) ∨
     (resolve a (nodes t) parent path = None ∧
      ∀ name, children a (nodes (ensure a t parent path).1) (ensure a t parent path).2 name = [])).
Proof.
  induction path as [| seg path IH]; intros t parent Hwf Hparent.
  - exists []. simpl. rewrite app_nil_r. do 4 (split; [done |]). by left.
  - destruct (children a (nodes t) parent seg) as [| child rest] eqn:Hchildren.
    + rewrite (ensure_missing _ _ _ _ Hchildren).
      set (t1 := (addTo t parent [{| GetKey := a; GetValue := seg |}]).1).
      assert (wellFormed t1) as Hwf1 by by apply addTo_wellFormed.
      assert (nodes t1 = nodes t ++ [made t parent seg]) as Hnodes1 by done.
      assert (children a (nodes t1) parent seg = [made t parent seg]) as Hchildren1.
      { rewrite Hnodes1, children_app, Hchildren. unfold children.
        rewrite filter_cons_True; [done |]. simpl. by rewrite decide_True. }
      destruct (IH t1 (nextId t) Hwf1) as (more & Hnodes & Hwf' & Hlt & Hresolve & Hcases);
        [simpl; lia |].
      set (e := ensure a t1 (nextId t) path) in *.
      exists (made t parent seg :: more).
      split; [by rewrite Hnodes, Hnodes1, <- app_assoc |].
      split; [done |]. split; [done |]. split.
      * assert (children a (nodes e.1) parent seg
                = made t parent seg :: children a more parent seg) as Hstep
          by (by rewrite Hnodes, children_app, Hchildren1).
        cbn [resolve]. rewrite Hstep. exact Hresolve.
      * right. split; [by simpl; rewrite Hchildren |].
        destruct Hcases as [[Hold ->] | [_ Hnone]]; [| done].
        assert (∀ name, children a (nodes t1) (nextId t) name = []) as Hfresh.
        { intros name. rewrite Hnodes1, children_app, (children_fresh t) by (done || lia).
          unfold children. rewrite filter_cons_False; [done |]. simpl. intros [Heq _]. lia. }
        intros name. rewrite Hnodes, app_nil_r.
        destruct path as [| seg' path'].
        -- apply Hfresh.
        -- simpl in Hold. by rewrite Hfresh in Hold.
    + rewrite (ensure_present _ _ _ _ _ _ Hchildren).
      assert (child ∈ nodes t) as Hchild.
      { assert (child ∈ children a (nodes t) parent seg) as Hin by (rewrite Hchildren; by left).
        by apply elem_of_children in Hin as (_ & _ & ?). }
      assert (GetNodeId child < nextId t)%N as Hid.
      { destruct Hwf as (_ & _ & Hbound). rewrite Forall_forall in Hbound.
        destruct (Hbound child Hchild). lia. }
      destruct (IH t (GetNodeId child) Hwf Hid) as (more & Hnodes & Hwf' & Hlt & Hresolve & Hcases).
      set (e := ensure a t (GetNodeId child) path) in *.
      exists more. split; [done |]. split; [done |]. split; [done |]. split.
      * assert (children a (nodes e.1) parent seg
                = child :: rest ++ children a more parent seg) as Hstep
          by (by rewrite Hnodes, children_app, Hchildren).
        cbn [resolve]. rewrite Hstep. exact Hresolve.
      * cbn [resolve]. by rewrite Hchildren.
Qed.

(** Replacing nodes by nodes with the same id, the same parent and the same
    name changes no path. *)
Definition sameSkeleton (g : NodeBody → NodeBody) (ns : list NodeBody) : Prop :=
  Forall (λ n, GetNodeId (g n) = GetNodeId n ∧ GetParentId (g n) = GetParentId n ∧
               attr a (GetMeta (g n)) = attr a (GetMeta n)) ns.

Lemma children_fmap g ns parent name :
  sameSkeleton g ns → children a (g <$> ns) parent name = g <$> children a ns parent name.
Proof.
  unfold children. induction 1 as [| n ns (Hid & Hparent & Hname) _ IH]; [done |].
  rewrite fmap_cons, !filter_cons, IH, Hparent, Hname.
  by destruct (decide _).
Qed.

Lemma resolve_fmap g ns path : ∀ parent,
  sameSkeleton g ns → resolve a (g <$> ns) parent path = resolve a ns parent path.
Proof.
  intros parent Hsame. revert parent.
  induction path as [| seg path IH]; intros parent; simpl; [done |].
  rewrite children_fmap by done.
  destruct (children a ns parent seg) as [| child rest] eqn:Hchildren; [done |]. simpl.
  assert (child ∈ ns) as Hchild.
  { assert (child ∈ children a ns parent seg) as Hin by (rewrite Hchildren; by left).
    by apply elem_of_children in Hin as (_ & _ & ?). }
  unfold sameSkeleton in Hsame. rewrite Forall_forall in Hsame.
  destruct (Hsame child Hchild) as [-> _]. apply IH.
Qed.

End Children.
End ForestPaths.

(** ** Decoding what the gateway wrote *)
Section DecodeWritten.
Import Neofs.
Context `{SDK}.

Lemma newTreeNode_loop_ID kvs : ∀ treeNode treeNode',
  newTreeNode_loop kvs treeNode = Ok treeNode' → ID treeNode' = ID treeNode.
Proof.
  induction kvs as [| kv kvs IH]; intros treeNode treeNode'; simpl; [by intros [= <-] |].
  repeat match goal with
         | |- context [decide ?P] => destruct (decide P)
         | |- context [DecodeString ?v] => destruct (DecodeString v)
         | |- context [if ?b then _ else _] => destruct b
         | |- context [Strconv.ParseInt ?v] => destruct (Strconv.ParseInt v) as [? [? |]]
         end; try done; intros Hloop; by apply IH in Hloop.
Qed.

Lemma newTreeNode_loop_ObjID_kept kvs : ∀ treeNode treeNode',
  oidKV ∉ GetKey <$> kvs →
  newTreeNode_loop kvs treeNode = Ok treeNode' → ObjID treeNode' = ObjID treeNode.
Proof.
  induction kvs as [| kv kvs IH]; intros treeNode treeNode' Hnot; simpl; [by intros [= <-] |].
  rewrite fmap_cons in Hnot. apply not_elem_of_cons in Hnot as [Hne Hnot].
  rewrite decide_False by done.
  repeat match goal with
         | |- context [decide ?P] => destruct (decide P)
         | |- context [if ?b then _ else _] => destruct b
         | |- context [Strconv.ParseInt ?v] => destruct (Strconv.ParseInt v) as [? [? |]]
         end; try done; intros Hloop; by apply IH in Hloop.
Qed.

Lemma newTreeNode_loop_ObjID kvs : ∀ treeNode treeNode' kv objID,
  NoDup (GetKey <$> kvs) → kv ∈ kvs → GetKey kv = oidKV →
  DecodeString (GetValue kv) = Ok objID →
  newTreeNode_loop kvs treeNode = Ok treeNode' → ObjID treeNode' = objID.
Proof.
  induction kvs as [| kv0 kvs IH]; intros treeNode treeNode' kv objID Hdup Hin Hkey Hdecode;
    [by apply elem_of_nil in Hin |].
  rewrite fmap_cons in Hdup. apply NoDup_cons in Hdup as [Hfirst Hdup].
  apply elem_of_cons in Hin as [<- | Hin]; simpl.
  - rewrite decide_True, Hdecode by done. intros Hloop.
    rewrite Hkey in Hfirst. by apply newTreeNode_loop_ObjID_kept in Hloop.
  - repeat match goal with
           | |- context [decide ?P] => destruct (decide P)
           | |- context [DecodeString ?v] => destruct (DecodeString v)
           | |- context [if ?b then _ else _] => destruct b
           | |- context [Strconv.ParseInt ?v] => destruct (Strconv.ParseInt v) as [? [? |]]
           end; try done; intros Hloop; by eapply IH in Hloop.
Qed.

Lemma newTreeNode_loop_Meta_kept kvs : ∀ treeNode treeNode' key,
  key ∉ GetKey <$> kvs →
  newTreeNode_loop kvs treeNode = Ok treeNode' → Meta treeNode' !! key = Meta treeNode !! key.
Proof.
  induction kvs as [| kv kvs IH]; intros treeNode treeNode' key Hnot; simpl; [by intros [= <-] |].
  rewrite fmap_cons in Hnot. apply not_elem_of_cons in Hnot as [Hne Hnot].
  repeat match goal with
         | |- context [decide ?P] => destruct (decide P)
         | |- context [DecodeString ?v] => destruct (DecodeString v)
         | |- context [if ?b then _ else _] => destruct b
         | |- context [Strconv.ParseInt ?v] => destruct (Strconv.ParseInt v) as [? [? |]]
         end; try done; intros Hloop; apply (IH _ _ key Hnot) in Hloop; try done.
  rewrite Hloop. simpl. by rewrite lookup_insert_ne.
Qed.

Lemma newTreeNode_loop_Meta kvs : ∀ treeNode treeNode' kv,
  NoDup (GetKey <$> kvs) → kv ∈ kvs → GetKey kv ≠ oidKV → GetKey kv ≠ sizeKV →
  newTreeNode_loop kvs treeNode = Ok treeNode' →
  Meta treeNode' !! GetKey kv = Some (GetValue kv).
Proof.
  induction kvs as [| kv0 kvs IH]; intros treeNode treeNode' kv Hdup Hin Hoid Hsize;
    [by apply elem_of_nil in Hin |].
  rewrite fmap_cons in Hdup. apply NoDup_cons in Hdup as [Hfirst Hdup].
  apply elem_of_cons in Hin as [<- | Hin]; simpl.
  - rewrite !decide_False by done. intros Hloop.
    apply (newTreeNode_loop_Meta_kept _ _ _ (GetKey kv)) in Hloop; [| done].
    rewrite Hloop. simpl. by rewrite lookup_insert_eq.
  - repeat match goal with
           | |- context [decide ?P] => destruct (decide P)
           | |- context [DecodeString ?v] => destruct (DecodeString v)
           | |- context [if ?b then _ else _] => destruct b
           | |- context [Strconv.ParseInt ?v] => destruct (Strconv.ParseInt v) as [? [? |]]
           end; try done; intros Hloop; by eapply IH in Hloop.
Qed.

(** The pairs [newTreeNode] takes: object ids that decode, sizes that are
    empty or parse. *)
Definition decodable (kv : KeyValue) : Prop :=
  (GetKey kv = oidKV → ∃ objID, DecodeString (GetValue kv) = Ok objID) ∧
  (GetKey kv = sizeKV →
   GetValue kv = "" ∨ ∃ size, Strconv.ParseInt (GetValue kv) = (size, None)).

Lemma newTreeNode_loop_Ok kvs : ∀ treeNode,
  Forall decodable kvs → ∃ treeNode', newTreeNode_loop kvs treeNode = Ok treeNode'.
Proof.
  induction kvs as [| kv kvs IH]; intros treeNode Hall; simpl; [eauto |].
  apply Forall_cons in Hall as [[Hoid Hsize] Hall].
  destruct (decide (GetKey kv = oidKV)) as [Hk | Hk].
  { destruct (Hoid Hk) as [objID ->]. by apply IH. }
  destruct (decide (GetKey kv = sizeKV)) as [Hk' | Hk']; [| by apply IH].
  destruct (Hsize Hk') as [-> | [size ->]]; [by apply IH |].
  destruct (0 <? String.length (GetValue kv))%nat; by apply IH.
Qed.

End DecodeWritten.

(** ** The unversioned slot *)
Section UnversionedSlot.
Import Neofs Forest.
Context `{SDK} `{LayerErrors}.
Variable treeID : string.

Definition keysToReturn : list string :=
  [oidKV; isUnversionedKV; isDeleteMarkerKV; etagKV; sizeKV].

(** The nodes the service holds at a path, oldest first. *)
Definition nodesAt (f : Forest) (path : list string) : list NodeBody :=
  match f !! treeID with
  | None => []
  | Some t =>
      match resolve fileNameKV (nodes t) 0 (removelast path) with
      | None => []
      | Some parent => children fileNameKV (nodes t) parent (List.last path "")
      end
  end.

(** A node as the service answers it to [getVersions]. *)
Definition answer (n : NodeBody) : NodeBody := project keysToReturn false n.

Lemma pathFromName_nonempty name : pathFromName name ≠ [].
Proof.
  assert (length (pathFromName name) = length (Strings.Split name separator)) as Hlen.
  { unfold pathFromName. repeat case_decide; by rewrite ?length_insert. }
  intros Hnil. rewrite Hnil in Hlen. simpl in Hlen.
  pose proof (Split_nonempty name separator). by destruct (Strings.Split name separator).
Qed.

Lemma getNodes_present f t path :
  path ≠ [] → f !! treeID = Some t →
  getNodes None treeID path keysToReturn false false f
    = (Returns (Ok (answer <$> nodesAt f path)), f).
Proof.
  intros Hpath Hf. unfold getNodes, bind, call, ret, nodesAt. simpl.
  unfold GetNodeByPath. simpl. rewrite Hf.
  destruct path as [| seg path]; [done |].
  by destruct (resolve fileNameKV (nodes t) 0 (removelast (seg :: path))).
Qed.

Lemma getNodes_absent f path :
  f !! treeID = None →
  getNodes None treeID path keysToReturn false false f = (Returns (Err ErrNodeNotFound), f).
Proof.
  intros Hf. unfold getNodes, bind, call, ret. simpl. unfold GetNodeByPath. simpl.
  by rewrite Hf.
Qed.

Lemma getVersions_present f t name onlyUnversioned :
  f !! treeID = Some t →
  getVersions None treeID name onlyUnversioned f
    = (Returns (getVersions_loop name onlyUnversioned
                  (answer <$> nodesAt f (pathFromName name)) []), f).
Proof.
  intros Hf. unfold getVersions, bind. fold keysToReturn.
  by rewrite (getNodes_present f t) by (done || apply pathFromName_nonempty).
Qed.

(** Where nothing is filed as unversioned, the lookup of the unversioned
    node ends in the sentinel: on a tree that does not exist yet, and on a
    tree whose nodes at the path all decode and carry no flag. *)
Lemma getUnversioned_none f name :
  getVersions_loop name true (answer <$> nodesAt f (pathFromName name)) [] = Ok [] →
  ∃ err, getUnversioned None treeID name f = (Returns (Err err), f) ∧
         IsErrNodeNotFound err = true.
Proof.
  intros Hnone. unfold getUnversioned, bind.
  destruct (f !! treeID) as [t |] eqn:Hf.
  - rewrite (getVersions_present f t) by done. rewrite Hnone. simpl. eauto.
  - unfold getVersions, bind. fold keysToReturn. rewrite getNodes_absent by done.
    simpl. destruct (Strings.Contains errNodeNotFoundText "not found"); simpl; eauto.
Qed.

Lemma getVersions_loop_app name onlyUnversioned nodes1 nodes2 : ∀ acc,
  getVersions_loop name onlyUnversioned (nodes1 ++ nodes2) acc =
    match getVersions_loop name onlyUnversioned nodes1 acc with
    | Ok acc' => getVersions_loop name onlyUnversioned nodes2 acc'
    | Err err => Err err
    end.
Proof.
  induction nodes1 as [| node nodes1 IH]; intros acc; simpl; [done |].
  destruct (newNodeVersion name node) as [nodeVersion | err]; [| done].
  by destruct (onlyUnversioned && negb (Data.IsUnversioned nodeVersion)).
Qed.

(** *** What [addVersion] writes *)

(** A write to the slot of [name]. *)
Definition slotWrite (name : string) (version : Data.NodeVersion) : Prop :=
  Data.FilePath (Data.Base version) = name ∧ Data.IsUnversioned version = true ∧
  int64 (Data.Size (Data.Base version)).

Lemma versionMeta_lookup version path :
  Data.IsUnversioned version = true →
  versionMeta version path !! fileNameKV = Some (List.last path "") ∧
  versionMeta version path !! oidKV = Some (EncodeToString (Data.OID (Data.Base version))) ∧
  versionMeta version path !! isUnversionedKV = Some "true" ∧
  versionMeta version path !! sizeKV =
    (if (0 <? Data.Size (Data.Base version))%Z
     then Some (Strconv.FormatInt (Data.Size (Data.Base version))) else None).
Proof.
  intros Hflag. unfold versionMeta. rewrite Hflag.
  unfold fileNameKV, oidKV, isUnversionedKV, sizeKV, etagKV, createdKV, ownerKV, isDeleteMarkerKV.
  destruct (0 <? Data.Size (Data.Base version))%Z,
    (0 <? String.length (Data.ETag (Data.Base version)))%nat,
    (Data.DeleteMarker version); by simplify_map_eq.
Qed.

Lemma metaToKV_elem meta key value :
  meta !! key = Some value → {| GetKey := key; GetValue := value |} ∈ metaToKV meta.
Proof.
  intros Hlookup. unfold metaToKV. apply list_elem_of_fmap. exists (key, value).
  split; [done |]. by apply elem_of_map_to_list.
Qed.

(** A node that carries what [addVersion] wrote for a write to the slot
    decodes to an unversioned version with the node's id and the object
    id that was written. *)
Lemma newNodeVersion_written name version (u : NodeBody) :
  slotWrite name version →
  GetMeta u = metaToKV (versionMeta version (pathFromName name)) →
  ∃ nodeVersion,
    newNodeVersion name (answer u) = Ok nodeVersion ∧
    Data.ID (Data.Base nodeVersion) = GetNodeId u ∧
    Data.OID (Data.Base nodeVersion) = Data.OID (Data.Base version) ∧
    Data.IsUnversioned nodeVersion = true.
Proof.
  intros (Hname & Hflag & Hsize) Hmeta.
  destruct (versionMeta_lookup version (pathFromName name) Hflag)
    as (_ & Hoid & Hunversioned & Hsizekv).
  set (meta := versionMeta version (pathFromName name)) in *.
  set (kvs := filter (λ kv, GetKey kv ∈ keysToReturn) (metaToKV meta)).
  assert (GetMeta (answer u) = kvs) as Hkvs by (unfold answer, project; simpl; by rewrite Hmeta).
  assert (NoDup (GetKey <$> kvs)) as Hdup.
  { apply (sublist_NoDup _ (GetKey <$> metaToKV meta)); [apply keys_metaToKV |].
    apply fmap_sublist, sublist_filter. }
  assert (∀ kv, kv ∈ kvs → meta !! GetKey kv = Some (GetValue kv)) as Hin.
  { intros kv [_ Hkv]%list_elem_of_filter. by apply elem_of_metaToKV. }
  assert (∀ key value, key ∈ keysToReturn → meta !! key = Some value →
                       {| GetKey := key; GetValue := value |} ∈ kvs) as Hkept.
  { intros key value Hkey Hlookup. apply list_elem_of_filter. split; [done |].
    by apply metaToKV_elem. }
  assert (Forall decodable kvs) as Hdecodable.
  { apply Forall_forall. intros kv Hkv. apply Hin in Hkv. split; intros Hkey.
    - rewrite Hkey, Hoid in Hkv. injection Hkv as <-.
      eexists. apply DecodeString_EncodeToString.
    - rewrite Hkey, Hsizekv in Hkv.
      destruct (0 <? Data.Size (Data.Base version))%Z; [| done].
      injection Hkv as <-. right. eexists. by apply ParseInt_FormatInt. }
  unfold newNodeVersion, newTreeNode. rewrite Hkvs.
  destruct (newTreeNode_loop_Ok kvs
              {| ID := GetNodeId (answer u); ObjID := oidZero;
                 TimeStamp := GetTimestamp (answer u); Size := 0; Meta := ∅ |} Hdecodable)
    as [treeNode Hloop].
  rewrite Hloop. eexists. split; [done |]. simpl.
  split; [by apply newTreeNode_loop_ID in Hloop |]. split.
  - eapply (newTreeNode_loop_ObjID kvs); [done | | | | done].
    + apply (Hkept oidKV); [| done]. by left.
    + done.
    + apply DecodeString_EncodeToString.
  - unfold TreeNode_Get.
    erewrite (newTreeNode_loop_Meta kvs _ _ {| GetKey := isUnversionedKV; GetValue := "true" |});
      [by apply bool_decide_eq_true_2 | done | | done | done | done].
    apply (Hkept isUnversionedKV); [| done]. right. by left.
Qed.

(** *** The slot *)

(** The nodes at the path are those of the start, [olds], and one more,
    [u], which carries what [addVersion] wrote for [version]. *)
Definition slot (f : Forest) (name : string) (olds : list NodeBody) (u : NodeBody)
    (version : Data.NodeVersion) : Prop :=
  slotWrite name version ∧
  ∃ t, f !! treeID = Some t ∧ wellFormed t ∧
       nodesAt f (pathFromName name) = olds ++ [u] ∧
       GetMeta u = metaToKV (versionMeta version (pathFromName name)).

Lemma emptyTree_wellFormed : wellFormed emptyTree.
Proof. split; [done |]. split; [constructor | constructor]. Qed.

Lemma removelast_last path : path ≠ [] → removelast path ++ [List.last path ""] = path.
Proof. intros Hpath. symmetry. by apply app_removelast_last. Qed.

(** Adding by path puts one node at the path, behind those that were
    there. *)
Lemma addNodeByPath_slot f path meta :
  path ≠ [] → (∀ t, f !! treeID = Some t → wellFormed t) →
  meta !! fileNameKV = Some (List.last path "") →
  ∃ f' t' u,
    addNodeByPath None treeID (removelast path) meta f = (Returns None, f') ∧
    f' !! treeID = Some t' ∧ wellFormed t' ∧
    nodesAt f' path = nodesAt f path ++ [u] ∧ GetMeta u = metaToKV meta.
Proof.
  intros Hpath Hwf Hname.
  set (t0 := default emptyTree (f !! treeID)).
  assert (wellFormed t0) as Hwf0.
  { unfold t0. destruct (f !! treeID) as [t |] eqn:Hf; [by apply Hwf | apply emptyTree_wellFormed]. }
  assert (0 < nextId t0)%N as Hroot by apply Hwf0.
  destruct (ensure_spec fileNameKV (removelast path) t0 0 Hwf0 Hroot)
    as (more & Hnodes & Hwf' & Hlt & Hresolve & Hcases).
  set (e := ensure fileNameKV t0 0 (removelast path)) in *.
  set (u := {| GetNodeId := nextId e.1; GetParentId := e.2; GetTimestamp := clock e.1;
               GetMeta := metaToKV meta |}).
  exists (<[treeID := (addTo e.1 e.2 (metaToKV meta)).1]> f), (addTo e.1 e.2 (metaToKV meta)).1, u.
  split; [| split; [| split; [| split]]].
  - unfold addNodeByPath, bind, call, ret. simpl. unfold AddByPath. simpl.
    fold t0. fold e. by destruct e.
  - by rewrite lookup_insert_eq.
  - by apply addTo_wellFormed.
  - unfold nodesAt at 1. rewrite lookup_insert_eq.
    change (nodes (addTo e.1 e.2 (metaToKV meta)).1) with (nodes e.1 ++ [u]).
    rewrite (resolve_app _ _ _ _ _ _ Hresolve), children_app. f_equal.
    + unfold nodesAt. fold t0 in Hcases.
      destruct Hcases as [[Hold ->] | [Hold Hnone]].
      * rewrite app_nil_r in Hnodes. rewrite Hnodes. unfold t0 in *.
        destruct (f !! treeID) as [t |]; simpl in *; [by rewrite Hold | done].
      * rewrite Hnone. unfold t0 in *.
        destruct (f !! treeID) as [t |]; simpl in *; [by rewrite Hold | done].
    + unfold children. rewrite filter_cons_True; [done |].
      simpl. split; [done |]. by rewrite attr_metaToKV.
  - done.
Qed.

(** The first write to a slot that holds nothing adds a node. *)
Lemma addVersion_first f name version :
  slotWrite name version →
  (∀ t, f !! treeID = Some t → wellFormed t) →
  getVersions_loop name true (answer <$> nodesAt f (pathFromName name)) [] = Ok [] →
  ∃ f' u,
    addVersion None treeID version f = (Returns None, f') ∧
    slot f' name (nodesAt f (pathFromName name)) u version.
Proof.
  intros Hwrite Hwf Hnone. pose proof Hwrite as (Hname & Hflag & Hsize).
  destruct (getUnversioned_none f name Hnone) as (err & Hlookup & Herr).
  destruct (versionMeta_lookup version (pathFromName name) Hflag) as (Hfile & _).
  destruct (addNodeByPath_slot f (pathFromName name) (versionMeta version (pathFromName name))
              (pathFromName_nonempty name) Hwf Hfile)
    as (f' & t' & u & Hadd & Hf' & Hwf' & Hnodes & Hmeta).
  exists f', u. split.
  - unfold addVersion. rewrite Hname, Hflag. unfold bind at 1. rewrite Hlookup, Herr. simpl.
    exact Hadd.
  - split; [done |]. by exists t'.
Qed.

Lemma NoDup_fmap_eq {A B} (g : A → B) (l : list A) x y :
  NoDup (g <$> l) → x ∈ l → y ∈ l → g x = g y → x = y.
Proof.
  induction l as [| z l IH]; intros Hdup Hx Hy Heq; [by apply elem_of_nil in Hx |].
  rewrite fmap_cons in Hdup. apply NoDup_cons in Hdup as [Hz Hdup].
  apply elem_of_cons in Hx as [-> | Hx], Hy as [-> | Hy]; [done | | | by apply IH].
  - destruct Hz. rewrite Heq. by apply list_elem_of_fmap_2.
  - destruct Hz. rewrite <- Heq. by apply list_elem_of_fmap_2.
Qed.

(** A later write finds the node of the slot, asks for its parent and moves
    it where it stands: same id, same place, new metadata. *)
Lemma addVersion_next f name olds u previous version :
  slotWrite name version →
  getVersions_loop name true (answer <$> olds) [] = Ok [] →
  slot f name olds u previous →
  ∃ f' u',
    addVersion None treeID version f = (Returns None, f') ∧
    slot f' name olds u' version ∧ GetNodeId u' = GetNodeId u.
Proof.
  intros Hwrite Hnone (Hprevious & t & Hf & Hwf & Hnodes & Hmeta).
  pose proof Hwrite as (Hname & Hflag & Hsize).
  destruct (newNodeVersion_written name previous u Hprevious Hmeta)
    as (node & Hdecode & Hid & _ & Hunversioned).
  set (path := pathFromName name) in *.
  set (meta := versionMeta version path).
  destruct (versionMeta_lookup version path Hflag) as (Hfile & _). fold meta in Hfile.
  (* the node of the slot, in the tree *)
  assert (∃ parent, resolve fileNameKV (nodes t) 0 (removelast path) = Some parent)
    as [parent Hresolve].
  { unfold nodesAt in Hnodes. rewrite Hf in Hnodes.
    destruct (resolve fileNameKV (nodes t) 0 (removelast path)); [eauto | by destruct olds]. }
  assert (nodesAt f path = children fileNameKV (nodes t) parent (List.last path "")) as Hat
    by (unfold nodesAt; by rewrite Hf, Hresolve).
  rewrite Hat in Hnodes.
  assert (u ∈ children fileNameKV (nodes t) parent (List.last path "")) as Hu
    by (rewrite Hnodes, elem_of_app; right; by left).
  apply elem_of_children in Hu as (Hparent & Hattr & Hin).
  destruct Hwf as (Hnext & Hdup & Hbound).
  assert ((0 < GetNodeId u < nextId t)%N ∧ (GetParentId u < nextId t)%N) as [Hidu Hparentu].
  { rewrite Forall_forall in Hbound. by apply Hbound. }
  (* the lookup of the unversioned node *)
  assert (getUnversioned None treeID name f = (Returns (Ok node), f)) as Hlookup.
  { unfold getUnversioned, bind. rewrite (getVersions_present f t) by done.
    fold path. rewrite Hat, Hnodes, fmap_app, getVersions_loop_app, Hnone. simpl.
    by rewrite Hdecode, Hunversioned. }
  (* its parent *)
  assert (getParent None treeID (GetNodeId u) f = (Returns (Ok (GetParentId u)), f)) as Hgetparent.
  { unfold getParent, getSubTree, bind, call, ret. simpl. unfold GetSubTree. simpl. rewrite Hf.
    rewrite decide_False by lia.
    destruct (list_find_elem_of (λ n, GetNodeId n = GetNodeId u) (nodes t) u Hin eq_refl)
      as [[i found] Hfound].
    rewrite Hfound. apply list_find_Some in Hfound as (Hfoundin%list_elem_of_lookup_2 & Heq & _).
    by rewrite (NoDup_fmap_eq GetNodeId (nodes t) found u Hdup Hfoundin Hin Heq). }
  (* the move *)
  set (u' := {| GetNodeId := GetNodeId u; GetParentId := GetParentId u;
                GetTimestamp := clock t; GetMeta := metaToKV meta |}).
  set (g := λ n, if decide (GetNodeId n = GetNodeId u) then u' else n).
  set (t' := moveIn t (GetNodeId u) (GetParentId u) (metaToKV meta)).
  assert (nodes t' = g <$> nodes t) as Hnodes' by done.
  assert (sameSkeleton fileNameKV g (nodes t)) as Hsame.
  { apply Forall_forall. intros n Hn. unfold g.
    destruct (decide (GetNodeId n = GetNodeId u)) as [Heq | Hne]; [| done].
    rewrite (NoDup_fmap_eq GetNodeId (nodes t) n u Hdup Hn Hin Heq). simpl.
    split; [done |]. split; [done |]. by rewrite attr_metaToKV, Hfile, Hattr. }
  assert (moveNode None treeID (GetNodeId u) (GetParentId u) meta f
          = (Returns None, <[treeID := t']> f)) as Hmove.
  { unfold moveNode, bind, call, ret. simpl. unfold Move. simpl. rewrite Hf.
    rewrite decide_True by (by apply list_elem_of_fmap_2). done. }
  exists (<[treeID := t']> f), u'. split; [| split; [| done]].
  - unfold addVersion. rewrite Hname, Hflag. unfold bind at 1. rewrite Hlookup.
    unfold bind. rewrite Hid, Hgetparent. exact Hmove.
  - split; [done |]. exists t'. split; [by rewrite lookup_insert_eq |]. split; [| split; [| done]].
    + split; [done |]. split.
      * rewrite Hnodes', <- list_fmap_compose.
        erewrite list_fmap_ext; [exact Hdup |]. intros i n _. simpl. unfold g.
        by destruct (decide (GetNodeId n = GetNodeId u)) as [-> |].
      * rewrite Hnodes'. apply Forall_fmap. eapply Forall_impl; [exact Hbound |].
        intros n [Hn1 Hn2]. simpl. unfold g.
        destruct (decide (GetNodeId n = GetNodeId u)); simpl; [| done]. split; lia.
    + unfold nodesAt. rewrite lookup_insert_eq, Hnodes', resolve_fmap by done.
      fold path. rewrite Hresolve, children_fmap, Hnodes, fmap_app by done. f_equal.
      * assert (NoDup (GetNodeId <$> (olds ++ [u]))) as Hdup'.
        { rewrite <- Hnodes. apply (sublist_NoDup _ (GetNodeId <$> nodes t)); [done |].
          apply fmap_sublist, sublist_filter. }
        rewrite fmap_app in Hdup'. apply NoDup_app in Hdup' as (_ & Hdisjoint & _).
        rewrite <- (list_fmap_id olds) at 2. apply list_fmap_ext. intros i n Hn.
        unfold g. rewrite decide_False; [done |]. intros Heq.
        apply (Hdisjoint (GetNodeId n)); [by eapply list_elem_of_fmap_2, list_elem_of_lookup_2 |].
        rewrite Heq. by left.
      * simpl. unfold g. by rewrite decide_True.
Qed.

(** Calls of [addVersion] one after the other: what each returned and the
    state they leave. *)
Fixpoint addVersions (versions : list Data.NodeVersion) (f : Forest)
  : list (outcome (option error)) * Forest :=
  match versions with
  | [] => ([], f)
  | version :: versions' =>
      let (returned, f1) := addVersion None treeID version f in
      let (rest, f') := addVersions versions' f1 in
      (returned :: rest, f')
  end.

Lemma last_cons {A} (l : list A) (x d : A) : List.last (x :: l) d = List.last l x.
Proof.
  revert x d. induction l as [| y l IH]; intros x d; [reflexivity |].
  change (List.last (x :: y :: l) d) with (List.last (y :: l) d). by rewrite !IH.
Qed.

Lemma addVersions_slot name olds versions : ∀ f u previous,
  getVersions_loop name true (answer <$> olds) [] = Ok [] →
  slot f name olds u previous →
  Forall (slotWrite name) versions →
  Forall (λ returned, returned = Returns None) (addVersions versions f).1 ∧
  ∃ u', slot (addVersions versions f).2 name olds u' (List.last versions previous) ∧
        GetNodeId u' = GetNodeId u.
Proof.
  induction versions as [| version versions IH]; intros f u previous Hnone Hslot Hwrites.
  - simpl. split; [constructor |]. eauto.
  - apply Forall_cons in Hwrites as [Hwrite Hwrites].
    destruct (addVersion_next f name olds u previous version Hwrite Hnone Hslot)
      as (f1 & u1 & Hcall & Hslot1 & Hid1).
    destruct (IH f1 u1 version Hnone Hslot1 Hwrites) as (Hall & u' & Hslot' & Hid').
    cbn [addVersions]. rewrite Hcall.
    destruct (addVersions versions f1) as [rest f'] eqn:Hrest. cbn [fst snd] in *.
    split; [by constructor |]. exists u'. split; [| congruence].
    by rewrite last_cons.
Qed.

(** In a slot, the listing of the unversioned nodes at the path gives one
    node: the node of the slot, with the object id written last. *)
Lemma slot_listed f name olds u version :
  getVersions_loop name true (answer <$> olds) [] = Ok [] →
  slot f name olds u version →
  ∃ node,
    getVersions None treeID name true f = (Returns (Ok [node]), f) ∧
    Data.ID (Data.Base node) = GetNodeId u ∧
    Data.OID (Data.Base node) = Data.OID (Data.Base version).
Proof.
  intros Hnone (Hwrite & t & Hf & Hwf & Hnodes & Hmeta).
  destruct (newNodeVersion_written name version u Hwrite Hmeta)
    as (node & Hdecode & Hid & Hoid & Hunversioned).
  exists node. split; [| done].
  rewrite (getVersions_present f t) by done.
  rewrite Hnodes, fmap_app, getVersions_loop_app, Hnone. simpl.
  by rewrite Hdecode, Hunversioned.
Qed.

(** C6, amended. Start from a state of the service in which the nodes at
    the path all decode and none is unversioned.  After any number [N >= 1]
    of [addVersion] calls with [IsUnversioned = true] at that path, every
    call has returned nil, exactly one unversioned node is listed at the
    path, it carries the object id of the last call and the node id it got
    in the first call, and the nodes that were at the path before are
    still there, followed by this one. *)
Theorem unversioned_slot (name : string) (version : Data.NodeVersion)
    (versions : list Data.NodeVersion) (f : Forest) :
  (∀ t, f !! treeID = Some t → wellFormed t) →
  getVersions_loop name true (answer <$> nodesAt f (pathFromName name)) [] = Ok [] →
  Forall (slotWrite name) (version :: versions) →
  let first := (addVersion None treeID version f).2 in
  let final := (addVersions (version :: versions) f).2 in
  Forall (λ returned, returned = Returns None) (addVersions (version :: versions) f).1 ∧
  ∃ node1 node u,
    getVersions None treeID name true first = (Returns (Ok [node1]), first) ∧
    getVersions None treeID name true final = (Returns (Ok [node]), final) ∧
    Data.OID (Data.Base node) = Data.OID (Data.Base (List.last versions version)) ∧
    Data.ID (Data.Base node) = Data.ID (Data.Base node1) ∧
    nodesAt final (pathFromName name) = nodesAt f (pathFromName name) ++ [u].
Proof.
  intros Hwf Hnone Hwrites. apply Forall_cons in Hwrites as [Hwrite Hwrites].
  destruct (addVersion_first f name version Hwrite Hwf Hnone) as (f1 & u1 & Hcall & Hslot1).
  destruct (addVersions_slot name _ versions f1 u1 version Hnone Hslot1 Hwrites)
    as (Hall & u & Hslot & Hid).
  destruct (slot_listed f1 name _ u1 version Hnone Hslot1) as (node1 & Hlisted1 & Hid1 & _).
  destruct (slot_listed _ name _ u _ Hnone Hslot) as (node & Hlisted & Hidn & Hoid).
  cbn [addVersions]. rewrite Hcall. cbn [snd].
  destruct (addVersions versions f1) as [rest f'] eqn:Hrest. cbn [fst snd] in *.
  split; [by constructor |]. exists node1, node, u.
  split; [done |]. split; [done |]. split; [done |]. split; [congruence |].
  by destruct Hslot as (_ & t & _ & _ & Hnodes & _).
Qed.

End UnversionedSlot.

Section UnversionedSlotExamples.
Import Neofs Forest.

Definition write (name : string) (objID : N) (unversioned : bool) : Data.NodeVersion :=
  {| Data.Base := {| Data.ID := 0; Data.OID := objID; Data.Timestamp := 0; Data.Size := 3;
                     Data.ETag := "etag"; Data.FilePath := name |};
     Data.DeleteMarker := None; Data.IsUnversioned := unversioned |}.

(** A bucket that was versioned when object 1 was put at key [k]. *)
Definition oneVersion : Tree :=
  {| nodes := [{| GetNodeId := 1; GetParentId := 0; GetTimestamp := 1;
                  GetMeta := metaToKV (versionMeta (write "k" 1 false) ["k"]) |}];
     nextId := 2; clock := 2 |}.

Definition versioned : Forest := {[ versionTree := oneVersion ]}.

Example versioned_put : (AddVersion None (write "k" 1 false) ∅).2 = versioned.
Proof. by vm_compute. Qed.

Definition listedVersion (name : string) (id : N) (objID : N) (ts : N) (unversioned : bool)
  : Data.NodeVersion :=
  {| Data.Base := {| Data.ID := id; Data.OID := objID; Data.Timestamp := ts; Data.Size := 3;
                     Data.ETag := "etag"; Data.FilePath := name |};
     Data.DeleteMarker := None; Data.IsUnversioned := unversioned |}.

(** C6, as stated, fails: no unversioned node is at [k] to start with, and
    after two unversioned writes two version nodes are at [k], the version
    put before and the unversioned one. *)
Lemma unversioned_writes_beside_a_version :
  (GetUnversioned None "k" versioned).1 = Returns (Err ErrNodeNotFound) ∧
  let final := (addVersions versionTree [write "k" 2 true; write "k" 3 true] versioned).2 in
  (GetVersions None "k" final).1 =
    Returns (Ok [listedVersion "k" 1 1 1 false; listedVersion "k" 2 3 3 true]).
Proof. split; [vm_compute; reflexivity |]. cbv zeta. vm_compute. reflexivity. Qed.

Lemma oneVersion_wellFormed : ∀ t, versioned !! versionTree = Some t → wellFormed t.
Proof.
  intros t Ht. unfold versioned in Ht. apply lookup_singleton_Some in Ht as [_ <-].
  split; [done |]. split; [apply (bool_decide_unpack _); by vm_compute |].
  repeat constructor; by vm_compute.
Qed.

Lemma unversioned_slot_witness :
  (∀ t, versioned !! versionTree = Some t → wellFormed t) ∧
  getVersions_loop "k" true (answer <$> nodesAt versionTree versioned (pathFromName "k")) []
    = Ok [] ∧
  Forall (slotWrite "k") [write "k" 2 true; write "k" 3 true; write "k" 4 true] ∧
  let first := (addVersion None versionTree (write "k" 2 true) versioned).2 in
  let final := (addVersions versionTree
                  [write "k" 2 true; write "k" 3 true; write "k" 4 true] versioned).2 in
  Forall (λ returned, returned = Returns None)
    (addVersions versionTree [write "k" 2 true; write "k" 3 true; write "k" 4 true]
       versioned).1 ∧
  ∃ node1 node u,
    getVersions None versionTree "k" true first = (Returns (Ok [node1]), first) ∧
    getVersions None versionTree "k" true final = (Returns (Ok [node]), final) ∧
    Data.OID (Data.Base node) = Data.OID (Data.Base (List.last
      [write "k" 3 true; write "k" 4 true] (write "k" 2 true))) ∧
    Data.ID (Data.Base node) = Data.ID (Data.Base node1) ∧
    nodesAt versionTree final (pathFromName "k")
      = nodesAt versionTree versioned (pathFromName "k") ++ [u].
Proof.
  assert (getVersions_loop "k" true
            (answer <$> nodesAt versionTree versioned (pathFromName "k")) [] = Ok [])
    as Hnone by (by vm_compute).
  assert (Forall (slotWrite "k") [write "k" 2 true; write "k" 3 true; write "k" 4 true])
    as Hwrites by (repeat constructor; by vm_compute).
  exact (conj oneVersion_wellFormed (conj Hnone (conj Hwrites
    (unversioned_slot versionTree "k" _ _ versioned oneVersion_wellFormed Hnone Hwrites)))).
Defined.

End UnversionedSlotExamples.

(** ** Prefixes and suffixes *)
Section Affixes.
Import Strings.

Lemma HasPrefix_app p k : HasPrefix (p +:+ k) p = true.
Proof.
  unfold HasPrefix. induction p as [| c p IH]; simpl; [by destruct k |].
  by destruct (ascii_dec c c).
Qed.

Lemma length_append (a b : string) : String.length (a +:+ b) = (String.length a + String.length b)%nat.
Proof. induction a as [| c a IH]; simpl; [done | by rewrite IH]. Qed.

Lemma substring_all s : String.substring 0 (String.length s) s = s.
Proof. induction s as [| c s IH]; simpl; [done | by rewrite IH]. Qed.

Lemma substring_drop p k :
  String.substring (String.length p) (String.length k) (p +:+ k) = k.
Proof. induction p as [| c p IH]; simpl; [apply substring_all | done]. Qed.

Lemma substring_take p k : String.substring 0 (String.length p) (p +:+ k) = p.
Proof.
  induction p as [| c p IH]; simpl; [by destruct k |]. by rewrite IH.
Qed.

Lemma TrimPrefix_app p k : TrimPrefix (p +:+ k) p = k.
Proof.
  unfold TrimPrefix. rewrite HasPrefix_app, length_append.
  replace (String.length p + String.length k - String.length p)%nat with (String.length k) by lia.
  apply substring_drop.
Qed.

(** A string that has the prefix is the prefix followed by what
    [TrimPrefix] leaves. *)
Lemma HasPrefix_TrimPrefix s p : HasPrefix s p = true → s = p +:+ TrimPrefix s p.
Proof.
  intros Hp. assert (∃ k, s = p +:+ k) as [k ->]; [| by rewrite TrimPrefix_app].
  unfold HasPrefix in Hp. revert s Hp.
  induction p as [| c p IH]; intros s Hp; simpl in *; [by exists s |].
  destruct s as [| c' s]; [done |]. simpl in Hp.
  destruct (ascii_dec c c') as [<- |]; [| done].
  destruct (IH s Hp) as [k ->]. by exists k.
Qed.

Lemma app_inj_prefix (p a b : string) : p +:+ a = p +:+ b → a = b.
Proof. induction p as [| c p IH]; simpl; [done |]. intros [= Heq]. by apply IH. Qed.

Lemma HasSuffix_app s k : HasSuffix (s +:+ k) k = true.
Proof.
  unfold HasSuffix. rewrite length_append. apply andb_true_iff. split.
  - apply Nat.leb_le. lia.
  - replace (String.length s + String.length k - String.length k)%nat with (String.length s) by lia.
    rewrite substring_drop. apply String.eqb_refl.
Qed.

Lemma TrimSuffix_app s k : TrimSuffix (s +:+ k) k = s.
Proof.
  unfold TrimSuffix. rewrite HasSuffix_app, length_append.
  replace (String.length s + String.length k - String.length k)%nat with (String.length s) by lia.
  apply substring_take.
Qed.

End Affixes.

(** ** What the client writes and reads back *)
Section Written.
Import Neofs.
Context `{SDK}.

(** A node as the service holds it after the client added or moved it
    with the metadata [meta]. *)
Definition written (id parent timestamp : N) (meta : gmap string string) : NodeBody :=
  {| GetNodeId := id; GetParentId := parent; GetTimestamp := timestamp;
     GetMeta := metaToKV meta |}.

Lemma not_elem_of_metaToKV (meta : gmap string string) key :
  meta !! key = None → key ∉ GetKey <$> metaToKV meta.
Proof.
  intros Hnone (kv & -> & Hin)%list_elem_of_fmap.
  apply elem_of_metaToKV in Hin. by rewrite Hnone in Hin.
Qed.

(** Metadata without an object id and a size is what [newTreeNode] files
    under [Meta], unchanged. *)
Lemma newTreeNode_written id parent timestamp (meta : gmap string string) :
  meta !! oidKV = None → meta !! sizeKV = None →
  ∃ treeNode, newTreeNode (written id parent timestamp meta) = Ok treeNode ∧
    ID treeNode = id ∧ ObjID treeNode = oidZero ∧ Meta treeNode = meta.
Proof.
  intros Hoid Hsize. unfold newTreeNode, written. cbn [GetMeta GetNodeId GetTimestamp].
  set (start := {| ID := id; ObjID := oidZero; TimeStamp := timestamp; Size := 0; Meta := ∅ |}).
  destruct (newTreeNode_loop_Ok (metaToKV meta) start) as [treeNode Hloop].
  { apply Forall_forall. intros kv Hin. apply elem_of_metaToKV in Hin.
    split; intros Hkey; rewrite Hkey in Hin; congruence. }
  exists treeNode. split; [done |]. split; [by apply newTreeNode_loop_ID in Hloop |].
  split.
  { apply newTreeNode_loop_ObjID_kept in Hloop; [done |]. by apply not_elem_of_metaToKV. }
  apply map_eq. intros key. destruct (meta !! key) as [value |] eqn:Hkey.
  - pose proof (metaToKV_elem meta key value Hkey) as Hin.
    eapply (newTreeNode_loop_Meta _ _ _ {| GetKey := key; GetValue := value |}) in Hloop;
      [done | apply keys_metaToKV | done | |]; simpl; congruence.
  - apply (newTreeNode_loop_Meta_kept _ _ _ key) in Hloop;
      [by rewrite Hloop | by apply not_elem_of_metaToKV].
Qed.

End Written.

(** ** Tags *)
Section Tags.
Import Neofs.
Context `{SDK}.

#[local] Instance app_inj p : Inj (=) (=) (String.append p).
Proof. intros a b. apply app_inj_prefix. Qed.

Lemma foldl_insert_kmap (f : string → string) `{!Inj (=) (=) f} (l : list (string * string)) :
  ∀ init : gmap string string, NoDup l.*1 →
  foldl (λ (acc : gmap string string) kv, <[f kv.1 := kv.2]> acc) init l
    = list_to_map (prod_map f id <$> l) ∪ init.
Proof.
  induction l as [| [k v] l IH]; intros init Hdup.
  - simpl. by rewrite (left_id_L ∅ (∪)).
  - rewrite fmap_cons in Hdup. apply NoDup_cons in Hdup as [Hk Hdup].
    simpl. rewrite IH by done.
    rewrite <- insert_union_l. symmetry. apply insert_union_r.
    apply not_elem_of_list_to_map_1. rewrite <- list_fmap_compose.
    intros ([k' v'] & Heq & Hin)%list_elem_of_fmap. simpl in Heq.
    apply (inj f) in Heq as ->. apply Hk, list_elem_of_fmap. by exists (k', v').
Qed.

(** The tag set a put writes: every tag under its key with the user
    prefix, beside what the map held. *)
Lemma addUserTags_kmap (treeTagSet tagSet : gmap string string) :
  addUserTags treeTagSet tagSet
    = kmap (String.append userDefinedTagPrefix) tagSet ∪ treeTagSet.
Proof.
  unfold addUserTags.
  rewrite (foldl_insert_kmap (String.append userDefinedTagPrefix))
    by apply NoDup_fst_map_to_list.
  done.
Qed.

Lemma userTags_foldl (l : list (string * string)) : ∀ (tags : gmap string string) key,
  NoDup l.*1 →
  foldl (λ (tags : gmap string string) kv,
           if Strings.HasPrefix kv.1 userDefinedTagPrefix
           then <[Strings.TrimPrefix kv.1 userDefinedTagPrefix := kv.2]> tags
           else tags) tags l !! key
  = match (list_to_map l : gmap string string) !! (userDefinedTagPrefix +:+ key) with
    | Some value => Some value
    | None => tags !! key
    end.
Proof.
  induction l as [| [k v] l IH]; intros tags key Hdup; [done |].
  rewrite fmap_cons in Hdup. apply NoDup_cons in Hdup as [Hk Hdup].
  simpl. rewrite IH by done.
  destruct (decide (k = userDefinedTagPrefix +:+ key)) as [-> | Hne].
  - rewrite lookup_insert_eq.
    rewrite (not_elem_of_list_to_map_1 _ _ Hk).
    by rewrite HasPrefix_app, TrimPrefix_app, lookup_insert_eq.
  - rewrite lookup_insert_ne by done.
    destruct (list_to_map l !! _); [done |].
    destruct (Strings.HasPrefix k userDefinedTagPrefix) eqn:Hp; [| done].
    apply lookup_insert_ne. intros Heq. apply Hne.
    rewrite (HasPrefix_TrimPrefix k _ Hp). by rewrite Heq.
Qed.

(** The tags read from a node: what its metadata holds under the keys with
    the user prefix. *)
Lemma lookup_userTags (meta : gmap string string) key :
  userTags meta !! key = meta !! (userDefinedTagPrefix +:+ key).
Proof.
  unfold userTags. rewrite userTags_foldl by apply NoDup_fst_map_to_list.
  rewrite list_to_map_to_list. by destruct (meta !! _).
Qed.

Lemma userTags_addUserTags (treeTagSet tagSet : gmap string string) :
  (∀ key, treeTagSet !! (userDefinedTagPrefix +:+ key) = None) →
  userTags (addUserTags treeTagSet tagSet) = tagSet.
Proof.
  intros Hfree. apply map_eq. intros key.
  rewrite lookup_userTags, addUserTags_kmap, lookup_union, Hfree.
  rewrite (lookup_kmap (String.append userDefinedTagPrefix)). by destruct (tagSet !! key).
Qed.

Lemma addUserTags_other (treeTagSet tagSet : gmap string string) key :
  Strings.HasPrefix key userDefinedTagPrefix = false →
  addUserTags treeTagSet tagSet !! key = treeTagSet !! key.
Proof.
  intros Hp. rewrite addUserTags_kmap, lookup_union.
  assert (kmap (String.append userDefinedTagPrefix) tagSet !! key = None) as ->.
  { apply (lookup_kmap_None (String.append userDefinedTagPrefix)).
    intros key' ->. by rewrite HasPrefix_app in Hp. }
  by destruct (treeTagSet !! key).
Qed.

(** X1. The tags of an object round-trip: the node that carries the
    metadata [PutObjectTagging] builds for a tag set decodes, is found
    under the tag key, and [getObjectTagging] reads the same tag set back
    from it, whatever the keys and values of the tags. *)
Theorem object_tagging_round_trip (tagSet : gmap string string) (id parent timestamp : N) :
  ∃ tagNode,
    newTreeNode (written id parent timestamp (objectTagMeta tagSet)) = Ok tagNode ∧
    TreeNode_Get tagNode isTagKV = Some "true" ∧
    getObjectTagging (Some tagNode) = Some tagSet.
Proof.
  destruct (newTreeNode_written id parent timestamp (objectTagMeta tagSet))
    as (tagNode & Hnode & _ & _ & Hmeta).
  - unfold objectTagMeta. by rewrite addUserTags_other.
  - unfold objectTagMeta. by rewrite addUserTags_other.
  - exists tagNode. split; [done |]. unfold TreeNode_Get, getObjectTagging. rewrite Hmeta.
    split.
    + unfold objectTagMeta. by rewrite addUserTags_other.
    + f_equal. apply userTags_addUserTags. intros key.
      apply lookup_insert_None. split; [done |]. unfold isTagKV, userDefinedTagPrefix. done.
Qed.

End Tags.

(** ** Locks *)
Section Locks.
Import Neofs.
Context `{SDK}.

(** The lock [getLock] reads from the node that [PutLock] wrote for
    [lock]: a legal hold or a retention that is not set leaves no trace of
    its object id, date and mode. *)
Definition readBack (lock : Data.LockInfo) (id : N) : Data.LockInfo :=
  {| Data.Lock_id := id;
     Data.legalHoldOID := if Data.IsLegalHoldSet lock then Data.LegalHold lock else oidZero;
     Data.setLegalHold := Data.IsLegalHoldSet lock;
     Data.retentionOID := if Data.IsRetentionSet lock then Data.Retention lock else oidZero;
     Data.setRetention := Data.IsRetentionSet lock;
     Data.untilDate := if Data.IsRetentionSet lock then Data.UntilDate lock else "";
     Data.isCompliance := Data.IsRetentionSet lock && Data.IsCompliance lock |}.

Lemma lockMeta_lookup (lock : Data.LockInfo) :
  lockMeta lock !! oidKV = None ∧ lockMeta lock !! sizeKV = None ∧
  lockMeta lock !! isLockKV = Some "true" ∧
  lockMeta lock !! legalHoldOIDKV =
    (if Data.IsLegalHoldSet lock then Some (EncodeToString (Data.LegalHold lock)) else None) ∧
  lockMeta lock !! retentionOIDKV =
    (if Data.IsRetentionSet lock then Some (EncodeToString (Data.Retention lock)) else None) ∧
  lockMeta lock !! untilDateKV =
    (if Data.IsRetentionSet lock then Some (Data.UntilDate lock) else None) ∧
  lockMeta lock !! isComplianceKV =
    (if Data.IsRetentionSet lock && Data.IsCompliance lock then Some "true" else None).
Proof.
  unfold lockMeta.
  unfold isLockKV, legalHoldOIDKV, retentionOIDKV, untilDateKV, isComplianceKV, oidKV, sizeKV.
  destruct (Data.IsLegalHoldSet lock), (Data.IsRetentionSet lock), (Data.IsCompliance lock);
    by simplify_map_eq.
Qed.

(** X2. The lock of an object round-trips: the node that carries the
    metadata [PutLock] builds for a lock decodes, is found under the lock
    key, and [getLock] reads back the id of the node, the two flags, and
    for each flag that is set the object id, the date and the compliance
    mode that were put. *)
Theorem lock_round_trip (lock : Data.LockInfo) (id parent timestamp : N) :
  ∃ lockNode,
    newTreeNode (written id parent timestamp (lockMeta lock)) = Ok lockNode ∧
    TreeNode_Get lockNode isLockKV = Some "true" ∧
    getLock (Some lockNode) = Ok (readBack lock id).
Proof.
  destruct (lockMeta_lookup lock) as (Hoid & Hsize & Hlock & Hhold & Hretention & Huntil & Hmode).
  destruct (newTreeNode_written id parent timestamp (lockMeta lock) Hoid Hsize)
    as (lockNode & Hnode & Hid & _ & Hmeta).
  exists lockNode. split; [done |].
  unfold getLock, TreeNode_Get, readBack. rewrite Hmeta, Hid.
  split; [done |]. rewrite Hhold, Hretention, Huntil, Hmode.
  destruct lock as [lid hold held retention retained until compliance].
  unfold Data.IsLegalHoldSet, Data.IsRetentionSet, Data.IsCompliance, Data.LegalHold,
    Data.Retention, Data.UntilDate, Data.SetLegalHold, Data.SetRetention, Data.NewLockInfo.
  cbn [Data.setLegalHold Data.setRetention Data.isCompliance Data.legalHoldOID
       Data.retentionOID Data.untilDate Data.Lock_id].
  destruct held, retained; rewrite ?DecodeString_EncodeToString;
    cbn [Data.setLegalHold Data.setRetention Data.isCompliance Data.legalHoldOID
         Data.retentionOID Data.untilDate Data.Lock_id andb default]; [| done | | done].
  - f_equal. f_equal. by destruct compliance.
  - f_equal. f_equal. by destruct compliance.
Qed.

(** Where no lock node hangs below the version, the lock is the empty one:
    nothing is held and nothing retained. *)
Lemma getLock_nil :
  ∃ lockInfo, getLock None = Ok lockInfo ∧
    Data.IsLegalHoldSet lockInfo = false ∧ Data.IsRetentionSet lockInfo = false.
Proof. by eexists. Qed.

End Locks.

(** ** Parts *)

(** Looks a key up in a list of pairs that begins with a known pair. *)
Ltac attr_step :=
  cbn [Forest.attr Neofs.GetKey Neofs.GetValue];
  repeat first [rewrite decide_True by done | rewrite decide_False by done].

Section Parts.
Import Neofs.
Context `{SDK}.

(** The part the loop of [newPartInfo] leaves, read off the pairs: every
    field from the pair with its key, or as it was. *)
Definition partFrom (kvs : list KeyValue) (partInfo : Data.PartInfo) : Data.PartInfo :=
  {| Data.Part_Key := Data.Part_Key partInfo;
     Data.Part_UploadID := Data.Part_UploadID partInfo;
     Data.Part_Number :=
       match Forest.attr partNumberKV kvs with
       | Some value => (Strconv.Atoi value).1
       | None => Data.Part_Number partInfo
       end;
     Data.Part_OID :=
       match Forest.attr oidKV kvs with
       | Some value => match DecodeString value with
                       | Ok objID => objID
                       | Err _ => Data.Part_OID partInfo
                       end
       | None => Data.Part_OID partInfo
       end;
     Data.Part_Size :=
       match Forest.attr sizeKV kvs with
       | Some value => (Strconv.ParseInt value).1
       | None => Data.Part_Size partInfo
       end;
     Data.Part_ETag := default (Data.Part_ETag partInfo) (Forest.attr etagKV kvs);
     Data.Part_Created :=
       match Forest.attr createdKV kvs with
       | Some value => (Strconv.ParseInt value).1
       | None => Data.Part_Created partInfo
       end |}.

Lemma attr_None key kvs : key ∉ GetKey <$> kvs → Forest.attr key kvs = None.
Proof.
  induction kvs as [| kv kvs IH]; [done |]. rewrite fmap_cons. intros [Hne Hnot]%not_elem_of_cons.
  simpl. rewrite decide_False by done. by apply IH.
Qed.

Lemma newPartInfo_loop_partFrom kvs : ∀ partInfo partInfo',
  NoDup (GetKey <$> kvs) →
  newPartInfo_loop kvs partInfo = Ok partInfo' → partInfo' = partFrom kvs partInfo.
Proof.
  induction kvs as [| [key value] kvs IH]; intros partInfo partInfo' Hdup.
  { simpl. intros [= <-]. by destruct partInfo. }
  rewrite fmap_cons in Hdup. apply NoDup_cons in Hdup as [Hfirst Hdup].
  pose proof (attr_None _ _ Hfirst) as Hattr.
  cbn [newPartInfo_loop GetKey GetValue] in *.
  unfold partFrom, partNumberKV, oidKV, etagKV, sizeKV, createdKV in *.
  destruct (decide (key = "Number")) as [-> | Hnumber].
  { destruct (Strconv.Atoi value) as [number [e |]] eqn:Hparse; [done |].
    intros Hloop. rewrite (IH _ _ Hdup Hloop). attr_step.
    by rewrite Hattr, Hparse. }
  destruct (decide (key = "OID")) as [-> | Hoid].
  { destruct (DecodeString value) as [objID | err] eqn:Hdecode; [| done].
    intros Hloop. rewrite (IH _ _ Hdup Hloop). attr_step.
    by rewrite Hattr, Hdecode. }
  destruct (decide (key = "ETag")) as [-> | Hetag].
  { intros Hloop. rewrite (IH _ _ Hdup Hloop). attr_step. by rewrite Hattr. }
  destruct (decide (key = "Size")) as [-> | Hsize].
  { destruct (Strconv.ParseInt value) as [size [e |]] eqn:Hparse; [done |].
    intros Hloop. rewrite (IH _ _ Hdup Hloop). attr_step.
    by rewrite Hattr, Hparse. }
  destruct (decide (key = "Created")) as [-> | Hcreated].
  { destruct (Strconv.ParseInt value) as [created [e |]] eqn:Hparse; [done |].
    intros Hloop. rewrite (IH _ _ Hdup Hloop). attr_step.
    by rewrite Hattr, Hparse. }
  intros Hloop. rewrite (IH _ _ Hdup Hloop). by attr_step.
Qed.

(** The pairs [newPartInfo] takes: numbers that parse, an object id that
    decodes. *)
Definition partDecodable (kv : KeyValue) : Prop :=
  (GetKey kv = partNumberKV → ∃ number, Strconv.Atoi (GetValue kv) = (number, None)) ∧
  (GetKey kv = oidKV → ∃ objID, DecodeString (GetValue kv) = Ok objID) ∧
  (GetKey kv = sizeKV → ∃ size, Strconv.ParseInt (GetValue kv) = (size, None)) ∧
  (GetKey kv = createdKV → ∃ created, Strconv.ParseInt (GetValue kv) = (created, None)).

Lemma newPartInfo_loop_Ok kvs : ∀ partInfo,
  Forall partDecodable kvs → ∃ partInfo', newPartInfo_loop kvs partInfo = Ok partInfo'.
Proof.
  induction kvs as [| kv kvs IH]; intros partInfo Hall; [by eexists |].
  apply Forall_cons in Hall as [(Hnumber & Hoid & Hsize & Hcreated) Hall].
  cbn [newPartInfo_loop].
  destruct (decide (GetKey kv = partNumberKV)) as [Hkey | _].
  { destruct (Hnumber Hkey) as [number ->]. by apply IH. }
  destruct (decide (GetKey kv = oidKV)) as [Hkey | _].
  { destruct (Hoid Hkey) as [objID ->]. by apply IH. }
  destruct (decide (GetKey kv = etagKV)) as [Hkey | _]; [by apply IH |].
  destruct (decide (GetKey kv = sizeKV)) as [Hkey | _].
  { destruct (Hsize Hkey) as [size ->]. by apply IH. }
  destruct (decide (GetKey kv = createdKV)) as [Hkey | _]; [| by apply IH].
  destruct (Hcreated Hkey) as [created ->]. by apply IH.
Qed.

Lemma partMeta_lookup (info : Data.PartInfo) :
  partMeta info !! partNumberKV = Some (Strconv.Itoa (Data.Part_Number info)) ∧
  partMeta info !! oidKV = Some (EncodeToString (Data.Part_OID info)) ∧
  partMeta info !! sizeKV = Some (Strconv.FormatInt (Data.Part_Size info)) ∧
  partMeta info !! createdKV = Some (Strconv.FormatInt (Data.Part_Created info)) ∧
  partMeta info !! etagKV = Some (Data.Part_ETag info) ∧
  partMeta info !! uploadIDKV = None.
Proof.
  unfold partMeta, partNumberKV, oidKV, sizeKV, createdKV, etagKV, uploadIDKV.
  by simplify_map_eq.
Qed.

(** X3. A part round-trips: the node that carries the metadata [AddPart]
    builds for a part with a number from 1 on, and a size and a creation
    time (in milliseconds) that are [int64] values, decodes in
    [newPartInfo] to that number, object id, size, ETag and time; the
    key and the upload id of the part are not written, and read back
    empty. *)
Theorem part_round_trip (info : Data.PartInfo) (id parent timestamp : N) :
  (1 ≤ Data.Part_Number info < 2 ^ 63)%Z →
  int64 (Data.Part_Size info) → int64 (Data.Part_Created info) →
  newPartInfo (written id parent timestamp (partMeta info)) =
    Ok {| Data.Part_Key := ""; Data.Part_UploadID := "";
          Data.Part_Number := Data.Part_Number info; Data.Part_OID := Data.Part_OID info;
          Data.Part_Size := Data.Part_Size info; Data.Part_ETag := Data.Part_ETag info;
          Data.Part_Created := Data.Part_Created info |}.
Proof.
  intros Hnumber Hsize Hcreated.
  destruct (partMeta_lookup info) as (Hn & Ho & Hs & Hc & He & _).
  assert (Strconv.Atoi (Strconv.Itoa (Data.Part_Number info)) = (Data.Part_Number info, None))
    as Hatoi by (apply ParseInt_FormatInt; lia).
  unfold newPartInfo, written. cbn [GetMeta].
  set (start := {| Data.Part_Key := ""; Data.Part_UploadID := ""; Data.Part_Number := 0;
                   Data.Part_OID := oidZero; Data.Part_Size := 0; Data.Part_ETag := "";
                   Data.Part_Created := zeroTime |}).
  destruct (newPartInfo_loop_Ok (metaToKV (partMeta info)) start) as [partInfo Hloop].
  { apply Forall_forall. intros kv Hin. apply elem_of_metaToKV in Hin.
    repeat split; intros Hkey; rewrite Hkey in Hin.
    - rewrite Hn in Hin. injection Hin as <-. eauto.
    - rewrite Ho in Hin. injection Hin as <-. eexists. apply DecodeString_EncodeToString.
    - rewrite Hs in Hin. injection Hin as <-. eexists. by apply ParseInt_FormatInt.
    - rewrite Hc in Hin. injection Hin as <-. eexists. by apply ParseInt_FormatInt. }
  rewrite Hloop.
  apply newPartInfo_loop_partFrom in Hloop; [| apply keys_metaToKV]. subst partInfo.
  unfold partFrom. rewrite !attr_metaToKV, Hn, Ho, Hs, Hc, He, Hatoi.
  rewrite DecodeString_EncodeToString, !ParseInt_FormatInt by done. simpl.
  destruct (Data.Part_Number info <=? 0)%Z eqn:Hle; [apply Z.leb_le in Hle; lia | done].
Qed.

Lemma newPartInfo_loop_Number_kept kvs : ∀ partInfo partInfo',
  partNumberKV ∉ GetKey <$> kvs →
  newPartInfo_loop kvs partInfo = Ok partInfo' →
  Data.Part_Number partInfo' = Data.Part_Number partInfo.
Proof.
  induction kvs as [| kv kvs IH]; intros partInfo partInfo' Hnone; [by intros [= <-] |].
  rewrite fmap_cons in Hnone. apply not_elem_of_cons in Hnone as [Hne Hnone].
  cbn [newPartInfo_loop]. rewrite decide_False by done.
  repeat match goal with
         | |- context [decide ?P] => destruct (decide P)
         | |- context [DecodeString ?v] => destruct (DecodeString v)
         | |- context [Strconv.ParseInt ?v] => destruct (Strconv.ParseInt v) as [? [? |]]
         end; try done; intros Hloop; by apply IH in Hloop.
Qed.

(** X4. A node without a part number is no part: [newPartInfo] returns an
    error for it, whatever else it carries, so [GetParts] and [AddPart]
    pass it over. *)
Theorem newPartInfo_without_number (node : NodeBody) :
  partNumberKV ∉ GetKey <$> GetMeta node → ∃ err, newPartInfo node = Err err.
Proof.
  intros Hnone. unfold newPartInfo.
  destruct (newPartInfo_loop _ _) as [partInfo | err] eqn:Hloop; [| by eexists].
  apply newPartInfo_loop_Number_kept in Hloop; [| done]. rewrite Hloop. by eexists.
Qed.

End Parts.

(** ** Multipart uploads *)
Section Uploads.
Import Neofs.
Context `{SDK}.

(** The keys [newMultipartInfo] reads into fields of their own. *)
Definition uploadKeys : list string := [uploadIDKV; fileNameKV; createdKV; ownerKV].

(** What the loop of [newMultipartInfo] leaves, read off the pairs. *)
Lemma newMultipartInfo_loop_fields (kvs : list KeyValue) : ∀ m : Data.MultipartInfo,
  NoDup (fmap (M := list) GetKey kvs) →
  let m' := newMultipartInfo_loop kvs m in
  Data.Multipart_ID m' = Data.Multipart_ID m ∧
  Data.Multipart_UploadID m' = default (Data.Multipart_UploadID m) (Forest.attr uploadIDKV kvs) ∧
  Data.Multipart_Key m' =
    match Forest.attr fileNameKV kvs with
    | Some value => Strings.TrimSuffix value emptyFileName
    | None => Data.Multipart_Key m
    end ∧
  Data.Multipart_Created m' =
    match Forest.attr createdKV kvs with
    | Some value => match Strconv.ParseInt value with
                    | (utcMilli, None) => utcMilli
                    | (_, Some _) => Data.Multipart_Created m
                    end
    | None => Data.Multipart_Created m
    end ∧
  Data.Multipart_Owner m' =
    match Forest.attr ownerKV kvs with
    | Some value => match userDecodeString value with
                    | Ok owner => owner
                    | Err _ => Data.Multipart_Owner m
                    end
    | None => Data.Multipart_Owner m
    end ∧
  ∀ key, Data.Multipart_Meta m' !! key =
    if decide (key ∈ uploadKeys) then Data.Multipart_Meta m !! key
    else match Forest.attr key kvs with
         | Some value => Some value
         | None => Data.Multipart_Meta m !! key
         end.
Proof.
  induction kvs as [| [key value] kvs IH]; intros m Hdup.
  { simpl. repeat split. intros key. by destruct (decide _). }
  rewrite fmap_cons in Hdup. apply NoDup_cons in Hdup as [Hfirst Hdup].
  pose proof (attr_None _ _ Hfirst) as Hattr.
  cbn [newMultipartInfo_loop GetKey GetValue] in *. cbn zeta.
  unfold uploadKeys, uploadIDKV, fileNameKV, createdKV, ownerKV in *.
  destruct (decide (key = "UploadId")) as [-> | Hupload].
  { destruct (IH (withUploadID m value) Hdup) as (Hid & Hu & Hk & Hc & Ho & Hm).
    rewrite Hid, Hu, Hk, Hc, Ho. attr_step. rewrite ?Hattr, ?Hparse, ?Hdecode. split_and!; try done.
    intros k. rewrite Hm. destruct (decide (k ∈ _)) as [| Hout]; [done |].
    rewrite decide_False; [done |]. intros <-. apply Hout. rewrite !elem_of_cons. auto 10. }
  destruct (decide (key = "FileName")) as [-> | Hfile].
  { destruct (IH (withKey m (Strings.TrimSuffix value emptyFileName)) Hdup)
      as (Hid & Hu & Hk & Hc & Ho & Hm).
    rewrite Hid, Hu, Hk, Hc, Ho. attr_step. rewrite ?Hattr, ?Hparse, ?Hdecode. split_and!; try done.
    intros k. rewrite Hm. destruct (decide (k ∈ _)) as [| Hout]; [done |].
    rewrite decide_False; [done |]. intros <-. apply Hout. rewrite !elem_of_cons. auto 10. }
  destruct (decide (key = "Created")) as [-> | Hcreated].
  { destruct (Strconv.ParseInt value) as [utcMilli [e |]] eqn:Hparse.
    - destruct (IH m Hdup) as (Hid & Hu & Hk & Hc & Ho & Hm).
      rewrite Hid, Hu, Hk, Hc, Ho. attr_step. rewrite ?Hattr, ?Hparse, ?Hdecode. split_and!; try done.
      intros k. rewrite Hm. destruct (decide (k ∈ _)) as [| Hout]; [done |].
      rewrite decide_False; [done |]. intros <-. apply Hout. rewrite !elem_of_cons. auto 10.
    - destruct (IH (withUploadCreated m utcMilli) Hdup) as (Hid & Hu & Hk & Hc & Ho & Hm).
      rewrite Hid, Hu, Hk, Hc, Ho. attr_step. rewrite ?Hattr, ?Hparse, ?Hdecode. split_and!; try done.
      intros k. rewrite Hm. destruct (decide (k ∈ _)) as [| Hout]; [done |].
      rewrite decide_False; [done |]. intros <-. apply Hout. rewrite !elem_of_cons. auto 10. }
  destruct (decide (key = "Owner")) as [-> | Howner].
  { destruct (userDecodeString value) as [owner | err] eqn:Hdecode.
    - destruct (IH (withOwner m owner) Hdup) as (Hid & Hu & Hk & Hc & Ho & Hm).
      rewrite Hid, Hu, Hk, Hc, Ho. attr_step. rewrite ?Hattr, ?Hparse, ?Hdecode. split_and!; try done.
      intros k. rewrite Hm. destruct (decide (k ∈ _)) as [| Hout]; [done |].
      rewrite decide_False; [done |]. intros <-. apply Hout. rewrite !elem_of_cons. auto 10.
    - destruct (IH m Hdup) as (Hid & Hu & Hk & Hc & Ho & Hm).
      rewrite Hid, Hu, Hk, Hc, Ho. attr_step. rewrite ?Hattr, ?Hparse, ?Hdecode. split_and!; try done.
      intros k. rewrite Hm. destruct (decide (k ∈ _)) as [| Hout]; [done |].
      rewrite decide_False; [done |]. intros <-. apply Hout. rewrite !elem_of_cons. auto 10. }
  destruct (IH (withMeta m (<[key := value]> (Data.Multipart_Meta m))) Hdup)
    as (Hid & Hu & Hk & Hc & Ho & Hm).
  rewrite Hid, Hu, Hk, Hc, Ho. attr_step. split_and!; try done.
  intros k. rewrite Hm. destruct (decide (k ∈ _)) as [Hin | Hout].
  - simpl. apply lookup_insert_ne. intros <-.
    rewrite !elem_of_cons, elem_of_nil in Hin.
    destruct Hin as [? | [? | [? | [? | []]]]]; done.
  - destruct (decide (key = k)) as [-> | Hne].
    + rewrite Hattr. simpl. by rewrite lookup_insert_eq.
    + destruct (Forest.attr k kvs); [done |]. simpl. by rewrite lookup_insert_ne.
Qed.

(** The metadata of an upload, key by key. *)
Lemma metaFromMultipart_lookup (info : Data.MultipartInfo) :
  metaFromMultipart info !! uploadIDKV = Some (Data.Multipart_UploadID info) ∧
  metaFromMultipart info !! fileNameKV = Some (Data.Multipart_Key info) ∧
  metaFromMultipart info !! createdKV = Some (Strconv.FormatInt (Data.Multipart_Created info)) ∧
  metaFromMultipart info !! ownerKV = Some (userEncodeToString (Data.Multipart_Owner info)) ∧
  ∀ key, key ∉ uploadKeys → metaFromMultipart info !! key = Data.Multipart_Meta info !! key.
Proof.
  unfold metaFromMultipart, uploadKeys, uploadIDKV, fileNameKV, createdKV, ownerKV.
  split_and!; try by simplify_map_eq.
  intros key Hkey. rewrite !not_elem_of_cons in Hkey.
  destruct Hkey as (? & ? & ? & ? & _). by rewrite !lookup_insert_ne.
Qed.

(** What [newMultipartInfo] leaves of the owner that was written. *)
Definition ownerReadBack (owner : userID) : userID :=
  match userDecodeString (userEncodeToString owner) with
  | Ok decoded => decoded
  | Err _ => userZero
  end.

(** X5. An upload round-trips: the node that carries the metadata
    [CreateMultipartUpload] builds for an upload with a non-empty upload
    id and a creation time whose milliseconds are an [int64] value decodes
    in [newMultipartInfo] to that upload id and time, the node's id, the
    key without a trailing empty-file-name mark, the owner as its string
    decodes, and the user metadata without the four keys the upload's own
    fields are written under. *)
Theorem upload_round_trip (info : Data.MultipartInfo) (id parent timestamp : N) :
  Data.Multipart_UploadID info ≠ "" → int64 (Data.Multipart_Created info) →
  newMultipartInfo (written id parent timestamp (metaFromMultipart info)) =
    Ok {| Data.Multipart_ID := id;
          Data.Multipart_Key := Strings.TrimSuffix (Data.Multipart_Key info) emptyFileName;
          Data.Multipart_UploadID := Data.Multipart_UploadID info;
          Data.Multipart_Owner := ownerReadBack (Data.Multipart_Owner info);
          Data.Multipart_Created := Data.Multipart_Created info;
          Data.Multipart_Meta :=
            delete createdKV (delete ownerKV (delete uploadIDKV (delete fileNameKV
              (Data.Multipart_Meta info)))) |}.
Proof.
  intros Hupload Hcreated.
  destruct (metaFromMultipart_lookup info) as (Hu & Hk & Hc & Ho & Hrest).
  unfold newMultipartInfo, written. cbn [GetMeta GetNodeId].
  set (start := {| Data.Multipart_ID := id; Data.Multipart_Key := "";
                   Data.Multipart_UploadID := ""; Data.Multipart_Owner := userZero;
                   Data.Multipart_Created := zeroTime; Data.Multipart_Meta := ∅ |}).
  destruct (newMultipartInfo_loop_fields (metaToKV (metaFromMultipart info)) start
              (keys_metaToKV _)) as (Hid & Huid & Hkey & Hcr & Hown & Hmeta).
  rewrite attr_metaToKV, Hu in Huid. rewrite attr_metaToKV, Hk in Hkey.
  rewrite attr_metaToKV, Hc, ParseInt_FormatInt in Hcr by done.
  rewrite attr_metaToKV, Ho in Hown.
  cbn [default] in Huid. rewrite decide_False by (by rewrite Huid). f_equal.
  destruct (newMultipartInfo_loop _ _) as [id' key' uploadID' owner' created' meta'].
  cbn [Data.Multipart_ID Data.Multipart_Key Data.Multipart_UploadID Data.Multipart_Owner
       Data.Multipart_Created Data.Multipart_Meta start] in *.
  rewrite Hid, Huid, Hkey, Hcr, Hown. unfold ownerReadBack. f_equal.
  apply map_eq. intros key. rewrite Hmeta.
  destruct (decide (key ∈ uploadKeys)) as [Hin | Hout].
  - rewrite lookup_empty. symmetry.
    unfold uploadKeys in Hin. rewrite !elem_of_cons, elem_of_nil in Hin.
    destruct Hin as [-> | [-> | [-> | [-> | []]]]];
      unfold uploadIDKV, fileNameKV, createdKV, ownerKV; by simplify_map_eq.
  - rewrite attr_metaToKV, (Hrest key Hout), lookup_empty.
    unfold uploadKeys in Hout. rewrite !not_elem_of_cons in Hout.
    destruct Hout as (? & ? & ? & ? & _).
    rewrite !lookup_delete_ne by done. by destruct (_ !! key).
Qed.

(** X6. A part is no upload: the node [AddPart] writes for a part is
    refused by [newMultipartInfo], which is how the listing of uploads
    skips the parts below them. *)
Theorem part_is_no_upload (info : Data.PartInfo) (id parent timestamp : N) :
  newMultipartInfo (written id parent timestamp (partMeta info))
    = Err (errorString "it's not a multipart node").
Proof.
  destruct (partMeta_lookup info) as (_ & _ & _ & _ & _ & Hnone).
  unfold newMultipartInfo, written. cbn [GetMeta GetNodeId].
  destruct (newMultipartInfo_loop_fields (metaToKV (partMeta info))
              {| Data.Multipart_ID := id; Data.Multipart_Key := "";
                 Data.Multipart_UploadID := ""; Data.Multipart_Owner := userZero;
                 Data.Multipart_Created := zeroTime; Data.Multipart_Meta := ∅ |}
              (keys_metaToKV _)) as (_ & Huid & _).
  rewrite attr_metaToKV, Hnone in Huid. cbn [default Data.Multipart_UploadID] in Huid.
  by rewrite decide_True.
Qed.

End Uploads.

(** ** Parts and uploads, written and read back *)
Section PartExamples.
Import Neofs.

Definition secondPart : Data.PartInfo (H := decimalSDK) :=
  {| Data.Part_Key := "photo.jpg"; Data.Part_UploadID := "upload-1"; Data.Part_Number := 2%Z;
     Data.Part_OID := 7%N; Data.Part_Size := 5242880%Z; Data.Part_ETag := "9b2cf535";
     Data.Part_Created := 1650000000000%Z |}.

Lemma part_round_trip_witness :
  (1 ≤ Data.Part_Number secondPart < 2 ^ 63)%Z ∧
  int64 (Data.Part_Size secondPart) ∧ int64 (Data.Part_Created secondPart) ∧
  newPartInfo (written 4 1 9 (partMeta secondPart)) =
    Ok {| Data.Part_Key := ""; Data.Part_UploadID := ""; Data.Part_Number := 2%Z;
          Data.Part_OID := 7%N; Data.Part_Size := 5242880%Z; Data.Part_ETag := "9b2cf535";
          Data.Part_Created := 1650000000000%Z |}.
Proof.
  assert (1 ≤ Data.Part_Number secondPart < 2 ^ 63)%Z as Hnumber by (by vm_compute).
  assert (int64 (Data.Part_Size secondPart)) as Hsize by (by vm_compute).
  assert (int64 (Data.Part_Created secondPart)) as Hcreated by (by vm_compute).
  exact (conj Hnumber (conj Hsize (conj Hcreated
           (part_round_trip secondPart 4 1 9 Hnumber Hsize Hcreated)))).
Defined.

Definition uploadRoot : NodeBody :=
  {| GetNodeId := 3; GetParentId := 0; GetTimestamp := 5;
     GetMeta := [{| GetKey := "FileName"; GetValue := "photo.jpg" |};
                 {| GetKey := "UploadId"; GetValue := "upload-1" |}] |}.

Lemma newPartInfo_without_number_witness :
  (partNumberKV ∉ GetKey <$> GetMeta uploadRoot) ∧
  ∃ err, newPartInfo (H := decimalSDK) uploadRoot = Err err.
Proof.
  assert (partNumberKV ∉ GetKey <$> GetMeta uploadRoot) as Hnone
    by (apply (bool_decide_unpack _); by vm_compute).
  exact (conj Hnone (newPartInfo_without_number uploadRoot Hnone)).
Defined.

Definition photoUpload : Data.MultipartInfo (H := decimalSDK) :=
  {| Data.Multipart_ID := 0; Data.Multipart_Key := "photo.jpg";
     Data.Multipart_UploadID := "upload-1"; Data.Multipart_Owner := "alice";
     Data.Multipart_Created := 1650000000000%Z;
     Data.Multipart_Meta := {[ "Content-Type" := "image/jpeg" ]} |}.

Lemma upload_round_trip_witness :
  Data.Multipart_UploadID photoUpload ≠ "" ∧ int64 (Data.Multipart_Created photoUpload) ∧
  newMultipartInfo (written 3 0 5 (metaFromMultipart photoUpload)) =
    Ok {| Data.Multipart_ID := 3;
          Data.Multipart_Key := Strings.TrimSuffix "photo.jpg" emptyFileName;
          Data.Multipart_UploadID := "upload-1";
          Data.Multipart_Owner := ownerReadBack (Data.Multipart_Owner photoUpload);
          Data.Multipart_Created := 1650000000000%Z;
          Data.Multipart_Meta :=
            delete createdKV (delete ownerKV (delete uploadIDKV (delete fileNameKV
              (Data.Multipart_Meta photoUpload)))) |}.
Proof.
  assert (Data.Multipart_UploadID photoUpload ≠ "") as Hupload by done.
  assert (int64 (Data.Multipart_Created photoUpload)) as Hcreated by (by vm_compute).
  exact (conj Hupload (conj Hcreated (upload_round_trip photoUpload 3 0 5 Hupload Hcreated))).
Defined.

End PartExamples.

(** ** Keys and paths *)
Section Keys.
Import Neofs.

Lemma formatUint_inj a b :
  (0 ≤ a)%Z → (0 ≤ b)%Z → Strconv.formatUint a = Strconv.formatUint b → a = b.
Proof.
  intros Ha Hb Heq. pose proof (parseDigits_formatUint a Ha) as Hpa.
  rewrite Heq, (parseDigits_formatUint b Hb) in Hpa. by injection Hpa.
Qed.

(** A dot ends a string of digits in one place only. *)
Lemma digits_dot_inj (s1 : string) : ∀ s2 f1 f2,
  Forall (λ c, Strconv.isDigit c = true) (String.list_ascii_of_string s1) →
  Forall (λ c, Strconv.isDigit c = true) (String.list_ascii_of_string s2) →
  s1 +:+ "." +:+ f1 = s2 +:+ "." +:+ f2 → s1 = s2 ∧ f1 = f2.
Proof.
  induction s1 as [| c1 s1 IH]; intros [| c2 s2] f1 f2 H1 H2 Heq; simpl in *.
  - by injection Heq.
  - injection Heq as <- _. apply Forall_cons in H2 as [Hc _]. by vm_compute in Hc.
  - injection Heq as -> _. apply Forall_cons in H1 as [Hc _]. by vm_compute in Hc.
  - injection Heq as -> Heq. apply Forall_cons in H1 as [_ H1]. apply Forall_cons in H2 as [_ H2].
    destruct (IH _ _ _ H1 H2 Heq) as [-> ->]. done.
Qed.

(** X7. The key [getSubTreeVersions] groups the versions under tells the
    parent and the file name apart: two nodes share a key only when they
    have the same parent and the same file name, whatever dots or digits
    the names hold. *)
Theorem formLatestNodeKey_inj (parentID parentID' : N) (fileName fileName' : string) :
  formLatestNodeKey parentID fileName = formLatestNodeKey parentID' fileName' →
  parentID = parentID' ∧ fileName = fileName'.
Proof.
  unfold formLatestNodeKey, Strconv.FormatUint. intros Heq.
  apply digits_dot_inj in Heq as [Hid Hname]; try (apply formatUint_digits; lia).
  split; [| done]. apply formatUint_inj in Hid; lia.
Qed.

Lemma formLatestNodeKey_inj_witness :
  formLatestNodeKey 12 "3.txt" = formLatestNodeKey 12 "3.txt" ∧ 12%N = 12%N ∧ "3.txt" = "3.txt".
Proof.
  exact (conj eq_refl (formLatestNodeKey_inj 12 12 "3.txt" "3.txt" eq_refl)).
Defined.

(** X8. [pathFromName] gives as many segments as the name splits into at
    the separator, and neither the first nor the last of them is empty:
    an empty one is replaced by the marker. *)
Theorem pathFromName_ends (objectName : string) :
  length (pathFromName objectName) = length (Strings.Split objectName separator) ∧
  head (pathFromName objectName) ≠ Some "" ∧
  last (pathFromName objectName) ≠ Some "" ∧
  is_Some (head (pathFromName objectName)).
Proof.
  pose proof (Split_nonempty objectName separator) as Hsplit.
  unfold pathFromName.
  set (path := Strings.Split objectName separator) in *.
  set (path' := if decide (path !! 0%nat = Some "") then <[0%nat := emptyFileName]> path else path).
  assert (length path' = length path) as Hlen
    by (unfold path'; case_decide; by rewrite ?length_insert).
  assert (head path' ≠ Some "") as Hhead.
  { unfold path'. case_decide as Hfirst.
    - destruct path; [done |]. simpl. by intros [=].
    - by rewrite head_lookup. }
  assert (path' ≠ []) as Hne by (intros Hnil; rewrite Hnil in Hlen; by destruct path).
  rewrite <- Hlen. clearbody path'. clear Hlen.
  induction path' as [| final init _] using rev_ind; [done |].
  replace (length (init ++ [final]) - 1)%nat with (length init + 0)%nat
    by (rewrite length_app; simpl; lia).
  rewrite lookup_app_r, Nat.add_comm, Nat.add_sub by lia. simpl.
  assert (∀ x, head (init ++ [x]) ≠ Some "" → x ≠ "" →
               head (init ++ [x]) ≠ Some "" ∧ last (init ++ [x]) ≠ Some "" ∧
               is_Some (head (init ++ [x]))) as Hends.
  { intros x Hx Hne'. rewrite last_snoc. split_and!; [done | by intros [=] |].
    destruct init; simpl; eauto. }
  case_decide as Hlast.
  - rewrite insert_app_r_alt, Nat.sub_diag by lia. simpl. rewrite !length_app. split; [done |].
    apply Hends; [| done]. destruct init; [by intros [=] | done].
  - split; [done |]. apply Hends; [done |]. intros ->. done.
Qed.

End Keys.

(** ** What the reads return *)
Section Reads.
Import Neofs.
Context `{SDK} `{LayerErrors} {S : Type} `{TreeServiceClient S}.
Variable signRequest : option error.

Lemma newPartInfo_Number node partInfo :
  newPartInfo node = Ok partInfo → (0 < Data.Part_Number partInfo)%Z.
Proof.
  unfold newPartInfo. destruct (newPartInfo_loop _ _) as [p | err]; [| done].
  destruct (Data.Part_Number p <=? 0)%Z eqn:Hle; [done |].
  intros [= <-]. by apply Z.leb_gt in Hle.
Qed.

Lemma GetParts_loop_numbers multipartNodeID parts :
  Forall (λ partInfo, (0 < Data.Part_Number partInfo)%Z) (GetParts_loop multipartNodeID parts).
Proof.
  induction parts as [| part parts IH]; simpl; [constructor |].
  destruct (GetNodeId part =? multipartNodeID)%N; [done |].
  destruct (newPartInfo part) as [partInfo |] eqn:Hpart; [| done].
  constructor; [| done]. by eapply newPartInfo_Number.
Qed.

Lemma getSubTree_returns treeID rootID depth s :
  ∃ r s', getSubTree signRequest treeID rootID depth s = (Returns r, s').
Proof.
  unfold getSubTree, bind, call, ret. destruct signRequest; [eauto |].
  destruct (service_GetSubTree _ s) as [[[subtree [err |]] | err] s']; simpl;
    repeat case_match; eauto.
Qed.

Lemma getNodes_returns treeID path meta latestOnly allAttrs s :
  ∃ r s', getNodes signRequest treeID path meta latestOnly allAttrs s = (Returns r, s').
Proof.
  unfold getNodes, bind, call, ret. destruct signRequest; [eauto |].
  destruct (service_GetNodeByPath _ s) as [[nodes | err] s']; simpl; repeat case_match; eauto.
Qed.

(** X9. Whatever the service answers, [GetParts] returns, and the parts
    it returns all carry a number from 1 on: a child of the upload that
    does not decode to such a part is left out, not reported. *)
Theorem GetParts_numbers (multipartNodeID : N) (s : S) :
  ∃ r s', GetParts signRequest multipartNodeID s = (Returns r, s') ∧
    ∀ parts, r = Ok parts → Forall (λ partInfo, (1 ≤ Data.Part_Number partInfo)%Z) parts.
Proof.
  unfold GetParts, bind, ret.
  destruct (getSubTree_returns systemTree multipartNodeID 1 s) as ([parts | err] & s' & ->).
  - eexists _, _. split; [done |]. intros ? [= <-].
    eapply Forall_impl; [apply GetParts_loop_numbers |]. simpl. lia.
  - eexists _, _. split; [done |]. by intros ? [=].
Qed.

Lemma GetMultipartUpload_loop_found uploadID nodes info :
  GetMultipartUpload_loop uploadID nodes = Ok info →
  Data.Multipart_UploadID info = uploadID ∧ uploadID ≠ "" ∧
  ∃ node, node ∈ nodes ∧ newMultipartInfo node = Ok info.
Proof.
  induction nodes as [| node nodes IH]; simpl; [done |].
  destruct (newMultipartInfo node) as [found | err] eqn:Hnode.
  - destruct (decide (Data.Multipart_UploadID found = uploadID)) as [Hid | Hne].
    + intros [= <-]. split; [done |]. split.
      * unfold newMultipartInfo in Hnode. case_decide as Hempty; [done |].
        injection Hnode as <-. by rewrite <- Hid.
      * exists node. split; [apply list_elem_of_here | done].
    + intros (? & ? & n & Hin & Hn)%IH. split_and!; [done .. |].
      exists n. split; [by apply list_elem_of_further | done].
  - intros (? & ? & n & Hin & Hn)%IH. split_and!; [done .. |].
    exists n. split; [by apply list_elem_of_further | done].
Qed.

(** X10. Whatever the service answers, [GetMultipartUpload] returns, and
    an upload it returns carries the upload id that was asked for, which
    is not empty: asked for the empty upload id, it finds nothing. *)
Theorem GetMultipartUpload_found (objectName uploadID : string) (s : S) :
  ∃ r s', GetMultipartUpload signRequest objectName uploadID s = (Returns r, s') ∧
    (∀ info, r = Ok info → Data.Multipart_UploadID info = uploadID ∧ uploadID ≠ "") ∧
    (uploadID = "" → ∃ err, r = Err err).
Proof.
  unfold GetMultipartUpload, bind, ret.
  destruct (getNodes_returns systemTree (pathFromName objectName) [] false true s)
    as ([nodes | err] & s' & ->).
  - eexists _, _. split; [done |]. split.
    + intros info Hfound. apply GetMultipartUpload_loop_found in Hfound as (? & ? & _). done.
    + intros ->. destruct (GetMultipartUpload_loop "" nodes) as [info | err] eqn:Hloop; [| eauto].
      apply GetMultipartUpload_loop_found in Hloop as (_ & ? & _). done.
  - eexists _, _. split; [done |]. split; [by intros ? [=] | eauto].
Qed.

Lemma getVersions_loop_unversioned filepath nodes : ∀ acc versions,
  Forall (λ version, Data.IsUnversioned version = true ∧
                     Data.FilePath (Data.Base version) = filepath) acc →
  getVersions_loop filepath true nodes acc = Ok versions →
  Forall (λ version, Data.IsUnversioned version = true ∧
                     Data.FilePath (Data.Base version) = filepath) versions.
Proof.
  induction nodes as [| node nodes IH]; intros acc versions Hacc; simpl.
  { by intros [= <-]. }
  unfold newNodeVersion. destruct (newTreeNode node) as [treeNode | err]; [| done].
  destruct (Data.IsUnversioned (newNodeVersionFromTreeNode filepath treeNode)) eqn:Hun; simpl.
  - apply IH. apply Forall_app. split; [done |]. by repeat constructor.
  - by apply IH.
Qed.

(** X11. Whatever the service answers, [getUnversioned] returns, and the
    version it returns is an unversioned one at the path asked for. *)
Theorem getUnversioned_unversioned (treeID filepath : string) (s : S) :
  ∃ r s', getUnversioned signRequest treeID filepath s = (Returns r, s') ∧
    ∀ node, r = Ok node →
      Data.IsUnversioned node = true ∧ Data.FilePath (Data.Base node) = filepath.
Proof.
  unfold getUnversioned, getVersions, bind, ret.
  destruct (getNodes_returns treeID (pathFromName filepath)
              [oidKV; isUnversionedKV; isDeleteMarkerKV; etagKV; sizeKV] false false s)
    as ([nodes | err] & s' & ->).
  - destruct (getVersions_loop filepath true nodes []) as [versions | err] eqn:Hloop.
    + apply getVersions_loop_unversioned in Hloop; [| constructor].
      destruct versions as [| version [| second versions]]; eexists _, _; (split; [done |]);
        intros node [= <-]. by apply Forall_cons in Hloop as [? _].
    + eexists _, _. split; [done |]. by intros ? [=].
  - destruct (Strings.Contains (Error err) "not found"); eexists _, _; (split; [done |]);
      by intros ? [=].
Qed.

End Reads.

(** ** The versions of a subtree *)
Section SubTree.
Import Neofs.
Context `{SDK} `{LayerErrors} {S : Type} `{TreeServiceClient S}.
Variable signRequest : option error.

(** What the first loop of [getSubTreeVersions] keeps of every group: it
    is not empty, and when only the latest is asked for it holds one
    version. *)
Definition grouped (latestOnly : bool) (versionNodes : list Data.NodeVersion) : Prop :=
  if latestOnly then ∃ version, versionNodes = [version] else versionNodes ≠ [].

Lemma getSubTreeVersions_loop_grouped parentPrefix latestOnly subTree : ∀ i namesMap versions,
  map_Forall (λ _, grouped latestOnly) versions →
  ∃ r, getSubTreeVersions_loop parentPrefix latestOnly i subTree namesMap versions = Returns r ∧
    ∀ versions', r = Ok versions' → map_Forall (λ _, grouped latestOnly) versions'.
Proof.
  induction subTree as [| node rest IH]; intros i namesMap versions Hall; simpl.
  { eexists. split; [done |]. by intros ? [= <-]. }
  destruct (parseTreeNode node) as [[treeNode fileName] | err]; [| by apply IH].
  destruct (if negb (i =? 0)%nat then formFilePath node fileName namesMap else _)
    as [[filepath | err] namesMap'].
  2: { eexists. split; [done |]. by intros ? [=]. }
  destruct (decide (ObjID treeNode = oidZero)); [by apply IH |].
  destruct (versions !! _) as [versionNodes |] eqn:Hgroup.
  - pose proof (Hall _ _ Hgroup) as Hg. unfold grouped in Hg.
    destruct latestOnly; simpl.
    + destruct Hg as [first ->]. case_match; apply IH; apply map_Forall_insert_2; try done;
        by eexists.
    + apply IH. apply map_Forall_insert_2; [| done]. simpl. by destruct versionNodes.
  - apply IH. apply map_Forall_insert_2; [| done]. unfold grouped. destruct latestOnly; eauto.
Qed.

Lemma getSubTreeVersions_result_grouped latestOnly groups : ∀ res,
  Forall (grouped latestOnly) groups →
  (latestOnly = true → Forall (λ version, Data.DeleteMarker version = None) res) →
  ∃ res', getSubTreeVersions_result latestOnly groups res = Returns res' ∧
    (latestOnly = true → Forall (λ version, Data.DeleteMarker version = None) res').
Proof.
  induction groups as [| group groups IH]; intros res Hall Hres; simpl; [eauto |].
  apply Forall_cons in Hall as [Hgroup Hall]. unfold grouped in Hgroup.
  destruct latestOnly.
  - destruct Hgroup as [first ->]. case_bool_decide as Hmarker; [by apply IH |].
    apply IH; [done |]. intros _. apply Forall_app. split; [by apply Hres |].
    repeat constructor. destruct (Data.DeleteMarker first); [| done].
    exfalso. apply Hmarker. eauto.
  - apply IH; [done |]. by intros [=].
Qed.

(** X12. Whatever the service answers, [getSubTreeVersions] returns: the
    first element its two loops read of a group is there, since no group
    is stored empty.  When only the latest versions are asked for, no
    delete marker is among the versions returned. *)
Theorem getSubTreeVersions_returns (nodeID : N) (parentFilePath : string) (latestOnly : bool)
    (s : S) :
  ∃ r s', getSubTreeVersions signRequest nodeID parentFilePath latestOnly s = (Returns r, s') ∧
    ∀ versions, r = Ok versions → latestOnly = true →
      Forall (λ version, Data.DeleteMarker version = None) versions.
Proof.
  unfold getSubTreeVersions, bind, ret, lift.
  destruct (getSubTree_returns signRequest versionTree nodeID maxGetSubTreeDepth s)
    as ([subTree | err] & s' & ->).
  2: { eexists _, _. split; [done |]. by intros ? [=]. }
  destruct (getSubTreeVersions_loop_grouped (parentPrefix parentFilePath) latestOnly subTree
              0 ∅ ∅) as ([versions | err] & -> & Hgroups); [apply map_Forall_empty | |].
  2: { eexists _, _. split; [done |]. by intros ? [=]. }
  destruct (getSubTreeVersions_result_grouped latestOnly (map_to_list versions).*2 [])
    as (res & -> & Hres).
  - apply Forall_fmap, Forall_forall. intros [key group] Hin%elem_of_map_to_list.
    by apply (Hgroups versions eq_refl key group).
  - by constructor.
  - eexists _, _. split; [done |]. intros ? [= <-]. done.
Qed.

End SubTree.

(** ** The nodes under a prefix *)
Section ByPrefix.
Import Neofs.

(** A list of [getSubTreeByPrefix] for one file name, when only the
    latest is asked for: nodes of the subtree other than its root with
    this name, and no leaf after the first place. *)
Definition filed (rootID : N) (tailPrefix : string) (subTree : list NodeBody)
    (fileName : string) (nodes : list NodeBody) : Prop :=
  nodes ≠ [] ∧
  Strings.HasPrefix fileName tailPrefix = true ∧
  Forall (λ node, node ∈ subTree ∧ GetNodeId node ≠ rootID ∧ getFilename node = fileName) nodes.

Definition leafFirst (nodes : list NodeBody) : Prop :=
  Forall (λ node, isIntermediate node = true) (tail nodes).

Lemma getSubTreeByPrefix_loop_filed rootID tailPrefix latestOnly (all : list NodeBody)
    (subTree : list NodeBody) : ∀ nodesMap,
  subTree ⊆ all →
  map_Forall (filed rootID tailPrefix all) nodesMap →
  (latestOnly = true → map_Forall (λ _, leafFirst) nodesMap) →
  map_Forall (filed rootID tailPrefix all)
    (getSubTreeByPrefix_loop rootID tailPrefix latestOnly subTree nodesMap) ∧
  (latestOnly = true →
   map_Forall (λ _, leafFirst)
     (getSubTreeByPrefix_loop rootID tailPrefix latestOnly subTree nodesMap)).
Proof.
  induction subTree as [| node rest IH]; intros nodesMap Hsub Hfiled Hleaf; simpl; [done |].
  assert (rest ⊆ all) as Hrest by (intros n Hn; apply Hsub; by apply list_elem_of_further).
  assert (node ∈ all) as Hnode by (apply Hsub, list_elem_of_here).
  destruct (GetNodeId node =? rootID)%N eqn:Hroot; [by apply IH |].
  apply N.eqb_neq in Hroot.
  destruct (Strings.HasPrefix (getFilename node) tailPrefix) eqn:Hprefix; simpl; [| by apply IH].
  assert (Forall (λ n, n ∈ all ∧ GetNodeId n ≠ rootID ∧ getFilename n = getFilename node) [node])
    as Hone by (by repeat constructor).
  apply Forall_cons in Hone as Hnew. destruct Hnew as [Hnew _].
  destruct (nodesMap !! getFilename node) as [[| first others] |] eqn:Hgroup; simpl.
  - by destruct (Hfiled _ _ Hgroup) as [? _].
  - destruct (Hfiled _ _ Hgroup) as (_ & _ & Hnodes).
    pose proof Hnodes as Hfirst. apply Forall_cons in Hfirst as [Hfirst Hothers].
    apply IH; [done | |].
    + apply map_Forall_insert_2; [| done].
      destruct (negb latestOnly || isIntermediate node);
        [| destruct (isIntermediate first);
           [| destruct (GetTimestamp first <? GetTimestamp node)%N]];
        (split; [done | split; [done |]]).
      * apply (Forall_app _ (first :: others) [node]). by split.
      * by constructor.
      * by constructor.
      * done.
    + intros ->. apply map_Forall_insert_2; [| by apply Hleaf].
      pose proof (Hleaf eq_refl _ _ Hgroup) as Htail. unfold leafFirst in *.
      simpl in *.
      destruct (isIntermediate node) eqn:Hnodekind; simpl.
      * apply Forall_app. split; [done |]. by repeat constructor.
      * destruct (isIntermediate first) eqn:Hfirstkind; simpl; [by constructor |].
        by destruct (GetTimestamp first <? GetTimestamp node)%N.
  - apply IH; [done | |].
    + apply map_Forall_insert_2; [| done]. by split.
    + intros Hlatest. apply map_Forall_insert_2; [| by apply Hleaf]. by constructor.
Qed.

(** X13. The lists [getSubTreeByPrefix] collects are filed by file name:
    every node of a list is a node of the subtree other than its root,
    carries the name of the list, and that name starts with the tail of
    the prefix.  When only the latest is asked for, every node after the
    first of a list is an intermediate one, so a name keeps one leaf at
    most, in the first place. *)
Theorem getSubTreeByPrefix_loop_latest (rootID : N) (tailPrefix : string) (latestOnly : bool)
    (subTree : list NodeBody) :
  map_Forall (λ fileName nodes,
      filed rootID tailPrefix subTree fileName nodes ∧
      (latestOnly = true →
       (length (filter (λ node, isIntermediate node = false) nodes) ≤ 1)%nat ∧
       Forall (λ node, isIntermediate node = true) (tail nodes)))
    (getSubTreeByPrefix_loop rootID tailPrefix latestOnly subTree ∅).
Proof.
  destruct (getSubTreeByPrefix_loop_filed rootID tailPrefix latestOnly subTree subTree ∅)
    as [Hfiled Hleaf]; [done | apply map_Forall_empty | intros _; apply map_Forall_empty |].
  intros fileName nodes Hlookup. split; [by apply (Hfiled fileName) |].
  intros Hlatest. pose proof (Hleaf Hlatest fileName nodes Hlookup) as Htail.
  split; [| done]. unfold leafFirst in Htail.
  destruct nodes as [| first others]; [simpl; lia |]. cbn [tail] in Htail.
  assert (filter (λ node, isIntermediate node = false) others = []) as Hnone.
  { clear Hlookup. induction Htail as [| node others Hnode _ IH]; [done |].
    rewrite filter_cons_False by (by rewrite Hnode). exact IH. }
  rewrite filter_cons, Hnone. case_decide; simpl; lia.
Qed.

End ByPrefix.

(** ** Intermediate nodes *)
Section Intermediate.
Import Neofs.
Context `{SDK}.

(** A node that carries a map of metadata is an intermediate one just
    when the map holds a file name and nothing else. *)
Lemma isIntermediate_written (id parent timestamp : N) (meta : gmap string string) :
  isIntermediate (written id parent timestamp meta) = true ↔
  ∃ fileName, meta = {[ fileNameKV := fileName ]}.
Proof.
  unfold isIntermediate, written, metaToKV. cbn [GetMeta]. split.
  - destruct (map_to_list meta) as [| [key value] [| second rest]] eqn:Hlist; simpl; try done.
    intros Hkey%bool_decide_eq_true. simpl in Hkey. subst key. exists value.
    rewrite <- (list_to_map_to_list meta), Hlist. simpl. by rewrite insert_empty.
  - intros [fileName ->]. by rewrite map_to_list_singleton.
Qed.

Lemma not_intermediate (id parent timestamp : N) (meta : gmap string string) key :
  key ≠ fileNameKV → is_Some (meta !! key) →
  isIntermediate (written id parent timestamp meta) = false.
Proof.
  intros Hkey [value Hvalue].
  destruct (isIntermediate _) eqn:Hkind; [| done].
  apply isIntermediate_written in Hkind as [fileName ->].
  by rewrite lookup_singleton_ne in Hvalue.
Qed.

Lemma versionMeta_OID version path :
  versionMeta version path !! oidKV = Some (EncodeToString (Data.OID (Data.Base version))).
Proof.
  unfold versionMeta.
  unfold fileNameKV, oidKV, isUnversionedKV, sizeKV, etagKV, createdKV, ownerKV, isDeleteMarkerKV.
  destruct (0 <? Data.Size (Data.Base version))%Z,
    (0 <? String.length (Data.ETag (Data.Base version)))%nat,
    (Data.DeleteMarker version), (Data.IsUnversioned version); by simplify_map_eq.
Qed.

(** X14. What the client writes for a version, for a part and for an
    upload is never taken for an intermediate node of a path when it is
    read back: beside the file name, or in its place, the node carries
    the object id, the part number or the upload id.  The node of the
    bucket tags is different: it is taken for an intermediate node just
    when the tag set is empty. *)
Theorem written_leaves (id parent timestamp : N) :
  (∀ version path, isIntermediate (written id parent timestamp (versionMeta version path)) = false) ∧
  (∀ info, isIntermediate (written id parent timestamp (partMeta info)) = false) ∧
  (∀ info, isIntermediate (written id parent timestamp (metaFromMultipart info)) = false) ∧
  (∀ tagSet, isIntermediate (written id parent timestamp (bucketTagMeta tagSet)) = true ↔
             tagSet = ∅).
Proof.
  split_and!.
  - intros version path. apply (not_intermediate _ _ _ _ oidKV); [done |].
    rewrite versionMeta_OID. eauto.
  - intros info. apply (not_intermediate _ _ _ _ partNumberKV); [done |].
    destruct (partMeta_lookup info) as (-> & _). eauto.
  - intros info. apply (not_intermediate _ _ _ _ uploadIDKV); [done |].
    destruct (metaFromMultipart_lookup info) as (-> & _). eauto.
  - intros tagSet. rewrite isIntermediate_written. unfold bucketTagMeta.
    rewrite addUserTags_kmap. split.
    + intros [fileName Heq]. apply map_eq. intros key. rewrite lookup_empty.
      pose proof (f_equal (λ m : gmap string string, m !! (userDefinedTagPrefix +:+ key)) Heq)
        as Hkey. cbv beta in Hkey.
      rewrite lookup_union_l in Hkey by (by rewrite lookup_insert_ne).
      rewrite (lookup_kmap (String.append userDefinedTagPrefix)) in Hkey.
      by rewrite lookup_singleton_ne in Hkey.
    + intros ->. exists bucketTaggingFilename. rewrite kmap_empty, (left_id_L ∅ (∪)).
      by rewrite insert_empty.
Qed.

End Intermediate.
